(** * Filter_Program: the filter pipeline of [filter_H1.cpp]

    A shallow embedding of the pixel grid, the point, convolution,
    composite and median filters, the box-averaging resize and the
    character-art writer, the reader and the writer of bitmap files and
    the path handling of the program, followed by the properties the
    specification states about them and by further properties of the
    code.

    Conventions of the embedding.
    - [BYTE] ([uint8_t]) values are integers in [0, 256); every store into
      a [BYTE] goes through [to_byte], the conversion modulo 256.
    - [int] locals are unbounded integers; [/] and [%] on [int] are the
      truncating [Z.quot] and [Z.rem].  The sums and products formed by
      the filters stay far below 2^31 for any image that fits in memory,
      but for the sums of the resize and the row length of the file
      reader and writer: these are formed with a check of the range of
      [int], and leaving it is undefined behaviour.
    - [float] and [double] expressions are evaluated with the IEEE-754
      operations of [SpecFloat] at binary32 and binary64.
    - Undefined behaviour (an access outside an array, an integer division
      by zero) is the result [None]: the functions that index an array or
      divide return an [option], and a loop stops at the first [None].
    - A [std::string] is the list of its characters.  The files are a
      finite map from paths to bytes; the command that [system] runs and
      the content of memory that was allocated and not written are
      parameters.  Memory is unbounded: no allocation fails. *)

From Stdlib Require Import ZArith Lia List Ascii String.
From Stdlib Require Import Floats.SpecFloat.
From stdpp Require Import base option list numbers strings gmap.

Open Scope Z_scope.

(** ** Machine arithmetic *)

(** Conversion of an [int] to [BYTE]. *)
Definition to_byte (z : Z) : Z := z mod 256.

(** [std::clamp(v, lo, hi)] on [int]. *)
Definition clamp (v lo hi : Z) : Z :=
  if v <? lo then lo else if hi <? v then hi else v.

(** [a / b] on [int]: truncation toward zero, undefined for [b = 0]. *)
Definition int_div (a b : Z) : option Z :=
  if b =? 0 then None else Some (a ÷ b).

Definition INT_MIN : Z := - 2 ^ 31.
Definition INT_MAX : Z := 2 ^ 31 - 1.

(** [a + b] on [int], undefined when the sum leaves the type. *)
Definition int_add (a b : Z) : option Z :=
  if bool_decide (INT_MIN ≤ a + b ≤ INT_MAX) then Some (a + b) else None.

(** Conversion of a binary float to an integer, truncating toward zero.
    C++ leaves the conversion of a NaN, of an infinity and of a value
    outside the target type undefined; the embedding gives the first two
    the value [INT_MIN] that the x86 conversion instructions produce and
    keeps the integer part of a finite value.  The properties below do
    not rest on these cases: the products of [multiply_image] are shown
    to be exact, the resize is evaluated on concrete images, and of the
    blur, the sepia tone and the gradient magnitude only the place of the
    stored value matters. *)
Definition sf_trunc (x : spec_float) : Z :=
  match x with
  | S754_zero _ => 0
  | S754_finite s m e =>
      let mag := if 0 <=? e then Z.pos m * 2 ^ e else Z.pos m / 2 ^ (- e) in
      if s then - mag else mag
  | _ => INT_MIN
  end.

(** [round] of <cmath> followed by the conversion to [int]: the nearest
    integer, halves away from zero. *)
Definition sf_round (x : spec_float) : Z :=
  match x with
  | S754_zero _ => 0
  | S754_finite s m e =>
      let mag :=
        if 0 <=? e then Z.pos m * 2 ^ e
        else (2 * Z.pos m + 2 ^ (- e)) / (2 * 2 ^ (- e)) in
      if s then - mag else mag
  | _ => INT_MIN
  end.

(** [float]: IEEE-754 binary32. *)
Module F32.
Definition prec : Z := 24.
Definition emax : Z := 128.
Definition of_int (z : Z) : spec_float := binary_normalize prec emax z 0 false.
Definition add : spec_float → spec_float → spec_float := SFadd prec emax.
Definition mul : spec_float → spec_float → spec_float := SFmul prec emax.
Definition div : spec_float → spec_float → spec_float := SFdiv prec emax.
(** [std::clamp] on [float]. *)
Definition clamp (v lo hi : spec_float) : spec_float :=
  if SFltb v lo then lo else if SFltb hi v then hi else v.
(** [static_cast<int>]. *)
Definition to_int (x : spec_float) : Z := sf_trunc x.
(** [static_cast<BYTE>]. *)
Definition to_BYTE (x : spec_float) : Z := to_byte (sf_trunc x).
End F32.

(** [double]: IEEE-754 binary64. *)
Module F64.
Definition prec : Z := 53.
Definition emax : Z := 1024.
Definition of_int (z : Z) : spec_float := binary_normalize prec emax z 0 false.
Definition add : spec_float → spec_float → spec_float := SFadd prec emax.
Definition mul : spec_float → spec_float → spec_float := SFmul prec emax.
Definition div : spec_float → spec_float → spec_float := SFdiv prec emax.
Definition sqrt : spec_float → spec_float := SFsqrt prec emax.
(** The decimal literal [n / d], [d] a power of ten, correctly rounded. *)
Definition lit (n d : Z) : spec_float := div (of_int n) (of_int d).
(** [int x = round(v)]. *)
Definition round_to_int (x : spec_float) : Z := sf_round x.
End F64.

(** ** Data model *)

(** [struct Pixeldata]: three bytes in blue, green, red order. *)
Record Pixeldata : Type := mkPixel { B : Z; G : Z; R : Z }.

(** A two-dimensional array [T**]: a list of rows. *)
Abbreviation grid A := (list (list A)).

(** [struct ImageDetails]. *)
Record ImageDetails : Type := mkImage {
  width : Z;
  height : Z;
  pixels : grid Pixeldata
}.

(** [struct AsciiFilter]. *)
Record AsciiFilter : Type := mkAscii {
  a_width : Z;
  a_height : Z;
  a_pixels : grid ascii
}.

(** The same image object with its pixel array in a new state. *)
Definition with_pixels (image : ImageDetails) (px : grid Pixeldata) : ImageDetails :=
  mkImage (width image) (height image) px.

(** [a[i]], undefined outside the array. *)
Definition arr_get {A : Type} (a : list A) (i : Z) : option A :=
  if bool_decide (0 ≤ i) then a !! Z.to_nat i else None.

(** [a[i] = v], undefined outside the array. *)
Definition arr_set {A : Type} (a : list A) (i : Z) (v : A) : option (list A) :=
  if bool_decide (0 ≤ i < Z.of_nat (length a)) then Some (<[Z.to_nat i := v]> a)
  else None.

(** [g[y][x]]. *)
Definition get_at {A : Type} (g : grid A) (y x : Z) : option A :=
  row ← arr_get g y; arr_get row x.

(** [g[y][x] = v]. *)
Definition set_at {A : Type} (g : grid A) (y x : Z) (v : A) : option (grid A) :=
  row ← arr_get g y; row' ← arr_set row x v; arr_set g y row'.

(** [new T[n]]: the cells are indeterminate until written, [d] stands for
    their content. *)
Definition new_array {A : Type} (d : A) (n : Z) : list A :=
  replicate (Z.to_nat n) d.

(** [new T*[h]] with [new T[w]] for each row. *)
Definition alloc {A : Type} (d : A) (h w : Z) : grid A :=
  new_array (new_array d w) h.

(** ** Loops *)

(** [n] iterations of [body] from index [i] upward. *)
Fixpoint for_loop {St : Type} (n : nat) (i : Z) (body : Z → St → option St)
    (s : St) : option St :=
  match n with
  | O => Some s
  | S n' => s' ← body i s; for_loop n' (i + 1) body s'
  end.

(** [for (int i = lo; i < hi; i++) body]. *)
Definition for_range {St : Type} (lo hi : Z) (body : Z → St → option St)
    (s : St) : option St :=
  for_loop (Z.to_nat (hi - lo)) lo body s.

(** [for (int y = y0; y < y1; y++) for (int x = x0; x < x1; x++) body]. *)
Definition for_yx {St : Type} (y0 y1 x0 x1 : Z) (body : Z → Z → St → option St)
    (s : St) : option St :=
  for_range y0 y1 (λ y, for_range x0 x1 (λ x, body y x)) s.

(** [for (int i = hi; i >= lo; i--) body]. *)
Fixpoint for_down_loop {St : Type} (n : nat) (i : Z) (body : Z → St → option St)
    (s : St) : option St :=
  match n with
  | O => Some s
  | S n' => s' ← body i s; for_down_loop n' (i - 1) body s'
  end.

Definition for_down {St : Type} (hi lo : Z) (body : Z → St → option St)
    (s : St) : option St :=
  for_down_loop (Z.to_nat (hi - lo + 1)) hi body s.

(** ** Helpers of the filters *)

(** [ascending_sort]: exchange sort of the first [num_elements] cells. *)
Definition ascending_sort (colour : list Z) (num_elements : Z) : option (list Z) :=
  for_range 0 num_elements (λ i,
    for_range (i + 1) num_elements (λ j colour,
      cj ← arr_get colour j;
      ci ← arr_get colour i;
      if cj <? ci then
        let temp := ci in
        colour ← arr_set colour i cj;
        arr_set colour j temp
      else Some colour)) colour.

(** Content of a freshly allocated pixel. *)
Definition fresh_pixel : Pixeldata := mkPixel 0 0 0.

(** [copy_pixels]: a newly allocated array filled cell by cell. *)
Definition copy_pixels (source : grid Pixeldata) (height width : Z)
    : option (grid Pixeldata) :=
  for_yx 0 height 0 width (λ y x destination,
    p ← get_at source y x;
    set_at destination y x p) (alloc fresh_pixel height width).

(** [subtract_images(a, b, result)]: [a - b] on each channel, stored into a
    [BYTE] without clamping. *)
Definition subtract_pixel (pa pb : Pixeldata) : Pixeldata :=
  {| R := to_byte (R pa - R pb);
     G := to_byte (G pa - G pb);
     B := to_byte (B pa - B pb) |}.

Definition subtract_images (a b result : ImageDetails) : option ImageDetails :=
  px ← for_yx 0 (height a) 0 (width a) (λ y x res,
    pa ← get_at (pixels a) y x;
    pb ← get_at (pixels b) y x;
    set_at res y x (subtract_pixel pa pb)) (pixels result);
  Some (with_pixels result px).

(** [multiply_image(image, scalar)]: the product is formed in [float],
    converted to [int] and clamped. *)
Definition multiply_channel (c : Z) (scalar : spec_float) : Z :=
  to_byte (clamp (F32.to_int (F32.mul (F32.of_int c) scalar)) 0 255).

Definition multiply_pixel (scalar : spec_float) (p : Pixeldata) : Pixeldata :=
  {| R := multiply_channel (R p) scalar;
     G := multiply_channel (G p) scalar;
     B := multiply_channel (B p) scalar |}.

Definition multiply_image (image : ImageDetails) (scalar : spec_float)
    : option ImageDetails :=
  px ← for_yx 0 (height image) 0 (width image) (λ y x px,
    p ← get_at px y x;
    set_at px y x (multiply_pixel scalar p)) (pixels image);
  Some (with_pixels image px).

(** [add_images(a, b, result)] as [applySharpen] calls it, with [a] and
    [result] the same object [image]: operand [a] is read from the array
    that is being written. *)
Definition add_pixel (pa pb : Pixeldata) : Pixeldata :=
  {| R := to_byte (clamp (R pa + R pb) 0 255);
     G := to_byte (clamp (G pa + G pb) 0 255);
     B := to_byte (clamp (B pa + B pb) 0 255) |}.

Definition add_images (image b : ImageDetails) : option ImageDetails :=
  px ← for_yx 0 (height image) 0 (width image) (λ y x res,
    pa ← get_at res y x;
    pb ← get_at (pixels b) y x;
    set_at res y x (add_pixel pa pb)) (pixels image);
  Some (with_pixels image px).

(** ** Point filters *)

Definition grayscale_pixel (p : Pixeldata) : Pixeldata :=
  let average := (R p + G p + B p) ÷ 3 in
  {| R := to_byte average; G := to_byte average; B := to_byte average |}.

Definition applyGrayscale (image : ImageDetails) : option ImageDetails :=
  px ← for_yx 0 (height image) 0 (width image) (λ y x px,
    p ← get_at px y x;
    set_at px y x (grayscale_pixel p)) (pixels image);
  Some (with_pixels image px).

(** One sepia channel: [round(R * cr + G * cg + B * cb)] in [double], the
    coefficients being thousandths, then [std::min(255, _)]. *)
Definition sepia_channel (p : Pixeldata) (cr cg cb : Z) : Z :=
  Z.min 255
    (F64.round_to_int
       (F64.add (F64.add (F64.mul (F64.of_int (R p)) (F64.lit cr 1000))
                         (F64.mul (F64.of_int (G p)) (F64.lit cg 1000)))
                (F64.mul (F64.of_int (B p)) (F64.lit cb 1000)))).

Definition sepia_pixel (p : Pixeldata) : Pixeldata :=
  let t0 := sepia_channel p 393 769 189 in
  let t1 := sepia_channel p 349 686 168 in
  let t2 := sepia_channel p 272 534 131 in
  {| R := to_byte t0; G := to_byte t1; B := to_byte t2 |}.

(** [filter_strength] is a parameter of the source that it never reads. *)
Definition applySepia (image : ImageDetails) (filter_strength : Z)
    : option ImageDetails :=
  px ← for_yx 0 (height image) 0 (width image) (λ y x px,
    p ← get_at px y x;
    set_at px y x (sepia_pixel p)) (pixels image);
  Some (with_pixels image px).

(** [std::swap(image.pixels[y][x], image.pixels[y][image.width - x - 1])]. *)
Definition swap_at (px : grid Pixeldata) (y x x' : Z) : option (grid Pixeldata) :=
  p ← get_at px y x;
  q ← get_at px y x';
  px ← set_at px y x q;
  set_at px y x' p.

Definition applyFlip (image : ImageDetails) : option ImageDetails :=
  px ← for_yx 0 (height image) 0 (width image ÷ 2) (λ y x px,
    swap_at px y x (width image - x - 1)) (pixels image);
  Some (with_pixels image px).

(** ** Convolution filters *)

Definition GAUSSIAN_KERNEL : grid spec_float :=
  let k (n : Z) := F32.div (F32.of_int n) (F32.of_int 16) in
  [ [k 1; k 2; k 1];
    [k 2; k 4; k 2];
    [k 1; k 2; k 1] ].

(** The three running sums of one output pixel of the blur, read from the
    snapshot [original_pixels]. *)
Definition blur_sums (original_pixels : grid Pixeldata) (offset y x : Z)
    : option (spec_float * spec_float * spec_float) :=
  for_yx (- offset) (offset + 1) (- offset) (offset + 1) (λ ky kx sums,
    let '(sumR, sumG, sumB) := sums in
    weight ← get_at GAUSSIAN_KERNEL (ky + offset) (kx + offset);
    pixel ← get_at original_pixels (y + ky) (x + kx);
    Some (F32.add sumR (F32.mul (F32.of_int (R pixel)) weight),
          F32.add sumG (F32.mul (F32.of_int (G pixel)) weight),
          F32.add sumB (F32.mul (F32.of_int (B pixel)) weight)))
    (F32.of_int 0, F32.of_int 0, F32.of_int 0).

(** [static_cast<BYTE>(std::clamp(sum, 0.0f, 255.0f))]. *)
Definition blur_store (sum : spec_float) : Z :=
  F32.to_BYTE (F32.clamp sum (F32.of_int 0) (F32.of_int 255)).

Definition blur_pixel (original_pixels : grid Pixeldata) (offset y x : Z)
    : option Pixeldata :=
  sums ← blur_sums original_pixels offset y x;
  let '(sumR, sumG, sumB) := sums in
  Some {| R := blur_store sumR; G := blur_store sumG; B := blur_store sumB |}.

Definition applyGaussianBlur (image : ImageDetails) : option ImageDetails :=
  let kernal_size := 3 in
  let offset := kernal_size ÷ 2 in
  original_pixels ← copy_pixels (pixels image) (height image) (width image);
  px ← for_yx offset (height image - offset) offset (width image - offset)
    (λ y x px,
      v ← blur_pixel original_pixels offset y x;
      set_at px y x v) (pixels image);
  Some (with_pixels image px).

(** ** Composite filter *)

Definition clamp_pixel (p : Pixeldata) : Pixeldata :=
  {| R := to_byte (clamp (R p) 0 255);
     G := to_byte (clamp (G p) 0 255);
     B := to_byte (clamp (B p) 0 255) |}.

Definition applySharpen (image : ImageDetails) (filter_strength : Z)
    : option ImageDetails :=
  blured_px ← copy_pixels (pixels image) (height image) (width image);
  blured_image ← applyGaussianBlur (with_pixels image blured_px);
  mask_px ← copy_pixels (pixels image) (height image) (width image);
  sharpend_mask ← subtract_images image blured_image (with_pixels image mask_px);
  sharpend_mask ← multiply_image sharpend_mask (F32.of_int filter_strength);
  image ← add_images image sharpend_mask;
  px ← for_yx 0 (height image) 0 (width image) (λ y x px,
    p ← get_at px y x;
    set_at px y x (clamp_pixel p)) (pixels image);
  Some (with_pixels image px).

(** ** Edge detection *)

Definition Gx : grid Z := [ [-1; 0; 1]; [-2; 0; 2]; [-1; 0; 1] ].
Definition Gy : grid Z := [ [1; 2; 1]; [0; 0; 0]; [-1; -2; -1] ].

(** The two gradients of one pixel, read from the grayscale snapshot. *)
Definition sobel_sums (temp_pixels : grid Pixeldata) (y x : Z) : option (Z * Z) :=
  for_yx 0 3 0 3 (λ ky kx acc,
    let '(gx, gy) := acc in
    let px := x + kx - 1 in
    let py := y + ky - 1 in
    p ← get_at temp_pixels py px;
    let intensity := R p in
    wx ← get_at Gx ky kx;
    wy ← get_at Gy ky kx;
    Some (gx + intensity * wx, gy + intensity * wy)) (0, 0).

Definition edge_pixel (temp_pixels : grid Pixeldata) (y x : Z) : option Pixeldata :=
  g ← sobel_sums temp_pixels y x;
  let '(gx, gy) := g in
  let magnitude := F64.round_to_int (F64.sqrt (F64.of_int (gx * gx + gy * gy))) in
  let magnitude := if magnitude >? 255 then 255 else magnitude in
  let magnitude := if magnitude <? 0 then 0 else magnitude in
  Some {| R := to_byte magnitude; G := to_byte magnitude; B := to_byte magnitude |}.

Definition applyEdgeDetection (image : ImageDetails) : option ImageDetails :=
  temp_px ← copy_pixels (pixels image) (height image) (width image);
  temp_image ← applyGrayscale (with_pixels image temp_px);
  px ← for_yx 1 (height image - 1) 1 (width image - 1) (λ y x px,
    v ← edge_pixel (pixels temp_image) y x;
    set_at px y x v) (pixels image);
  Some (with_pixels image px).

(** ** Median filter *)

(** The first statements of [applyNoiseReduction]:
    [if (filter_strength % 2 != 0) { filter_strength++; filter_strength /= 2; }],
    [kernel_size = 3 + filter_strength] and [offset = kernel_size / 2]. *)
Definition adjusted_strength (filter_strength : Z) : Z :=
  if negb (Z.rem filter_strength 2 =? 0)
  then (filter_strength + 1) ÷ 2
  else filter_strength.

Definition kernel_size (filter_strength : Z) : Z := 3 + adjusted_strength filter_strength.

Definition noise_offset (filter_strength : Z) : Z := kernel_size filter_strength ÷ 2.

(** The three sample buffers [Red], [Green], [Blue] and the counter
    [index] of one pixel. *)
Record samples : Type := mkSamples {
  Red : list Z;
  Green : list Z;
  Blue : list Z;
  index : Z
}.

(** The buffers are arrays of [kernel_size * kernel_size] bytes. *)
Definition new_samples (kernel_size : Z) : samples :=
  let n := kernel_size * kernel_size in
  mkSamples (new_array 0 n) (new_array 0 n) (new_array 0 n) 0.

(** Collecting the window of pixel [(y, x)] from the snapshot. *)
Definition collect (original_pixels : grid Pixeldata) (height width : Z)
    (kernel_size offset y x : Z) : option samples :=
  for_yx (- offset) (offset + 1) (- offset) (offset + 1) (λ ky kx s,
    let sample_y := y + ky in
    let sample_x := x + kx in
    if bool_decide (0 ≤ sample_y ∧ sample_y < height ∧ 0 ≤ sample_x ∧ sample_x < width)
    then
      pixel ← get_at original_pixels sample_y sample_x;
      red ← arr_set (Red s) (index s) (R pixel);
      green ← arr_set (Green s) (index s) (G pixel);
      blue ← arr_set (Blue s) (index s) (B pixel);
      Some (mkSamples red green blue (index s + 1))
    else Some s) (new_samples kernel_size).

(** The body of the pixel loop: collect, sort, store the medians. *)
Definition median_step (original_pixels : grid Pixeldata) (height width : Z)
    (kernel_size offset y x : Z) (px : grid Pixeldata) : option (grid Pixeldata) :=
  s ← collect original_pixels height width kernel_size offset y x;
  red ← ascending_sort (Red s) (index s);
  green ← ascending_sort (Green s) (index s);
  blue ← ascending_sort (Blue s) (index s);
  if 0 <? index s then
    r ← arr_get red (index s ÷ 2);
    g ← arr_get green (index s ÷ 2);
    b ← arr_get blue (index s ÷ 2);
    set_at px y x {| R := to_byte r; G := to_byte g; B := to_byte b |}
  else Some px.

Definition applyNoiseReduction (image : ImageDetails) (filter_strength : Z)
    : option ImageDetails :=
  let kernel_size := kernel_size filter_strength in
  let offset := noise_offset filter_strength in
  original_pixels ← copy_pixels (pixels image) (height image) (width image);
  px ← for_yx 0 (height image) 0 (width image)
    (median_step original_pixels (height image) (width image) kernel_size offset)
    (pixels image);
  Some (with_pixels image px).

(** ** Character art *)

Definition ascii_chars : string :=
  " `.-':_,^=;><+!rc*/z?sLTv)J7(|Fi{C}fI31tlu[neoZ5Yxjya]2ESwqkP6h9d4VpOGbUAKXHm8RD#$Bg0MNWQ%&@".

(** Running minimum and maximum of the grayscale values. *)
Definition min_max (px : grid Pixeldata) (height width : Z) : option (Z * Z) :=
  for_yx 0 height 0 width (λ y x mm,
    let '(min_val, max_val) := mm in
    p ← get_at px y x;
    let val := R p in
    let min_val := if val <? min_val then val else min_val in
    let max_val := if val >? max_val then val else max_val in
    Some (min_val, max_val)) (255, 0).

Definition stretch_pixel (min_val max_val : Z) (p : Pixeldata) : option Pixeldata :=
  let val := R p in
  stretched ← int_div (255 * (val - min_val)) (max_val - min_val + 1);
  Some {| R := to_byte stretched; G := to_byte stretched; B := to_byte stretched |}.

(** The glyph of one stretched pixel. *)
Definition glyph (num_chars : Z) (p : Pixeldata) : option ascii :=
  let index := (R p * (num_chars - 1)) ÷ 255 in
  arr_get (list_ascii_of_string ascii_chars) index.

(** [ASCII_filter]: the image is converted in place and the character grid
    is returned with it. *)
Definition ASCII_filter (image : ImageDetails) : option (ImageDetails * AsciiFilter) :=
  image ← applyGrayscale image;
  mm ← min_max (pixels image) (height image) (width image);
  let '(min_val, max_val) := mm in
  px ← for_yx 0 (height image) 0 (width image) (λ y x px,
    p ← get_at px y x;
    v ← stretch_pixel min_val max_val p;
    set_at px y x v) (pixels image);
  let image := with_pixels image px in
  let num_chars := Z.of_nat (String.length ascii_chars) in
  chars ← for_yx 0 (height image) 0 (width image) (λ y x chars,
    p ← get_at (pixels image) y x;
    c ← glyph num_chars p;
    set_at chars y x c) (alloc Ascii.zero (height image) (width image));
  Some (image, mkAscii (width image) (height image) chars).

(** [saveAsciiImage]: the characters written to the file, the file being
    opened successfully. *)
Definition saveAsciiImage (ascii_image : AsciiFilter) : option (list ascii) :=
  for_down (a_height ascii_image - 1) 0 (λ y out,
    out ← for_range 0 (a_width ascii_image) (λ x out,
      c ← get_at (a_pixels ascii_image) y x;
      Some (out ++ [c])) out;
    Some (out ++ ["010"%char])) [].

(** ** Resize *)

(** [0.4f]: the binary32 number nearest to 0.4, 13421773 / 2^25. *)
Definition aspect_ratio : spec_float := S754_finite false 13421773 (-25).

Definition size_error : string :=
  "Error: New size is larger than original image dimensions.".
Definition kernel_error : string :=
  "Error: Kernel size is zero or negative. New size too large for image.".

(** [static_cast<int>(image.height * (new_width / (float)image.width) * aspect_ratio)]. *)
Definition scaled_height (image : ImageDetails) (new_width : Z) : Z :=
  F32.to_int
    (F32.mul (F32.mul (F32.of_int (height image))
                      (F32.div (F32.of_int new_width) (F32.of_int (width image))))
             aspect_ratio).

(** The mean of one box of the source; the sums and the count are [int]. *)
Definition box_mean (px : grid Pixeldata) (height width : Z)
    (kernal_size_x kernal_size_y y x : Z) : option Pixeldata :=
  acc ← for_yx 0 kernal_size_y 0 kernal_size_x (λ ky kx acc,
    let '(sumR, sumG, sumB, count) := acc in
    let sourceY := y * kernal_size_y + ky in
    let sourceX := x * kernal_size_x + kx in
    if bool_decide (sourceY < height ∧ sourceX < width) then
      p ← get_at px sourceY sourceX;
      sumR ← int_add sumR (R p);
      sumG ← int_add sumG (G p);
      sumB ← int_add sumB (B p);
      count ← int_add count 1;
      Some (sumR, sumG, sumB, count)
    else Some acc) (0, 0, 0, 0);
  let '(sumR, sumG, sumB, count) := acc in
  let count := if count =? 0 then 1 else count in
  r ← int_div sumR count;
  g ← int_div sumG count;
  b ← int_div sumB count;
  Some {| R := to_byte r; G := to_byte g; B := to_byte b |}.

(** [changeImageSize]: the image after the call and the lines written to
    the error stream. *)
Definition changeImageSize (image : ImageDetails) (new_width : Z)
    : option (ImageDetails * list string) :=
  let new_height := scaled_height image new_width in
  if bool_decide (new_width > width image ∨ new_height > height image) then
    Some (image, [size_error])
  else
    kernal_size_x ← int_div (width image) new_width;
    kernal_size_y ← int_div (height image) new_height;
    if bool_decide (kernal_size_x ≤ 0 ∨ kernal_size_y ≤ 0) then
      Some (image, [kernel_error])
    else
      new_pixels ← for_yx 0 new_height 0 new_width (λ y x new_pixels,
        v ← box_mean (pixels image) (height image) (width image)
              kernal_size_x kernal_size_y y x;
        set_at new_pixels y x v) (alloc fresh_pixel new_height new_width);
      Some (mkImage new_width new_height new_pixels, []).

(** The sizes that leave the prompt loop of [make_ascii]. *)
Definition accepted_size (image : ImageDetails) (new_size : Z) : Prop :=
  ¬ (new_size ≤ 0 ∨ new_size > width image ∨ new_size > height image).

(** [make_ascii] for an accepted size: resize, convert, write.  The result
    is the character grid and the text of the output file. *)
Definition make_ascii (image : ImageDetails) (new_size : Z)
    : option (AsciiFilter * list ascii) :=
  r ← changeImageSize image new_size;
  r' ← ASCII_filter r.1;
  text ← saveAsciiImage r'.2;
  Some (r'.2, text).

(** ** Dispatch *)

(** [selectFilter]: the image after the selected filter.  The size that
    [make_ascii] reads is the parameter [new_size]; of the results of
    [make_ascii], the text is given above and the converted image here.
    Any other selection prints an error and leaves the image as it is. *)
Definition selectFilter (selected_filter filter_strength new_size : Z)
    (image : ImageDetails) : option ImageDetails :=
  match selected_filter with
  | 0 => Some image
  | 1 => applyGrayscale image
  | 2 => applySepia image filter_strength
  | 3 => applyFlip image
  | 4 => for_range 0 filter_strength (λ _ image, applyGaussianBlur image) image
  | 5 => applySharpen image filter_strength
  | 6 => applyEdgeDetection image
  | 7 => applyNoiseReduction image filter_strength
  | 8 =>
      r ← changeImageSize image new_size;
      r' ← ASCII_filter r.1;
      _ ← saveAsciiImage r'.2;
      Some r'.1
  | _ => Some image
  end.

(** The table of the filters: name and whether a strength is asked for. *)
Definition NUM_FILTERS : Z := 9.

Definition FILTER_TYPES : list (list ascii * bool) :=
  [ (list_ascii_of_string "No Filter", false);
    (list_ascii_of_string "Grayscale", false);
    (list_ascii_of_string "Sepia", true);
    (list_ascii_of_string "Flip", false);
    (list_ascii_of_string "Gaussian Blur", true);
    (list_ascii_of_string "Sharpen", true);
    (list_ascii_of_string "Edge Detection", false);
    (list_ascii_of_string "Noise Reduction", true);
    (list_ascii_of_string "ASCII", false) ].

(** ** Strings and paths *)

(** A [std::string] is the list of its characters; [str] is a literal. *)
Definition str (s : string) : list ascii := list_ascii_of_string s.

(** The two characters of ["/\\"] and the double quote. *)
Definition slash : ascii := "/"%char.
Definition backslash : ascii := "092"%char.
Definition quote : ascii := "034"%char.

(** [s.find_last_of(chars)]: the last position of [s] that holds one of
    [chars]; [None] is [npos]. *)
Fixpoint find_last_of (chars s : list ascii) : option nat :=
  match s with
  | [] => None
  | c :: s' =>
      match find_last_of chars s' with
      | Some i => Some (S i)
      | None => if bool_decide (c ∈ chars) then Some O else None
      end
  end.

(** [s.substr(pos)]: the exception [out_of_range] for [pos > s.size()] is
    the result [None]. *)
Definition substr (s : list ascii) (pos : Z) : option (list ascii) :=
  if bool_decide (0 ≤ pos ≤ Z.of_nat (length s))
  then Some (drop (Z.to_nat pos) s) else None.

(** [s.size() - 4] in the unsigned 64-bit [size_t]. *)
Definition size_minus_4 (s : list ascii) : Z :=
  (Z.of_nat (length s) - 4) mod 2 ^ 64.

Definition get_filename (filepath : list ascii) : list ascii :=
  match find_last_of [slash; backslash] filepath with
  | None => filepath
  | Some last_slash => drop (last_slash + 1) filepath
  end.

Definition replace_ext_with_bmp (filename : list ascii) : list ascii :=
  match find_last_of ["."%char] filename with
  | None => filename ++ str ".bmp"
  | Some last_dot => take last_dot filename ++ str ".bmp"
  end.

Definition get_directory (file_path : list ascii) : list ascii :=
  match find_last_of [slash; backslash] file_path with
  | Some last_slash => take last_slash file_path
  | None => []
  end.

Definition strip_extension (filename : list ascii) : list ascii :=
  match find_last_of ["."%char] filename with
  | None => filename
  | Some last_dot => take last_dot filename
  end.

(** ** Bitmap files *)

(** The two headers; the structures are packed, so that a header in a file
    is the sequence of its fields, each with the low byte first. *)
Record BitmapFileHeader : Type := mkFileHeader {
  bfType : Z;
  bfSize : Z;
  bfReserved1 : Z;
  bfReserved2 : Z;
  bfOffBits : Z
}.

Record BitmapInfoHeader : Type := mkInfoHeader {
  biSize : Z;
  biWidth : Z;
  biHeight : Z;
  biPlanes : Z;
  biBitCount : Z;
  biCompression : Z;
  biSizeImage : Z;
  biXPelsPerMeter : Z;
  biYPelsPerMeter : Z;
  biClrUsed : Z;
  biClrImportant : Z
}.

(** The value of the bytes of an unsigned field and the [n] bytes of a
    value; [LONG] is two's complement on 32 bits. *)
Definition le_value (bytes : list Z) : Z := foldr (λ b v, b + 256 * v) 0 bytes.

Fixpoint le_bytes (n : nat) (v : Z) : list Z :=
  match n with
  | O => []
  | S n' => v mod 256 :: le_bytes n' (v / 256)
  end.

Definition to_LONG (v : Z) : Z := if v <? 2 ^ 31 then v else v - 2 ^ 32.

(** The field of [size] bytes at [offset]. *)
Definition field (bytes : list Z) (offset size : nat) : Z :=
  le_value (take size (drop offset bytes)).

Definition sizeof_BitmapFileHeader : nat := 14.
Definition sizeof_BitmapInfoHeader : nat := 40.

(** A header as [fread] fills it from bytes and as [write] emits it. *)
Definition read_file_header (bytes : list Z) : BitmapFileHeader :=
  {| bfType := field bytes 0 2;
     bfSize := field bytes 2 4;
     bfReserved1 := field bytes 6 2;
     bfReserved2 := field bytes 8 2;
     bfOffBits := field bytes 10 4 |}.

Definition read_info_header (bytes : list Z) : BitmapInfoHeader :=
  {| biSize := field bytes 0 4;
     biWidth := to_LONG (field bytes 4 4);
     biHeight := to_LONG (field bytes 8 4);
     biPlanes := field bytes 12 2;
     biBitCount := field bytes 14 2;
     biCompression := field bytes 16 4;
     biSizeImage := field bytes 20 4;
     biXPelsPerMeter := to_LONG (field bytes 24 4);
     biYPelsPerMeter := to_LONG (field bytes 28 4);
     biClrUsed := field bytes 32 4;
     biClrImportant := field bytes 36 4 |}.

Definition file_header_bytes (h : BitmapFileHeader) : list Z :=
  le_bytes 2 (bfType h) ++ le_bytes 4 (bfSize h) ++ le_bytes 2 (bfReserved1 h) ++
  le_bytes 2 (bfReserved2 h) ++ le_bytes 4 (bfOffBits h).

Definition info_header_bytes (h : BitmapInfoHeader) : list Z :=
  le_bytes 4 (biSize h) ++ le_bytes 4 (biWidth h) ++ le_bytes 4 (biHeight h) ++
  le_bytes 2 (biPlanes h) ++ le_bytes 2 (biBitCount h) ++
  le_bytes 4 (biCompression h) ++ le_bytes 4 (biSizeImage h) ++
  le_bytes 4 (biXPelsPerMeter h) ++ le_bytes 4 (biYPelsPerMeter h) ++
  le_bytes 4 (biClrUsed h) ++ le_bytes 4 (biClrImportant h).

(** A pixel in a file: blue, green, red. *)
Definition pixel_of_bytes (bytes : list Z) : option Pixeldata :=
  match bytes with
  | [b; g; r] => Some {| B := b; G := g; R := r |}
  | _ => None
  end.

Definition pixel_bytes (p : Pixeldata) : list Z := [B p; G p; R p].

(** The files: the bytes stored under each path. *)
Definition filesystem : Type := gmap (list ascii) (list Z).

(** [fread(dest, sizeof dest, 1, file)] on the rest of an open file, the
    object [dest] given by its bytes: the bytes of [dest] after the call
    and the rest of the file.  The bytes that the file still holds replace
    the first bytes of [dest]; where the file ends before [dest] is full,
    the other bytes of [dest] stay as they were.  The program never looks
    at the value that [fread] returns. *)
Definition fread (dest in_file : list Z) : list Z * list Z :=
  (take (length dest) in_file ++ drop (length in_file) dest,
   drop (length dest) in_file).

(** [fseek(file, n, SEEK_CUR)]; a position past the end is allowed, the
    next read then meets the end of the file. *)
Definition fseek_cur (n : Z) (in_file : list Z) : list Z := drop (Z.to_nat n) in_file.

(** [(4 - (width * 3) % 4) % 4]; the product overflows outside [int]. *)
Definition padding (width : Z) : option Z :=
  if bool_decide (INT_MIN ≤ width * 3 ≤ INT_MAX)
  then Some (Z.rem (4 - Z.rem (width * 3) 4) 4) else None.

(** [new Pixeldata*[height]] with [new Pixeldata[width]] for each row:
    the cell [(y, x)] holds [content y x] until it is written. *)
Definition new_rows (content : Z → Z → Pixeldata) (height width : Z)
    : grid Pixeldata :=
  (λ y, content y <$> seqZ 0 width) <$> seqZ 0 height.

(** What a successful call of [check_and_read_file] hands to [main]. *)
Record loaded : Type := mkLoaded {
  l_image : ImageDetails;
  l_file_header : BitmapFileHeader;
  l_info_header : BitmapInfoHeader
}.

(** The course of a call that can recurse: it returns, it has no defined
    result (undefined behaviour or an exception that nothing catches), or
    the bound on the depth of the recursion is used up. *)
Inductive run (A : Type) : Type :=
| Returns (a : A)
| Fails
| Unfinished.
Arguments Returns {A} a.
Arguments Fails {A}.
Arguments Unfinished {A}.

Section files.

(** [system(command)]: the exit status of the command and the files it
    leaves. *)
Variable system : list ascii → filesystem → Z * filesystem.

(** The content of the pixel array between its allocation and the reads:
    the array is not initialised. *)
Variable uninitialised : Z → Z → Pixeldata.

Definition convert_to_bmp (filepath : list ascii) (files : filesystem)
    : bool * filesystem :=
  let filename := get_filename filepath in
  let outname := replace_ext_with_bmp filename in
  if bool_decide (4 ≤ length filepath)%nat &&
     bool_decide (drop (length filepath - 4) filepath = str ".bmp")
  then (true, files)
  else
    let command := str "convert " ++ [quote] ++ filepath ++ [quote] ++
                   str " -depth 8 -type TrueColor BMP3:" ++ [quote] ++
                   outname ++ [quote] in
    let '(result, files) := system command files in
    (bool_decide (result = 0), files).

(** The second half of [check_and_read_file]: the dimensions, the
    allocation and the rows of pixels.  [abs] is undefined on [INT_MIN],
    and [new Pixeldata[width]] throws for a negative width.  The test of
    the array against [NULL] that follows the allocation never holds
    ([new] throws instead of returning a null pointer), so that the
    return value 3 does not occur.  Where the file ends early, the cells
    that are not read keep the content they were allocated with. *)
Definition read_pixels (info_header : BitmapInfoHeader) (in_file : list Z)
    : option ImageDetails :=
  let width := biWidth info_header in
  if bool_decide (biHeight info_header = INT_MIN) then None else
  let height := Z.abs (biHeight info_header) in
  if bool_decide (0 < height ∧ width < 0) then None else
  let pixels := new_rows uninitialised height width in
  padding ← padding width;
  r ← for_range 0 height (λ y st,
    st ← for_range 0 width (λ x st,
      let '(pixels, in_file) := st in
      cell ← get_at pixels y x;
      let '(bytes, in_file) := fread (pixel_bytes cell) in_file in
      p ← pixel_of_bytes bytes;
      pixels ← set_at pixels y x p;
      Some (pixels, in_file)) st;
    Some (st.1, fseek_cur padding st.2)) (pixels, in_file);
  Some (mkImage width height r.1).

(** [check_and_read_file]: the return value, the image (of a successful
    call), the two headers and the files after the call.  The headers are
    passed by reference: [file_header] and [info_header] are their
    content before the call.  [fuel] bounds the depth of the recursion. *)
Fixpoint check_and_read_file (fuel : nat) (file_path : list ascii)
    (file_header : BitmapFileHeader) (info_header : BitmapInfoHeader)
    (files : filesystem)
    : run (Z * option ImageDetails * BitmapFileHeader * BitmapInfoHeader *
           filesystem) :=
  match fuel with
  | O => Unfinished
  | S fuel' =>
      match files !! file_path with
      | None => Returns (1, None, file_header, info_header, files)
      | Some in_file =>
          let '(bytes, in_file) := fread (file_header_bytes file_header) in_file in
          let file_header := read_file_header bytes in
          let '(bytes, in_file) := fread (info_header_bytes info_header) in_file in
          let info_header := read_info_header bytes in
          if bool_decide (bfType file_header ≠ 0x4D42 ∨
                          biBitCount info_header ≠ 24 ∨
                          biCompression info_header ≠ 0) then
            if bool_decide (length file_path < 4)%nat ||
               bool_decide (drop (length file_path - 4) file_path ≠ str ".bmp")
            then
              let '(converted, files) := convert_to_bmp file_path files in
              if converted then
                let new_bmp := replace_ext_with_bmp (get_filename file_path) in
                check_and_read_file fuel' new_bmp file_header info_header files
              else Returns (2, None, file_header, info_header, files)
            else Returns (2, None, file_header, info_header, files)
          else
            match read_pixels info_header in_file with
            | None => Fails
            | Some image =>
                Returns (0, Some image, file_header, info_header, files)
            end
      end
  end.

End files.

(** The name under which [make_output_file] writes. *)
Definition out_file_path (output_file_name file_path : list ascii) : list ascii :=
  let directory := get_directory file_path in
  let output_file_name :=
    if bool_decide (output_file_name = [])
    then replace_ext_with_bmp (get_filename file_path ++ str "_out")
    else output_file_name in
  if bool_decide (directory ≠ [])
  then directory ++ str "/" ++ output_file_name
  else output_file_name.

(** The bytes that [make_output_file] writes. *)
Definition output_bytes (image : ImageDetails) (file_header : BitmapFileHeader)
    (info_header : BitmapInfoHeader) : option (list Z) :=
  let out_file := file_header_bytes file_header ++ info_header_bytes info_header in
  padding ← padding (width image);
  for_range 0 (height image) (λ y out_file,
    out_file ← for_range 0 (width image) (λ x out_file,
      p ← get_at (pixels image) y x;
      Some (out_file ++ pixel_bytes p)) out_file;
    let pad := [0; 0; 0] in
    Some (out_file ++ take (Z.to_nat padding) pad)) out_file.

(** [make_output_file], the output file being opened successfully. *)
Definition make_output_file (output_file_name : list ascii) (image : ImageDetails)
    (file_path : list ascii) (file_header : BitmapFileHeader)
    (info_header : BitmapInfoHeader) (files : filesystem) : option filesystem :=
  out_file ← output_bytes image file_header info_header;
  Some (<[out_file_path output_file_name file_path := out_file]> files).

(** ** The program *)

(** The name that [main] gives the output of a filter. *)
Definition output_file (file_path : list ascii) (selected_filter : Z)
    : option (list ascii) :=
  let filename := strip_extension (get_filename file_path) in
  t ← arr_get FILTER_TYPES selected_filter;
  Some (filename ++ str "_" ++ t.1 ++ str ".bmp").

(** What one pass of the loop of [main] that asks for the path leads to:
    the exit of the program, another pass (with the headers as the failed
    call left them), or the filter prompt with the path and the image. *)
Inductive asked : Type :=
| Exit (code : Z)
| Again (file_header : BitmapFileHeader) (info_header : BitmapInfoHeader)
    (files : filesystem)
| Proceed (file_path : list ascii) (l : loaded) (files : filesystem).

Section program.

Variable system : list ascii → filesystem → Z * filesystem.
Variable uninitialised : Z → Z → Pixeldata.

(** One pass of that loop for the line [file_path]; [file_header] and
    [info_header] are the content of the two locals of [main] before the
    pass. *)
Definition ask_path (fuel : nat) (file_path : list ascii)
    (file_header : BitmapFileHeader) (info_header : BitmapInfoHeader)
    (files : filesystem) : run asked :=
  if bool_decide (file_path = []) then Returns (Exit 1)
  else
    match check_and_read_file system uninitialised fuel file_path
            file_header info_header files with
    | Returns (result, image, file_header, info_header, files) =>
        if bool_decide (result = 0) then
          match substr file_path (size_minus_4 file_path), image with
          | Some ext, Some image =>
              let file_path :=
                if bool_decide (ext ≠ str ".bmp")
                then replace_ext_with_bmp (get_filename file_path)
                else file_path in
              Returns (Proceed file_path (mkLoaded image file_header info_header)
                         files)
          | _, _ => Fails
          end
        else Returns (Again file_header info_header files)
    | Fails => Fails
    | Unfinished => Unfinished
    end.

(** The path of the text file that [make_ascii] writes. *)
Definition ascii_output_path (file_path : list ascii) (selected_filter : Z)
    : option (list ascii) :=
  let directory := get_directory file_path in
  let filename := strip_extension (get_filename file_path) in
  t ← arr_get FILTER_TYPES selected_filter;
  let output_file := filename ++ str "_" ++ t.1 ++ str ".txt" in
  Some (if bool_decide (directory = []) then output_file
        else directory ++ str "/" ++ output_file).

(** A character as a byte of a file. *)
Definition char_byte (c : ascii) : Z := Z.of_nat (nat_of_ascii c).

(** The end of [main]: the filter and, for every filter but the character
    art, the output file; the character art writes its text file on its
    own.  Both files are taken to be opened successfully. *)
Definition filter_and_save (selected_filter filter_strength new_size : Z)
    (file_path : list ascii) (l : loaded) (files : filesystem)
    : option filesystem :=
  image ← selectFilter selected_filter filter_strength new_size (l_image l);
  if bool_decide (selected_filter ≠ 8) then
    output_file ← output_file file_path selected_filter;
    make_output_file output_file image file_path
      (l_file_header l) (l_info_header l) files
  else
    r ← make_ascii (l_image l) new_size;
    output_path ← ascii_output_path file_path selected_filter;
    let text : list ascii := r.2 in
    Some (<[output_path := char_byte <$> text]> files).

End program.

(** * Predicates and specification-level functions *)

(** ** Shapes *)

(** Every row of [g] has [w] cells and there are [h] rows. *)
Definition shape {A : Type} (g : grid A) (h w : Z) : Prop :=
  Z.of_nat (length g) = h ∧ Forall (λ row, Z.of_nat (length row) = w) g.

(** The invariant of [ImageDetails]: positive dimensions that agree with
    the allocated pixel array. *)
Definition wf_image (image : ImageDetails) : Prop :=
  0 < width image ∧ 0 < height image ∧
  shape (pixels image) (height image) (width image).

(** [b] has the dimensions of [a] (and [a] is the shape of its array). *)
Definition same_dims (a b : ImageDetails) : Prop :=
  width b = width a ∧ height b = height a ∧
  shape (pixels b) (height a) (width a).

(** Every channel of the pixel is a byte. *)
Definition byte_pixel (p : Pixeldata) : Prop :=
  0 ≤ R p ≤ 255 ∧ 0 ≤ G p ≤ 255 ∧ 0 ≤ B p ≤ 255.

(** Every pixel of the array is [c]. *)
Definition uniform_grid (g : grid Pixeldata) (c : Pixeldata) : Prop :=
  ∀ y x p, get_at g y x = Some p → p = c.

(** ** Invariants of the loops *)

(** The cells of the rectangle [y0, y1) x [x0, x1) that a loop in row
    order has visited before the iteration at [(y, x)]. *)
Definition visited (y0 y1 x0 x1 y x y' x' : Z) : Prop :=
  y0 ≤ y' < y1 ∧ x0 ≤ x' < x1 ∧ (y' < y ∨ y' = y ∧ x' < x).

(** The state [g'] of a cell-by-cell loop started on [g] when it is about
    to visit [(y, x)]: the visited cells hold the value [V] computes for
    them, the others are unchanged. *)
Definition raster_inv {A : Type} (h w y0 y1 x0 x1 : Z)
    (V : Z → Z → option A → option A) (g : grid A) (y x : Z) (g' : grid A) : Prop :=
  shape g' h w ∧
  ∀ y' x', get_at g' y' x' =
           if bool_decide (visited y0 y1 x0 x1 y x y' x')
           then V y' x' (get_at g y' x') else get_at g y' x'.

(** The state after the loop. *)
Definition raster_post {A : Type} (h w y0 y1 x0 x1 : Z)
    (V : Z → Z → option A → option A) (g g' : grid A) : Prop :=
  shape g' h w ∧
  ∀ y x, get_at g' y x =
         if bool_decide (y0 ≤ y < y1 ∧ x0 ≤ x < x1)
         then V y x (get_at g y x) else get_at g y x.

(** The state of [applyFlip] when it is about to swap column [x] of row
    [y]: the rows above are mirrored, and so are the first and last [x]
    columns of row [y]. *)
Definition flip_inv (h w : Z) (g : grid Pixeldata) (y x : Z)
    (g' : grid Pixeldata) : Prop :=
  shape g' h w ∧
  ∀ y' x', 0 ≤ y' < h → 0 ≤ x' < w →
    get_at g' y' x' =
    if bool_decide (y' < y ∨ y' = y ∧ (x' < x ∨ w - x ≤ x'))
    then get_at g y' (w - 1 - x') else get_at g y' x'.

(** The samples collected so far are all taken from the pixel [c]. *)
Definition samples_of (c : Pixeldata) (s : samples) : Prop :=
  0 ≤ index s ∧
  ∀ i, 0 ≤ i < index s →
    arr_get (Red s) i = Some (R c) ∧
    arr_get (Green s) i = Some (G c) ∧
    arr_get (Blue s) i = Some (B c).

(** ** The filters, pixel by pixel *)

(** The value the pixel loop of the median filter stores at [(y, x)], the
    cell holding [cur]. *)
Definition median_value (original_pixels : grid Pixeldata) (height width : Z)
    (kernel_size offset y x : Z) (cur : option Pixeldata) : option Pixeldata :=
  s ← collect original_pixels height width kernel_size offset y x;
  red ← ascending_sort (Red s) (index s);
  green ← ascending_sort (Green s) (index s);
  blue ← ascending_sort (Blue s) (index s);
  if 0 <? index s then
    r ← arr_get red (index s ÷ 2);
    g ← arr_get green (index s ÷ 2);
    b ← arr_get blue (index s ÷ 2);
    Some {| R := to_byte r; G := to_byte g; B := to_byte b |}
  else cur.

(** One channel of the unsharp mask as the specification words it: the
    difference to the blurred channel modulo 256, multiplied by the raw
    strength and clamped, added to the original and clamped. *)
Definition sharpen_channel (c blurred strength : Z) : Z :=
  let mask := (c - blurred) mod 256 in
  let mask := clamp (mask * strength) 0 255 in
  clamp (c + mask) 0 255.

Definition sharpen_pixel (p blurred : Pixeldata) (strength : Z) : Pixeldata :=
  {| R := sharpen_channel (R p) (R blurred) strength;
     G := sharpen_channel (G p) (G blurred) strength;
     B := sharpen_channel (B p) (B blurred) strength |}.

(** The test that the product of the byte [c] and a strength is formed
    without rounding, for the strengths 1 to 100. *)
Definition multiply_exact_on (c : Z) : bool :=
  forallb (λ s, multiply_channel c (F32.of_int s) =? clamp (c * s) 0 255)
          (seqZ 1 100).

(** ** The ramp and the text file *)

Definition num_chars : Z := Z.of_nat (String.length ascii_chars).

Definition ramp : list ascii := list_ascii_of_string ascii_chars.

(** The last character of the ramp. *)
Definition last_char : ascii := "@"%char.

(** The first character of the ramp. *)
Definition blank : ascii := " "%char.

(** The positions in the middle of the ramp: two for a ramp of even
    length. *)
Definition mid_ramp_low : Z := (num_chars - 1) / 2.
Definition mid_ramp_high : Z := num_chars / 2.

(** One line of the file: the characters of a row and a newline. *)
Definition line (row : list ascii) : list ascii := row ++ ["010"%char].

(** ** Sample inputs *)

(** An image of [h] rows and [w] columns filled with the pixel [p]. *)
Definition uniform_image (h w : nat) (p : Pixeldata) : ImageDetails :=
  mkImage (Z.of_nat w) (Z.of_nat h) (replicate h (replicate w p)).

(** The same with the gray value [v] on the three channels. *)
Definition gray_image (h w : nat) (v : Z) : ImageDetails :=
  uniform_image h w (mkPixel v v v).

(** A 3 x 3 image with a bright lower row. *)
Definition sample_image : ImageDetails :=
  mkImage 3 3
    [ [mkPixel 1 1 1; mkPixel 2 2 2; mkPixel 3 3 3];
      [mkPixel 4 4 4; mkPixel 5 5 5; mkPixel 6 6 6];
      [mkPixel 40 40 40; mkPixel 50 50 50; mkPixel 60 60 60] ].

(** A 2 x 2 image; the size 1 is accepted by the prompt of [make_ascii]. *)
Definition small_image : ImageDetails := gray_image 2 2 128.

(** A 5 x 5 image of the single colour R = 3, G = 2, B = 1. *)
Definition five_by_five : ImageDetails := uniform_image 5 5 (mkPixel 1 2 3).

(** A character grid of two rows. *)
Definition two_rows : AsciiFilter := mkAscii 1 2 [ ["a"%char]; ["b"%char] ].

(** The character grid and the text of four blanks in one row. *)
Definition blank_art : AsciiFilter := mkAscii 4 1 [ [blank; blank; blank; blank] ].
Definition blank_text : list ascii := [blank; blank; blank; blank; "010"%char].

#[global] Instance AsciiFilter_eq_dec : EqDecision AsciiFilter.
Proof. solve_decision. Defined.

(** ** Further predicates *)

(** Every pixel of the image is made of bytes. *)
Definition byte_image (image : ImageDetails) : Prop :=
  ∀ y x p, get_at (pixels image) y x = Some p → byte_pixel p.

(** The cell [(y, x)] lies on the one-pixel border ring of an [h] x [w]
    grid. *)
Definition on_border (h w y x : Z) : Prop :=
  0 ≤ y < h ∧ 0 ≤ x < w ∧ ¬ (1 ≤ y < h - 1 ∧ 1 ≤ x < w - 1).

(** The state of [ascending_sort] on [colour] when the outer loop is at
    [i]: a rearrangement of the first [n] cells in which every cell before
    [i] is at most every later cell of the prefix. *)
Definition sort_inv (colour : list Z) (n i : Z) (a : list Z) : Prop :=
  length a = length colour ∧
  a ≡ₚ colour ∧
  drop (Z.to_nat n) a = drop (Z.to_nat n) colour ∧
  ∀ k l x y, 0 ≤ k < i → k ≤ l < n →
    arr_get a k = Some x → arr_get a l = Some y → x ≤ y.

(** The same when the inner loop is at [j]: the cell [i] is at most the
    cells between [i] and [j]. *)
Definition sort_inner_inv (colour : list Z) (n i j : Z) (a : list Z) : Prop :=
  sort_inv colour n i a ∧
  ∀ l x y, i < l < j → arr_get a i = Some x → arr_get a l = Some y → x ≤ y.

(** [q] is a pixel of [g] in the square window of the given offset around
    [(y, x)]. *)
Definition in_window (g : grid Pixeldata) (offset y x : Z) (q : Pixeldata) : Prop :=
  ∃ y' x', y - offset ≤ y' ≤ y + offset ∧ x - offset ≤ x' ≤ x + offset ∧
           get_at g y' x' = Some q.

(** The samples collected so far for [(y, x)] come, cell by cell, from
    pixels of the window. *)
Definition samples_from (g : grid Pixeldata) (offset y x : Z) (s : samples) : Prop :=
  0 ≤ index s ∧
  ∀ i, 0 ≤ i < index s →
    ∃ q, in_window g offset y x q ∧
         arr_get (Red s) i = Some (R q) ∧
         arr_get (Green s) i = Some (G q) ∧
         arr_get (Blue s) i = Some (B q).

(** [n] successive passes of the blur, each on the result of the one
    before. *)
Fixpoint blur_passes (n : nat) (image : ImageDetails) : option ImageDetails :=
  match n with
  | O => Some image
  | S n' => r ← applyGaussianBlur image; blur_passes n' r
  end.

(** The pixels of the 3 x 3 neighbourhood of [(y, x)] all are [c]. *)
Definition flat_around (g : grid Pixeldata) (y x : Z) (c : Pixeldata) : Prop :=
  ∀ ky kx, -1 ≤ ky ≤ 1 → -1 ≤ kx ≤ 1 → get_at g (y + ky) (x + kx) = Some c.

(** The running sum of the blur over nine samples of the same value [v]. *)
Definition flat_sum (v : Z) : spec_float :=
  foldl (λ sum weight, F32.add sum (F32.mul (F32.of_int v) weight))
        (F32.of_int 0) (concat GAUSSIAN_KERNEL).

(** ** Paths and files *)

Definition separators : list ascii := [slash; backslash].

(** No character of [s] is a path separator. *)
Definition no_separator (s : list ascii) : Prop := ∀ c, c ∈ s → c ∉ separators.

(** [p] ends in [".bmp"]. *)
Definition has_bmp_suffix (p : list ascii) : Prop := ∃ stem, p = stem ++ str ".bmp".

Definition is_byte (b : Z) : Prop := 0 ≤ b ≤ 255.

#[global] Instance is_byte_dec b : Decision (is_byte b).
Proof. unfold is_byte. apply _. Defined.

(** Every file holds bytes. *)
Definition byte_files (files : filesystem) : Prop :=
  ∀ p bytes, files !! p = Some bytes → Forall is_byte bytes.

(** The fields of the headers are in the ranges of their types. *)
Definition file_header_ok (h : BitmapFileHeader) : Prop :=
  0 ≤ bfType h < 2 ^ 16 ∧ 0 ≤ bfSize h < 2 ^ 32 ∧
  0 ≤ bfReserved1 h < 2 ^ 16 ∧ 0 ≤ bfReserved2 h < 2 ^ 16 ∧
  0 ≤ bfOffBits h < 2 ^ 32.

Definition info_header_ok (h : BitmapInfoHeader) : Prop :=
  0 ≤ biSize h < 2 ^ 32 ∧
  - 2 ^ 31 ≤ biWidth h < 2 ^ 31 ∧ - 2 ^ 31 ≤ biHeight h < 2 ^ 31 ∧
  0 ≤ biPlanes h < 2 ^ 16 ∧ 0 ≤ biBitCount h < 2 ^ 16 ∧
  0 ≤ biCompression h < 2 ^ 32 ∧ 0 ≤ biSizeImage h < 2 ^ 32 ∧
  - 2 ^ 31 ≤ biXPelsPerMeter h < 2 ^ 31 ∧ - 2 ^ 31 ≤ biYPelsPerMeter h < 2 ^ 31 ∧
  0 ≤ biClrUsed h < 2 ^ 32 ∧ 0 ≤ biClrImportant h < 2 ^ 32.

(** The headers pass the test of [check_and_read_file]. *)
Definition bitmap_24 (fh : BitmapFileHeader) (ih : BitmapInfoHeader) : Prop :=
  bfType fh = 0x4D42 ∧ biBitCount ih = 24 ∧ biCompression ih = 0.

(** The header gives the dimensions of the image: the width and the
    absolute value of the height, which [abs] computes for every height
    but [INT_MIN]. *)
Definition describes (ih : BitmapInfoHeader) (image : ImageDetails) : Prop :=
  biWidth ih = width image ∧ Z.abs (biHeight ih) = height image ∧
  biHeight ih ≠ INT_MIN.

(** What a successful [check_and_read_file] hands back. *)
Definition loaded_ok (l : loaded) : Prop :=
  file_header_ok (l_file_header l) ∧ info_header_ok (l_info_header l) ∧
  bitmap_24 (l_file_header l) (l_info_header l) ∧
  describes (l_info_header l) (l_image l) ∧
  shape (pixels (l_image l)) (height (l_image l)) (width (l_image l)).

(** The bytes of one row of a file: the pixels and the padding. *)
Definition row_bytes (pad : Z) (row : list Pixeldata) : list Z :=
  concat (pixel_bytes <$> row) ++ replicate (Z.to_nat pad) 0.

(** ** Sample files *)

Definition sample_file_header : BitmapFileHeader := mkFileHeader 0x4D42 90 0 0 54.
Definition sample_info_header : BitmapInfoHeader :=
  mkInfoHeader 40 3 3 1 24 0 36 2835 2835 0 0.
Definition sample_loaded : loaded :=
  mkLoaded sample_image sample_file_header sample_info_header.

(** The file of [sample_image] and a set of files holding it under a name
    of one character. *)
Definition sample_file : list Z :=
  default [] (output_bytes sample_image sample_file_header sample_info_header).
Definition sample_files : filesystem := {[ str "a" := sample_file ]}.

(** Memory that holds zeros before it is written, and headers of zeros. *)
Definition blank_memory (y x : Z) : Pixeldata := mkPixel 0 0 0.
Definition blank_file_header : BitmapFileHeader := mkFileHeader 0 0 0 0 0.
Definition blank_info_header : BitmapInfoHeader :=
  mkInfoHeader 0 0 0 0 0 0 0 0 0 0 0.

(** The file of [sample_image] without its last five bytes, under a name
    that ends in [".bmp"]. *)
Definition short_files : filesystem :=
  {[ str "cut.bmp" := take (length sample_file - 5) sample_file ]}.

(** A machine on which the conversion command always fails. *)
Definition no_convert (command : list ascii) (files : filesystem) : Z * filesystem :=
  (1, files).

(** The same file under a name that ends in [".bmp"], and in a directory
    under a name that ends in [".BMP"]. *)
Definition bmp_files : filesystem := {[ str "in.bmp" := sample_file ]}.

(** What is read from the file cut short: the last pixel has its first
    byte from the file and keeps zeros in the two others. *)
Definition cut_image : ImageDetails :=
  mkImage 3 3
    [ [mkPixel 1 1 1; mkPixel 2 2 2; mkPixel 3 3 3];
      [mkPixel 4 4 4; mkPixel 5 5 5; mkPixel 6 6 6];
      [mkPixel 40 40 40; mkPixel 50 50 50; mkPixel 60 0 0] ].

(** * Properties *)

(** ** The embedding on small inputs *)

Example sort_prefix : ascending_sort [5; 3; 9; 1; 7; 0; 0] 5 = Some [1; 3; 5; 7; 9; 0; 0].
Proof. reflexivity. Qed.

(** 0.393 * 100 + 0.769 * 200 + 0.189 * 10 = 194.99, and so on. *)
Example sepia_one_pixel :
  applySepia (uniform_image 1 1 (mkPixel 10 200 100)) 5
  = Some (uniform_image 1 1 (mkPixel 135 174 195)).
Proof. vm_compute. reflexivity. Qed.

(** A uniform field is a fixed point of the blur. *)
Example blur_uniform : applyGaussianBlur (gray_image 4 4 128) = Some (gray_image 4 4 128).
Proof. vm_compute. reflexivity. Qed.

(** The blurred centre of [sample_image] is 248 / 16 = 15; the mask
    (5 - 15) mod 256 = 246 saturates at strength 3. *)
Example blur_sample :
  (r ← applyGaussianBlur sample_image; get_at (pixels r) 1 1) = Some (mkPixel 15 15 15).
Proof. vm_compute. reflexivity. Qed.

Example sharpen_sample :
  (r ← applySharpen sample_image 3; get_at (pixels r) 1 1) = Some (mkPixel 255 255 255).
Proof. vm_compute. reflexivity. Qed.

(** gx = 26 and gy = -192 at the centre: round(sqrt(37540)) = 194. *)
Example edge_sample :
  (r ← applyEdgeDetection sample_image; get_at (pixels r) 1 1)
  = Some (mkPixel 194 194 194).
Proof. vm_compute. reflexivity. Qed.

(** Nine samples at the centre of [sample_image]: the median is the fifth. *)
Example median_sample :
  (r ← applyNoiseReduction sample_image 2; get_at (pixels r) 1 1)
  = Some (mkPixel 5 5 5).
Proof. vm_compute. reflexivity. Qed.

(** The 8 x 8 image shrinks to 4 x 1: int(8 * (4 / 8.0f) * 0.4f) = 1. *)
Example resize_sample :
  changeImageSize (gray_image 8 8 128) 4 = Some (gray_image 1 4 128, []).
Proof. vm_compute. reflexivity. Qed.

(** ** Arrays and grids *)

Section arrays.
Context {A : Type}.
Implicit Types (a : list A) (v : A).

Lemma arr_get_Some a i v :
  arr_get a i = Some v ↔ 0 ≤ i ∧ a !! Z.to_nat i = Some v.
Proof.
  unfold arr_get. case_bool_decide as Hi; split.
  - by intros ->.
  - by intros [_ ?].
  - discriminate.
  - intros [? _]. lia.
Qed.

Lemma arr_get_in_range a i :
  0 ≤ i < Z.of_nat (length a) → is_Some (arr_get a i).
Proof.
  intros Hi. unfold arr_get. rewrite bool_decide_eq_true_2 by lia.
  apply lookup_lt_is_Some. lia.
Qed.

Lemma arr_get_range a i v :
  arr_get a i = Some v → 0 ≤ i < Z.of_nat (length a).
Proof.
  rewrite arr_get_Some. intros [Hi Hl].
  apply lookup_lt_Some in Hl. lia.
Qed.

Lemma arr_set_in_range a i v :
  0 ≤ i < Z.of_nat (length a) → arr_set a i v = Some (<[Z.to_nat i := v]> a).
Proof. intros Hi. unfold arr_set. by rewrite bool_decide_eq_true_2. Qed.

Lemma arr_set_Some a i v a' :
  arr_set a i v = Some a' →
  0 ≤ i < Z.of_nat (length a) ∧ a' = <[Z.to_nat i := v]> a.
Proof.
  unfold arr_set. case_bool_decide; [|discriminate].
  intros [= <-]. done.
Qed.

Lemma arr_get_insert a i j v :
  0 ≤ i < Z.of_nat (length a) →
  arr_get (<[Z.to_nat i := v]> a) j = if bool_decide (j = i) then Some v else arr_get a j.
Proof.
  intros Hi. unfold arr_get. case_bool_decide as Hj.
  - case_bool_decide as Heq.
    + subst j. apply list_lookup_insert_eq. lia.
    + apply list_lookup_insert_ne. lia.
  - case_bool_decide; [lia | done].
Qed.

End arrays.

Section grids.
Context {A : Type}.
Implicit Types (g : grid A) (v : A).

Lemma shape_length g h w : shape g h w → Z.of_nat (length g) = h.
Proof. by intros [? _]. Qed.

Lemma shape_row g h w y row :
  shape g h w → arr_get g y = Some row → Z.of_nat (length row) = w.
Proof.
  intros [_ Hrows] [_ Hrow]%arr_get_Some.
  rewrite Forall_lookup in Hrows. by eapply Hrows.
Qed.

Lemma shape_insert g h w y row :
  shape g h w → Z.of_nat (length row) = w → shape (<[y := row]> g) h w.
Proof.
  intros [Hh Hrows] Hrow. split.
  - by rewrite length_insert.
  - apply Forall_insert; done.
Qed.

Lemma get_at_Some g y x v :
  get_at g y x = Some v ↔
  ∃ row, arr_get g y = Some row ∧ arr_get row x = Some v.
Proof.
  unfold get_at. destruct (arr_get g y) as [row|]; simpl.
  - split; [eauto | by intros (? & [= <-] & ?)].
  - split; [discriminate | by intros (? & ? & ?)].
Qed.

Lemma get_at_in_range g h w y x :
  shape g h w → 0 ≤ y < h → 0 ≤ x < w → is_Some (get_at g y x).
Proof.
  intros Hs Hy Hx.
  destruct (arr_get_in_range g y) as [row Hrow]; [rewrite (shape_length _ _ _ Hs); lia|].
  destruct (arr_get_in_range row x) as [v Hv].
  { rewrite (shape_row _ _ _ _ _ Hs Hrow). lia. }
  exists v. apply get_at_Some. eauto.
Qed.

Lemma get_at_range g h w y x v :
  shape g h w → get_at g y x = Some v → 0 ≤ y < h ∧ 0 ≤ x < w.
Proof.
  intros Hs (row & Hrow & Hv)%get_at_Some.
  pose proof (arr_get_range _ _ _ Hrow) as Hy.
  pose proof (arr_get_range _ _ _ Hv) as Hx.
  rewrite (shape_length _ _ _ Hs) in Hy.
  rewrite (shape_row _ _ _ _ _ Hs Hrow) in Hx. done.
Qed.

(** A store inside the grid succeeds, keeps the shape and changes the
    cell it names and no other. *)
Lemma set_at_in_range g h w y x v :
  shape g h w → 0 ≤ y < h → 0 ≤ x < w →
  ∃ g', set_at g y x v = Some g' ∧ shape g' h w ∧
    ∀ y' x', get_at g' y' x' =
             if bool_decide (y' = y ∧ x' = x) then Some v else get_at g y' x'.
Proof.
  intros Hs Hy Hx.
  destruct (arr_get_in_range g y) as [row Hrow]; [rewrite (shape_length _ _ _ Hs); lia|].
  pose proof (shape_row _ _ _ _ _ Hs Hrow) as Hlen.
  exists (<[Z.to_nat y := <[Z.to_nat x := v]> row]> g).
  split; [|split].
  - unfold set_at. rewrite Hrow. simpl.
    rewrite arr_set_in_range by lia. simpl.
    apply arr_set_in_range. rewrite (shape_length _ _ _ Hs). lia.
  - apply shape_insert; [done|]. by rewrite length_insert.
  - intros y' x'. unfold get_at.
    rewrite arr_get_insert by (rewrite (shape_length _ _ _ Hs); lia).
    case_bool_decide as Hy'.
    + subst y'. simpl. rewrite arr_get_insert by lia. rewrite Hrow. simpl.
      repeat case_bool_decide; (done || lia || tauto).
    + rewrite bool_decide_eq_false_2 by tauto. done.
Qed.

Lemma set_at_Some g h w y x v g' :
  shape g h w → set_at g y x v = Some g' → 0 ≤ y < h ∧ 0 ≤ x < w.
Proof.
  intros Hs. unfold set_at.
  destruct (arr_get g y) as [row|] eqn:Hrow; [|discriminate]. simpl.
  destruct (arr_set row x v) as [row'|] eqn:Hset; [|discriminate]. simpl.
  intros _. apply arr_set_Some in Hset as [Hx _].
  pose proof (arr_get_range _ _ _ Hrow) as Hy.
  rewrite (shape_length _ _ _ Hs) in Hy.
  rewrite (shape_row _ _ _ _ _ Hs Hrow) in Hx. done.
Qed.

(** Two grids of one shape with the same cells are equal. *)
Lemma grid_ext g1 g2 h w :
  shape g1 h w → shape g2 h w →
  (∀ y x, 0 ≤ y < h → 0 ≤ x < w → get_at g1 y x = get_at g2 y x) →
  g1 = g2.
Proof.
  intros Hs1 Hs2 Heq. apply list_eq. intros i.
  destruct (decide (i < length g1)%nat) as [Hi|Hi].
  - destruct (lookup_lt_is_Some_2 g1 i Hi) as [r1 Hr1].
    assert (i < length g2)%nat as Hi2.
    { destruct Hs1 as [? _], Hs2 as [? _]. lia. }
    destruct (lookup_lt_is_Some_2 g2 i Hi2) as [r2 Hr2].
    rewrite Hr1, Hr2. f_equal.
    assert (arr_get g1 (Z.of_nat i) = Some r1) as Ha1.
    { apply arr_get_Some. rewrite Nat2Z.id. split; [lia | done]. }
    assert (arr_get g2 (Z.of_nat i) = Some r2) as Ha2.
    { apply arr_get_Some. rewrite Nat2Z.id. split; [lia | done]. }
    pose proof (shape_row _ _ _ _ _ Hs1 Ha1) as Hl1.
    pose proof (shape_row _ _ _ _ _ Hs2 Ha2) as Hl2.
    apply list_eq. intros j.
    destruct (decide (j < length r1)%nat) as [Hj|Hj].
    + specialize (Heq (Z.of_nat i) (Z.of_nat j)).
      unfold get_at in Heq. rewrite Ha1, Ha2 in Heq. simpl in Heq.
      unfold arr_get in Heq.
      rewrite bool_decide_eq_true_2, Nat2Z.id in Heq by lia.
      apply Heq; [destruct Hs1 as [? _]|]; lia.
    + rewrite !lookup_ge_None_2; [done| lia | lia].
  - rewrite !lookup_ge_None_2; [done| |lia].
    destruct Hs1 as [? _], Hs2 as [? _]. lia.
Qed.

Lemma shape_alloc (d : A) h w : 0 ≤ h → 0 ≤ w → shape (alloc d h w) h w.
Proof.
  intros Hh Hw. unfold alloc, new_array. split.
  - rewrite length_replicate. lia.
  - apply Forall_replicate. rewrite length_replicate. lia.
Qed.
End grids.

(** ** Loop rules *)

Section loops.
Context {St : Type}.
Implicit Types (body : Z → St → option St) (I : Z → St → Prop).

(** Total correctness: the invariant is kept by every iteration, which
    is defined wherever the invariant holds. *)
Lemma for_loop_total I n i body s :
  I i s →
  (∀ j t, i ≤ j < i + Z.of_nat n → I j t →
          ∃ t', body j t = Some t' ∧ I (j + 1) t') →
  ∃ s', for_loop n i body s = Some s' ∧ I (i + Z.of_nat n) s'.
Proof.
  revert i s. induction n as [|n IH]; intros i s Hi Hstep.
  - exists s. split; [done|]. by replace (i + Z.of_nat 0) with i by lia.
  - destruct (Hstep i s) as (t & Hb & Ht); [lia | done |].
    destruct (IH (i + 1) t) as (s' & Hl & Hs'); [done | |].
    { intros j u Hj. apply Hstep. lia. }
    exists s'. split.
    + simpl. rewrite Hb. done.
    + by replace (i + Z.of_nat (S n)) with (i + 1 + Z.of_nat n) by lia.
Qed.

(** Partial correctness: the invariant is kept by every iteration that
    is defined. *)
Lemma for_loop_partial I n i body s s' :
  I i s →
  (∀ j t t', i ≤ j < i + Z.of_nat n → I j t → body j t = Some t' → I (j + 1) t') →
  for_loop n i body s = Some s' →
  I (i + Z.of_nat n) s'.
Proof.
  revert i s. induction n as [|n IH]; intros i s Hi Hstep Hrun.
  - simpl in Hrun. injection Hrun as <-.
    by replace (i + Z.of_nat 0) with i by lia.
  - simpl in Hrun. destruct (body i s) as [t|] eqn:Hb; [|discriminate].
    simpl in Hrun.
    replace (i + Z.of_nat (S n)) with (i + 1 + Z.of_nat n) by lia.
    apply (IH (i + 1) t); [| |done].
    + apply (Hstep i s); [lia | done | done].
    + intros j u u' Hj. apply Hstep. lia.
Qed.

Lemma for_range_total I lo hi body s :
  lo ≤ hi →
  I lo s →
  (∀ j t, lo ≤ j < hi → I j t → ∃ t', body j t = Some t' ∧ I (j + 1) t') →
  ∃ s', for_range lo hi body s = Some s' ∧ I hi s'.
Proof.
  intros Hle Hi Hstep. unfold for_range.
  destruct (for_loop_total I (Z.to_nat (hi - lo)) lo body s) as (s' & Hl & Hs');
    [done | |].
  - intros j t Hj. apply Hstep. lia.
  - exists s'. split; [done|].
    by replace (lo + Z.of_nat (Z.to_nat (hi - lo))) with hi in Hs' by lia.
Qed.

Lemma for_range_partial I lo hi body s s' :
  lo ≤ hi →
  I lo s →
  (∀ j t t', lo ≤ j < hi → I j t → body j t = Some t' → I (j + 1) t') →
  for_range lo hi body s = Some s' →
  I hi s'.
Proof.
  intros Hle Hi Hstep Hrun. unfold for_range in Hrun.
  apply (for_loop_partial I) in Hrun; [| done |].
  - by replace (lo + Z.of_nat (Z.to_nat (hi - lo))) with hi in Hrun by lia.
  - intros j t t' Hj. apply Hstep. lia.
Qed.

(** A loop over an empty range does nothing. *)
Lemma for_range_empty lo hi body s : hi ≤ lo → for_range lo hi body s = Some s.
Proof.
  intros Hle. unfold for_range.
  by replace (Z.to_nat (hi - lo)) with 0%nat by lia.
Qed.
End loops.

(** ** Cell-by-cell loops

    Most loops of the program visit the cells of a rectangle once, in row
    order, and store into the visited cell a value that depends on the
    position and on the content of that cell only (other operands are
    read from arrays the loop does not write). *)

Section raster.
Context {A : Type}.
Variables (h w y0 y1 x0 x1 : Z).
Variable V : Z → Z → option A → option A.
Variable body : Z → Z → grid A → option (grid A).

Hypothesis Hy0 : 0 ≤ y0.
Hypothesis Hy1 : y1 ≤ h.
Hypothesis Hx0 : 0 ≤ x0.
Hypothesis Hx1 : x1 ≤ w.
Hypothesis Hbody : ∀ y x (g : grid A),
  y0 ≤ y < y1 → x0 ≤ x < x1 → shape g h w →
  body y x g = v ← V y x (get_at g y x); set_at g y x v.

Lemma raster_inv_start g : shape g h w → raster_inv h w y0 y1 x0 x1 V g y0 x0 g.
Proof.
  intros Hs. split; [done|]. intros y' x'.
  rewrite bool_decide_eq_false_2; [done|]. unfold visited. lia.
Qed.

Lemma raster_inv_next_row g (y : Z) g' :
  x0 ≤ x1 → raster_inv h w y0 y1 x0 x1 V g y x1 g' → raster_inv h w y0 y1 x0 x1 V g (y + 1) x0 g'.
Proof.
  intros Hx [Hs Hget]. split; [done|]. intros y' x'. rewrite Hget.
  apply (f_equal (λ b : bool, if b then _ else _)).
  apply bool_decide_ext. unfold visited. lia.
Qed.

Lemma raster_inv_skip_row g (y : Z) g' :
  x1 ≤ x0 → raster_inv h w y0 y1 x0 x1 V g y x0 g' → raster_inv h w y0 y1 x0 x1 V g (y + 1) x0 g'.
Proof.
  intros Hx [Hs Hget]. split; [done|]. intros y' x'. rewrite Hget.
  apply (f_equal (λ b : bool, if b then _ else _)).
  apply bool_decide_ext. unfold visited. lia.
Qed.

Lemma raster_inv_end g g' :
  y0 ≤ y1 → raster_inv h w y0 y1 x0 x1 V g y1 x0 g' → raster_post h w y0 y1 x0 x1 V g g'.
Proof.
  intros Hy [Hs Hget]. split; [done|]. intros y' x'. rewrite Hget.
  apply (f_equal (λ b : bool, if b then _ else _)).
  apply bool_decide_ext. unfold visited. lia.
Qed.

(** One iteration, when it is defined. *)
Lemma raster_step g (y x : Z) g' g'' :
  y0 ≤ y < y1 → x0 ≤ x < x1 →
  raster_inv h w y0 y1 x0 x1 V g y x g' → body y x g' = Some g'' →
  raster_inv h w y0 y1 x0 x1 V g y (x + 1) g''.
Proof.
  intros Hy Hx [Hs Hget] Hrun.
  rewrite Hbody in Hrun by done.
  destruct (V y x (get_at g' y x)) as [v|] eqn:Hv; [|discriminate].
  simpl in Hrun.
  destruct (set_at_in_range g' h w y x v) as (g3 & Hset & Hs3 & Hget3);
    [done | lia | lia |].
  rewrite Hset in Hrun. injection Hrun as <-.
  split; [done|]. intros y' x'. rewrite Hget3.
  case_bool_decide as Heq.
  - destruct Heq as [-> ->].
    rewrite bool_decide_eq_true_2 by (unfold visited; lia).
    rewrite <- Hv, Hget.
    rewrite bool_decide_eq_false_2; [done | unfold visited; lia].
  - rewrite Hget.
    apply (f_equal (λ b : bool, if b then _ else _)).
    apply bool_decide_ext. unfold visited. lia.
Qed.

(** One iteration is defined when its value is. *)
Lemma raster_step_defined g (y x : Z) g' :
  y0 ≤ y < y1 → x0 ≤ x < x1 →
  raster_inv h w y0 y1 x0 x1 V g y x g' → is_Some (V y x (get_at g y x)) →
  is_Some (body y x g').
Proof.
  intros Hy Hx [Hs Hget] [v Hv].
  rewrite Hbody by done.
  rewrite Hget, bool_decide_eq_false_2 by (unfold visited; lia).
  rewrite Hv. simpl.
  destruct (set_at_in_range g' h w y x v) as (g3 & Hset & _); [done | lia | lia |].
  by rewrite Hset.
Qed.

Lemma raster_post_empty g : shape g h w → y1 < y0 → raster_post h w y0 y1 x0 x1 V g g.
Proof.
  intros Hs Hy. split; [done|]. intros y x.
  rewrite bool_decide_eq_false_2; [done | lia].
Qed.

(** Whenever the loop completes, each visited cell holds its value and
    the other cells are unchanged. *)
Lemma raster_partial g g' :
  shape g h w →
  for_yx y0 y1 x0 x1 body g = Some g' →
  raster_post h w y0 y1 x0 x1 V g g'.
Proof.
  intros Hs Hrun.
  destruct (decide (y0 ≤ y1)) as [Hy|Hy]; cycle 1.
  { unfold for_yx in Hrun. rewrite for_range_empty in Hrun by lia.
    injection Hrun as <-. apply raster_post_empty; [done | lia]. }
  apply raster_inv_end; [done|].
  revert Hrun. unfold for_yx.
  apply (for_range_partial (λ y g', raster_inv h w y0 y1 x0 x1 V g y x0 g')); [done | | ].
  - by apply raster_inv_start.
  - intros y t t' Hyr Hinv Hrow.
    destruct (decide (x0 ≤ x1)) as [Hx|Hx].
    + apply raster_inv_next_row; [done|].
      revert Hrow.
      apply (for_range_partial (λ x g', raster_inv h w y0 y1 x0 x1 V g y x g')); [done | done |].
      intros x u u' Hxr Hu Hb. by eapply raster_step.
    + rewrite for_range_empty in Hrow by lia. injection Hrow as <-.
      apply raster_inv_skip_row; [lia | done].
Qed.

(** The loop completes when every value is defined. *)
Lemma raster_total g :
  shape g h w →
  (∀ y x, y0 ≤ y < y1 → x0 ≤ x < x1 → is_Some (V y x (get_at g y x))) →
  ∃ g', for_yx y0 y1 x0 x1 body g = Some g' ∧ raster_post h w y0 y1 x0 x1 V g g'.
Proof.
  intros Hs Hdef.
  assert (∃ g', for_yx y0 y1 x0 x1 body g = Some g') as [g' Hrun]; cycle 1.
  { exists g'. split; [done|]. by apply raster_partial. }
  destruct (decide (y0 ≤ y1)) as [Hy|Hy]; cycle 1.
  { exists g. unfold for_yx. apply for_range_empty. lia. }
  unfold for_yx.
  destruct (for_range_total (λ y g', raster_inv h w y0 y1 x0 x1 V g y x0 g') y0 y1
    (λ y, for_range x0 x1 (λ x, body y x)) g) as (g' & Hrun & _);
    [done | by apply raster_inv_start | | by exists g'].
  intros y t Hyr Hinv.
  destruct (decide (x0 ≤ x1)) as [Hx|Hx].
  - destruct (for_range_total (λ x g', raster_inv h w y0 y1 x0 x1 V g y x g') x0 x1
      (λ x, body y x) t) as (t' & Hrow & Ht'); [done | done | |].
    + intros x u Hxr Hu.
      destruct (raster_step_defined g y x u) as [u' Hb]; [done..| |].
      { by apply Hdef. }
      exists u'. split; [done|]. by eapply raster_step.
    + exists t'. split; [done|]. by apply raster_inv_next_row.
  - exists t. split; [apply for_range_empty; lia|].
    apply raster_inv_skip_row; [lia | done].
Qed.
End raster.

(** A loop that rewrites every cell of the grid from its own content. *)
Lemma cellwise_total {A : Type} (f : Z → Z → A → option A)
    (body : Z → Z → grid A → option (grid A)) (g : grid A) (h w : Z) :
  (∀ y x px, body y x px = p ← get_at px y x; v ← f y x p; set_at px y x v) →
  shape g h w → 0 ≤ w →
  (∀ y x a, get_at g y x = Some a → is_Some (f y x a)) →
  ∃ g', for_yx 0 h 0 w body g = Some g' ∧ shape g' h w ∧
        ∀ y x, get_at g' y x = get_at g y x ≫= f y x.
Proof.
  intros Hbody Hs Hw Hdef.
  pose proof (shape_length _ _ _ Hs) as Hh.
  assert (∀ y x (px : grid A), 0 ≤ y < h → 0 ≤ x < w → shape px h w →
    body y x px = v ← (λ y x o, o ≫= f y x) y x (get_at px y x); set_at px y x v)
    as Hbody'.
  { intros y x px _ _ _. rewrite Hbody. by destruct (get_at px y x). }
  destruct (raster_total h w 0 h 0 w _ body ltac:(lia) ltac:(lia) ltac:(lia)
    ltac:(lia) Hbody' g Hs) as (g' & Hrun & Hs' & Hget).
  - intros y x Hy Hx.
    destruct (get_at_in_range g h w y x) as [a Ha]; [done..|].
    rewrite Ha. simpl. by eapply Hdef.
  - exists g'. split; [done|]. split; [done|].
    intros y x. rewrite Hget. case_bool_decide as Hin; [done|].
    destruct (get_at g y x) as [a|] eqn:Ha; [|done].
    apply (get_at_range _ _ _ _ _ _ Hs) in Ha. lia.
Qed.

(** A loop that stores into every cell of a rectangle a value computed
    from the position alone. *)
Lemma fill_total {A : Type} (F : Z → Z → option A)
    (body : Z → Z → grid A → option (grid A)) (g : grid A) (h w y0 y1 x0 x1 : Z) :
  (∀ y x px, body y x px = v ← F y x; set_at px y x v) →
  shape g h w → 0 ≤ y0 → y1 ≤ h → 0 ≤ x0 → x1 ≤ w →
  (∀ y x, y0 ≤ y < y1 → x0 ≤ x < x1 → is_Some (F y x)) →
  ∃ g', for_yx y0 y1 x0 x1 body g = Some g' ∧ shape g' h w ∧
        ∀ y x, get_at g' y x =
               if bool_decide (y0 ≤ y < y1 ∧ x0 ≤ x < x1) then F y x
               else get_at g y x.
Proof.
  intros Hbody Hs Hy0 Hy1 Hx0 Hx1 Hdef.
  assert (∀ y x (px : grid A), y0 ≤ y < y1 → x0 ≤ x < x1 → shape px h w →
    body y x px = v ← (λ y x (_ : option A), F y x) y x (get_at px y x); set_at px y x v)
    as Hbody'.
  { intros y x px _ _ _. by rewrite Hbody. }
  destruct (raster_total h w y0 y1 x0 x1 _ body Hy0 Hy1 Hx0 Hx1 Hbody' g Hs)
    as (g' & Hrun & Hs' & Hget); [done|].
  by exists g'.
Qed.

Lemma fill_partial {A : Type} (F : Z → Z → option A)
    (body : Z → Z → grid A → option (grid A)) (g g' : grid A)
    (h w y0 y1 x0 x1 : Z) :
  (∀ y x px, body y x px = v ← F y x; set_at px y x v) →
  shape g h w → 0 ≤ y0 → y1 ≤ h → 0 ≤ x0 → x1 ≤ w →
  for_yx y0 y1 x0 x1 body g = Some g' →
  shape g' h w ∧
  ∀ y x, get_at g' y x =
         if bool_decide (y0 ≤ y < y1 ∧ x0 ≤ x < x1) then F y x
         else get_at g y x.
Proof.
  intros Hbody Hs Hy0 Hy1 Hx0 Hx1 Hrun.
  assert (∀ y x (px : grid A), y0 ≤ y < y1 → x0 ≤ x < x1 → shape px h w →
    body y x px = v ← (λ y x (_ : option A), F y x) y x (get_at px y x); set_at px y x v)
    as Hbody'.
  { intros y x px _ _ _. by rewrite Hbody. }
  exact (raster_partial h w y0 y1 x0 x1 _ body Hy0 Hy1 Hx0 Hx1 Hbody' g g' Hs Hrun).
Qed.

(** A nested loop over any state is defined when its body always is. *)
Lemma for_yx_defined {St : Type} (y0 y1 x0 x1 : Z)
    (body : Z → Z → St → option St) (s : St) :
  (∀ y x t, y0 ≤ y < y1 → x0 ≤ x < x1 → is_Some (body y x t)) →
  is_Some (for_yx y0 y1 x0 x1 body s).
Proof.
  intros Hdef. unfold for_yx.
  destruct (decide (y0 ≤ y1)) as [Hy|Hy]; cycle 1.
  { rewrite for_range_empty by lia. done. }
  destruct (for_range_total (λ _ _, True) y0 y1
    (λ y, for_range x0 x1 (λ x, body y x)) s) as (s' & Hrun & _); [done..| |].
  - intros y t Hyr _.
    destruct (decide (x0 ≤ x1)) as [Hx|Hx]; cycle 1.
    { rewrite for_range_empty by lia. by exists t. }
    destruct (for_range_total (λ _ _, True) x0 x1 (λ x, body y x) t)
      as (t' & Hrow & _); [done..| |].
    + intros x u Hxr _. destruct (Hdef y x u) as [u' Hu]; [done..|]. by exists u'.
    + by exists t'.
  - by rewrite Hrun.
Qed.

(** ** Images *)

Lemma wf_image_shape image :
  wf_image image → shape (pixels image) (height image) (width image).
Proof. by intros (_ & _ & ?). Qed.

Lemma same_dims_refl image : wf_image image → same_dims image image.
Proof. intros Hwf. by split; [|split; [|apply wf_image_shape]]. Qed.

Lemma same_dims_wf a b : wf_image a → same_dims a b → wf_image b.
Proof.
  intros (Hw & Hh & _) (Hw' & Hh' & Hs). unfold wf_image.
  rewrite Hw', Hh'. done.
Qed.

Lemma same_dims_trans a b c : same_dims a b → same_dims b c → same_dims a c.
Proof.
  intros (Hw & Hh & _) (Hw' & Hh' & Hs). unfold same_dims.
  rewrite Hw', Hh', Hw, Hh in *. done.
Qed.

Lemma same_dims_with_pixels image px :
  shape px (height image) (width image) → same_dims image (with_pixels image px).
Proof. intros Hs. by split; [|split]. Qed.

Lemma with_pixels_id image : with_pixels image (pixels image) = image.
Proof. by destruct image. Qed.

(** The snapshot taken by [copy_pixels] is the array it copies. *)
Lemma copy_pixels_wf (source : grid Pixeldata) (h w : Z) :
  shape source h w → 0 ≤ w → copy_pixels source h w = Some source.
Proof.
  intros Hs Hw. pose proof (shape_length _ _ _ Hs) as Hh.
  unfold copy_pixels.
  destruct (fill_total (λ y x, get_at source y x) (λ y x destination,
      p ← get_at source y x; set_at destination y x p)
    (alloc fresh_pixel h w) h w 0 h 0 w) as (g' & Hrun & Hs' & Hget);
    try lia; try done.
  - apply shape_alloc; lia.
  - intros y x Hy Hx. by eapply get_at_in_range.
  - rewrite Hrun. f_equal. apply (grid_ext _ _ h w); [done..|].
    intros y x Hy Hx. rewrite Hget. by rewrite bool_decide_eq_true_2.
Qed.

Lemma copy_pixels_image image :
  wf_image image →
  copy_pixels (pixels image) (height image) (width image) = Some (pixels image).
Proof. intros (Hw & _ & Hs). apply copy_pixels_wf; [done | lia]. Qed.

(** A filter that rewrites every pixel from its own value. *)
Lemma pixelwise_filter (f : Pixeldata → Pixeldata) image :
  wf_image image →
  ∃ px, for_yx 0 (height image) 0 (width image) (λ y x px,
          p ← get_at px y x; set_at px y x (f p)) (pixels image) = Some px ∧
        same_dims image (with_pixels image px) ∧
        ∀ y x, get_at px y x = f <$> get_at (pixels image) y x.
Proof.
  intros (Hw & Hh & Hs).
  destruct (cellwise_total (λ _ _ p, Some (f p))
    (λ y x px, p ← get_at px y x; set_at px y x (f p))
    (pixels image) (height image) (width image)) as (px & Hrun & Hs' & Hget);
    [done | done | lia | by eauto |].
  exists px. split; [done|]. split; [by apply same_dims_with_pixels|].
  intros y x. rewrite Hget. by destruct (get_at (pixels image) y x).
Qed.

Lemma applyGrayscale_spec image :
  wf_image image →
  ∃ r, applyGrayscale image = Some r ∧ same_dims image r ∧
       ∀ y x, get_at (pixels r) y x = grayscale_pixel <$> get_at (pixels image) y x.
Proof.
  intros Hwf.
  destruct (pixelwise_filter grayscale_pixel image Hwf) as (px & Hrun & Hd & Hget).
  exists (with_pixels image px). unfold applyGrayscale. by rewrite Hrun.
Qed.

Lemma applySepia_spec image filter_strength :
  wf_image image →
  ∃ r, applySepia image filter_strength = Some r ∧ same_dims image r ∧
       ∀ y x, get_at (pixels r) y x = sepia_pixel <$> get_at (pixels image) y x.
Proof.
  intros Hwf.
  destruct (pixelwise_filter sepia_pixel image Hwf) as (px & Hrun & Hd & Hget).
  exists (with_pixels image px). unfold applySepia. by rewrite Hrun.
Qed.

Lemma multiply_image_spec image scalar :
  wf_image image →
  ∃ r, multiply_image image scalar = Some r ∧ same_dims image r ∧
       ∀ y x, get_at (pixels r) y x =
              multiply_pixel scalar <$> get_at (pixels image) y x.
Proof.
  intros Hwf.
  destruct (pixelwise_filter (multiply_pixel scalar) image Hwf)
    as (px & Hrun & Hd & Hget).
  exists (with_pixels image px). unfold multiply_image. by rewrite Hrun.
Qed.

Lemma subtract_images_spec a b result :
  wf_image a → same_dims a b → same_dims a result →
  ∃ r, subtract_images a b result = Some r ∧ same_dims a r ∧
       ∀ y x, 0 ≤ y < height a → 0 ≤ x < width a →
              get_at (pixels r) y x =
              pa ← get_at (pixels a) y x; pb ← get_at (pixels b) y x;
              Some (subtract_pixel pa pb).
Proof.
  intros (Hw & Hh & Hs) (Hwb & Hhb & Hsb) (Hwr & Hhr & Hsr).
  destruct (fill_total
    (λ y x, pa ← get_at (pixels a) y x; pb ← get_at (pixels b) y x;
            Some (subtract_pixel pa pb))
    (λ y x res, pa ← get_at (pixels a) y x; pb ← get_at (pixels b) y x;
                set_at res y x (subtract_pixel pa pb))
    (pixels result) (height a) (width a) 0 (height a) 0 (width a))
    as (px & Hrun & Hs' & Hget); try lia; try done.
  - intros y x px.
    destruct (get_at (pixels a) y x); [|done]. simpl.
    by destruct (get_at (pixels b) y x).
  - intros y x Hy Hx.
    destruct (get_at_in_range _ _ _ y x Hs) as [pa ->]; [done..|].
    destruct (get_at_in_range _ _ _ y x Hsb) as [pb ->]; [done..|].
    done.
  - exists (with_pixels result px). split; [|split].
    + unfold subtract_images. by rewrite Hrun.
    + unfold same_dims. simpl. by rewrite Hwr, Hhr.
    + intros y x Hy Hx. simpl. rewrite Hget.
      by rewrite bool_decide_eq_true_2.
Qed.

Lemma add_images_spec image b :
  wf_image image → same_dims image b →
  ∃ r, add_images image b = Some r ∧ same_dims image r ∧
       ∀ y x, get_at (pixels r) y x =
              pa ← get_at (pixels image) y x; pb ← get_at (pixels b) y x;
              Some (add_pixel pa pb).
Proof.
  intros (Hw & Hh & Hs) (Hwb & Hhb & Hsb).
  destruct (cellwise_total
    (λ y x pa, pb ← get_at (pixels b) y x; Some (add_pixel pa pb))
    (λ y x res, pa ← get_at res y x; pb ← get_at (pixels b) y x;
                set_at res y x (add_pixel pa pb))
    (pixels image) (height image) (width image))
    as (px & Hrun & Hs' & Hget); [ | done | lia | |].
  - intros y x px. destruct (get_at px y x); [|done]. simpl.
    by destruct (get_at (pixels b) y x).
  - intros y x pa Ha.
    apply (get_at_range _ _ _ _ _ _ Hs) in Ha as [Hy Hx].
    destruct (get_at_in_range _ _ _ y x Hsb) as [pb ->]; [done..|].
    done.
  - exists (with_pixels image px). split; [|split].
    + unfold add_images. by rewrite Hrun.
    + by apply same_dims_with_pixels.
    + intros y x. simpl. by rewrite Hget.
Qed.

(** ** Gaussian blur *)

Lemma kernel_weight_defined ky kx :
  -1 ≤ ky < 2 → -1 ≤ kx < 2 → is_Some (get_at GAUSSIAN_KERNEL (ky + 1) (kx + 1)).
Proof.
  intros Hy Hx.
  assert (ky = -1 ∨ ky = 0 ∨ ky = 1) as [-> | [-> | ->]] by lia;
  assert (kx = -1 ∨ kx = 0 ∨ kx = 1) as [-> | [-> | ->]] by lia;
  vm_compute; eauto.
Qed.

Lemma blur_sums_defined (original_pixels : grid Pixeldata) h w y x :
  shape original_pixels h w → 1 ≤ y < h - 1 → 1 ≤ x < w - 1 →
  is_Some (blur_sums original_pixels 1 y x).
Proof.
  intros Hs Hy Hx. unfold blur_sums. apply for_yx_defined.
  intros ky kx [[sumR sumG] sumB] Hky Hkx.
  destruct (kernel_weight_defined ky kx) as [wt ->]; [lia..|]. simpl.
  destruct (get_at_in_range original_pixels h w (y + ky) (x + kx)) as [p ->];
    [done | lia | lia |].
  done.
Qed.

(** Inside the border ring every output pixel of the blur is defined. *)
Lemma blur_pixel_defined (original_pixels : grid Pixeldata) h w y x :
  shape original_pixels h w → 1 ≤ y < h - 1 → 1 ≤ x < w - 1 →
  is_Some (blur_pixel original_pixels 1 y x).
Proof.
  intros Hs Hy Hx. unfold blur_pixel.
  destruct (blur_sums_defined original_pixels h w y x) as [sums ->]; [done..|].
  simpl. by destruct sums as [[? ?] ?].
Qed.

Lemma applyGaussianBlur_spec image :
  wf_image image →
  ∃ r, applyGaussianBlur image = Some r ∧ same_dims image r ∧
       ∀ y x, get_at (pixels r) y x =
              if bool_decide (1 ≤ y < height image - 1 ∧ 1 ≤ x < width image - 1)
              then blur_pixel (pixels image) 1 y x
              else get_at (pixels image) y x.
Proof.
  intros Hwf. pose proof Hwf as (Hw & Hh & Hs).
  unfold applyGaussianBlur. cbv zeta. change (3 ÷ 2) with 1.
  rewrite copy_pixels_image by done. simpl.
  destruct (fill_total (λ y x, blur_pixel (pixels image) 1 y x)
    (λ y x px, v ← blur_pixel (pixels image) 1 y x; set_at px y x v)
    (pixels image) (height image) (width image)
    1 (height image - 1) 1 (width image - 1))
    as (px & Hrun & Hs' & Hget); try lia; try done.
  - intros y x Hy Hx. by eapply blur_pixel_defined.
  - rewrite Hrun. simpl. exists (with_pixels image px).
    split; [done|]. split; [by apply same_dims_with_pixels | done].
Qed.

(** ** Sharpen *)

Lemma clamp_range v : 0 ≤ clamp v 0 255 ≤ 255.
Proof. unfold clamp. repeat case_match; lia. Qed.

Lemma to_byte_id v : 0 ≤ v ≤ 255 → to_byte v = v.
Proof. intros Hv. unfold to_byte. apply Z.mod_small. lia. Qed.

Lemma to_byte_range v : 0 ≤ to_byte v ≤ 255.
Proof. unfold to_byte. pose proof (Z.mod_pos_bound v 256). lia. Qed.

Lemma clamp_id v : 0 ≤ v ≤ 255 → clamp v 0 255 = v.
Proof. intros Hv. unfold clamp. repeat case_match; lia. Qed.

Lemma multiply_exact_table : forallb multiply_exact_on (seqZ 0 256) = true.
Proof. vm_compute. reflexivity. Qed.

Lemma multiply_channel_exact c s :
  0 ≤ c ≤ 255 → 1 ≤ s ≤ 100 →
  multiply_channel c (F32.of_int s) = clamp (c * s) 0 255.
Proof.
  intros Hc Hs.
  pose proof multiply_exact_table as Ht.
  rewrite forallb_forall in Ht.
  specialize (Ht c). unfold multiply_exact_on in Ht.
  rewrite forallb_forall in Ht.
  apply Z.eqb_eq. apply Ht.
  - apply list_elem_of_In, elem_of_seqZ. lia.
  - apply list_elem_of_In, elem_of_seqZ. lia.
Qed.

Lemma sharpen_channel_steps c b s :
  1 ≤ s ≤ 100 →
  to_byte (clamp (to_byte (clamp (c + multiply_channel (to_byte (c - b)) (F32.of_int s)) 0 255)) 0 255)
  = sharpen_channel c b s.
Proof.
  intros Hs. unfold sharpen_channel.
  rewrite multiply_channel_exact by (pose proof (to_byte_range (c - b)); lia).
  rewrite (to_byte_id (clamp (c + _) 0 255)) by apply clamp_range.
  rewrite (clamp_id (clamp _ 0 255)) by apply clamp_range.
  rewrite to_byte_id by apply clamp_range. done.
Qed.

(** ** Edge detection *)

Lemma sobel_weights_defined ky kx :
  0 ≤ ky < 3 → 0 ≤ kx < 3 →
  is_Some (get_at Gx ky kx) ∧ is_Some (get_at Gy ky kx).
Proof.
  intros Hy Hx.
  assert (ky = 0 ∨ ky = 1 ∨ ky = 2) as [-> | [-> | ->]] by lia;
  assert (kx = 0 ∨ kx = 1 ∨ kx = 2) as [-> | [-> | ->]] by lia;
  vm_compute; eauto.
Qed.

Lemma sobel_sums_defined (temp_pixels : grid Pixeldata) h w y x :
  shape temp_pixels h w → 1 ≤ y < h - 1 → 1 ≤ x < w - 1 →
  is_Some (sobel_sums temp_pixels y x).
Proof.
  intros Hs Hy Hx. unfold sobel_sums. apply for_yx_defined.
  intros ky kx [gx gy] Hky Hkx. cbv zeta.
  destruct (get_at_in_range temp_pixels h w (y + ky - 1) (x + kx - 1)) as [p ->];
    [done | lia | lia |].
  destruct (sobel_weights_defined ky kx) as [[wx ->] [wy ->]]; [lia..|].
  done.
Qed.

Lemma edge_pixel_defined (temp_pixels : grid Pixeldata) h w y x :
  shape temp_pixels h w → 1 ≤ y < h - 1 → 1 ≤ x < w - 1 →
  is_Some (edge_pixel temp_pixels y x).
Proof.
  intros Hs Hy Hx. unfold edge_pixel.
  destruct (sobel_sums_defined temp_pixels h w y x) as [g ->]; [done..|].
  simpl. by destruct g.
Qed.

Lemma applyEdgeDetection_spec image :
  wf_image image →
  ∃ gray r, applyGrayscale image = Some gray ∧
       applyEdgeDetection image = Some r ∧ same_dims image r ∧
       ∀ y x, get_at (pixels r) y x =
              if bool_decide (1 ≤ y < height image - 1 ∧ 1 ≤ x < width image - 1)
              then edge_pixel (pixels gray) y x
              else get_at (pixels image) y x.
Proof.
  intros Hwf. pose proof Hwf as (Hw & Hh & Hs).
  destruct (applyGrayscale_spec image Hwf) as (gray & Hgray & Hdg & _).
  exists gray. unfold applyEdgeDetection.
  rewrite copy_pixels_image by done. simpl.
  rewrite with_pixels_id, Hgray. simpl.
  destruct Hdg as (_ & _ & Hsg).
  destruct (fill_total (λ y x, edge_pixel (pixels gray) y x)
    (λ y x px, v ← edge_pixel (pixels gray) y x; set_at px y x v)
    (pixels image) (height image) (width image)
    1 (height image - 1) 1 (width image - 1))
    as (px & Hrun & Hs' & Hget); try lia; try done.
  - intros y x Hy Hx. by eapply edge_pixel_defined.
  - rewrite Hrun. simpl. exists (with_pixels image px).
    split; [done|]. split; [done|].
    split; [by apply same_dims_with_pixels | done].
Qed.

Lemma applySharpen_spec image strength :
  wf_image image → 1 ≤ strength ≤ 100 →
  ∃ blurred r,
    applyGaussianBlur image = Some blurred ∧
    applySharpen image strength = Some r ∧
    same_dims image r ∧
    ∀ y x, get_at (pixels r) y x =
           p ← get_at (pixels image) y x; b ← get_at (pixels blurred) y x;
           Some (sharpen_pixel p b strength).
Proof.
  intros Hwf Hstr. pose proof Hwf as (Hw & Hh & Hs).
  destruct (applyGaussianBlur_spec image Hwf) as (blurred & Hblur & Hdb & _).
  exists blurred.
  unfold applySharpen. rewrite copy_pixels_image by done. simpl.
  rewrite with_pixels_id, Hblur. simpl.
  destruct (subtract_images_spec image blurred image Hwf Hdb (same_dims_refl _ Hwf))
    as (mask & Hsub & Hdm & Hmask).
  rewrite Hsub. simpl.
  pose proof (same_dims_wf _ _ Hwf Hdm) as Hwfm.
  destruct (multiply_image_spec mask (F32.of_int strength) Hwfm)
    as (mask' & Hmul & Hdm' & Hmask').
  rewrite Hmul. simpl.
  pose proof (same_dims_trans _ _ _ Hdm Hdm') as Hdm2.
  destruct (add_images_spec image mask' Hwf Hdm2) as (sum & Hadd & Hds & Hsum).
  rewrite Hadd. simpl.
  pose proof (same_dims_wf _ _ Hwf Hds) as Hwfs.
  destruct (pixelwise_filter clamp_pixel sum Hwfs) as (px & Hrun & Hdr & Hget).
  rewrite Hrun. simpl. exists (with_pixels sum px).
  split; [done|]. split; [done|]. split.
  { eapply same_dims_trans; done. }
  intros y x. simpl. rewrite Hget, Hsum.
  destruct (get_at (pixels image) y x) as [p|] eqn:Hp; [|done]. simpl.
  pose proof (get_at_range _ _ _ _ _ _ Hs Hp) as [Hy Hx].
  rewrite Hmask'. rewrite Hmask by done. rewrite Hp. simpl.
  destruct (get_at (pixels blurred) y x) as [b|]; [|done]. simpl.
  unfold clamp_pixel, add_pixel, multiply_pixel, subtract_pixel, sharpen_pixel.
  simpl. by rewrite !sharpen_channel_steps.
Qed.

(** ** Flip *)

Section flip.
Variables (h w : Z) (g : grid Pixeldata).
Hypothesis Hw : 0 < w.
Hypothesis Hg : shape g h w.

Lemma flip_step y x g' :
  0 ≤ y < h → 0 ≤ x < w ÷ 2 → flip_inv h w g y x g' →
  ∃ g'', swap_at g' y x (w - x - 1) = Some g'' ∧ flip_inv h w g y (x + 1) g''.
Proof.
  intros Hy Hx [Hs Hget].
  rewrite Z.quot_div_nonneg in Hx by lia.
  assert (0 ≤ x ∧ 2 * x + 2 ≤ w) as [Hx0 Hxw] by (Z.div_mod_to_equations; lia).
  clear Hx.
  destruct (get_at_in_range g' h w y x) as [p Hp]; [done | lia | lia |].
  destruct (get_at_in_range g' h w y (w - x - 1)) as [q Hq]; [done | lia | lia |].
  destruct (set_at_in_range g' h w y x q) as (g1 & Hset1 & Hs1 & Hget1);
    [done | lia | lia |].
  destruct (set_at_in_range g1 h w y (w - x - 1) p) as (g2 & Hset2 & Hs2 & Hget2);
    [done | lia | lia |].
  exists g2. split.
  { unfold swap_at. rewrite Hp, Hq. simpl. rewrite Hset1. simpl. done. }
  split; [done|]. intros y' x' Hy' Hx'.
  rewrite Hget2, Hget1.
  rewrite Hget in Hp, Hq by lia.
  rewrite bool_decide_eq_false_2 in Hp by lia.
  rewrite bool_decide_eq_false_2 in Hq by lia.
  destruct (decide (y' = y ∧ x' = w - x - 1)) as [[-> ->]|Hn1].
  - rewrite bool_decide_eq_true_2 by done.
    rewrite bool_decide_eq_true_2 by lia.
    rewrite <- Hp. f_equal. lia.
  - rewrite (bool_decide_eq_false_2 _ Hn1).
    destruct (decide (y' = y ∧ x' = x)) as [[-> ->]|Hn2].
    + rewrite bool_decide_eq_true_2 by done.
      rewrite bool_decide_eq_true_2 by lia.
      rewrite <- Hq. f_equal. lia.
    + rewrite (bool_decide_eq_false_2 _ Hn2).
      rewrite Hget by done.
      apply (f_equal (λ b : bool, if b then _ else _)).
      apply bool_decide_ext. lia.
Qed.

Lemma flip_rows :
  ∃ g', for_yx 0 h 0 (w ÷ 2) (λ y x px, swap_at px y x (w - x - 1)) g = Some g' ∧
        shape g' h w ∧
        ∀ y x, 0 ≤ y < h → 0 ≤ x < w → get_at g' y x = get_at g y (w - 1 - x).
Proof.
  pose proof (shape_length _ _ _ Hg) as Hh.
  assert (0 ≤ w ÷ 2) as Hhalf
    by (rewrite Z.quot_div_nonneg by lia; Z.div_mod_to_equations; lia).
  unfold for_yx.
  destruct (for_range_total (λ y g', flip_inv h w g y 0 g') 0 h
    (λ y, for_range 0 (w ÷ 2) (λ x px, swap_at px y x (w - x - 1))) g)
    as (g' & Hrun & Hs' & Hget); [lia | | |].
  - split; [done|]. intros y' x' Hy' Hx'.
    rewrite bool_decide_eq_false_2; [done | lia].
  - intros y t Hy Hinv.
    destruct (for_range_total (λ x g', flip_inv h w g y x g') 0 (w ÷ 2)
      (λ x px, swap_at px y x (w - x - 1)) t) as (t' & Hrow & Hs' & Hget);
      [lia | done | |].
    + intros x u Hx Hu. by apply flip_step.
    + exists t'. split; [done|]. split; [done|].
      intros y' x' Hy' Hx'. rewrite Hget by done.
      rewrite Z.quot_div_nonneg by lia.
      repeat case_bool_decide; try done;
        try (exfalso; Z.div_mod_to_equations; lia).
      f_equal. Z.div_mod_to_equations. lia.
  - exists g'. split; [done|]. split; [done|].
    intros y x Hy Hx. rewrite Hget by done.
    by rewrite bool_decide_eq_true_2 by lia.
Qed.
End flip.

Lemma applyFlip_spec image :
  wf_image image →
  ∃ r, applyFlip image = Some r ∧ same_dims image r ∧
       ∀ y x, 0 ≤ y < height image → 0 ≤ x < width image →
              get_at (pixels r) y x = get_at (pixels image) y (width image - 1 - x).
Proof.
  intros (Hw & Hh & Hs).
  destruct (flip_rows (height image) (width image) (pixels image) Hw Hs)
    as (px & Hrun & Hs' & Hget).
  exists (with_pixels image px). unfold applyFlip. rewrite Hrun. simpl.
  split; [done|]. split; [by apply same_dims_with_pixels | done].
Qed.

(** ** Nested loops over an arbitrary state *)

Section nested.
Context {St : Type}.
Variables (y0 y1 x0 x1 : Z) (body : Z → Z → St → option St).

(** Total correctness with an invariant that follows the position. *)
Lemma for_yx_total (I : Z → Z → St → Prop) s :
  y0 ≤ y1 → x0 ≤ x1 →
  I y0 x0 s →
  (∀ y x t, y0 ≤ y < y1 → x0 ≤ x < x1 → I y x t →
            ∃ t', body y x t = Some t' ∧ I y (x + 1) t') →
  (∀ y t, y0 ≤ y < y1 → I y x1 t → I (y + 1) x0 t) →
  ∃ s', for_yx y0 y1 x0 x1 body s = Some s' ∧ I y1 x0 s'.
Proof.
  intros Hy Hx Hstart Hstep Hrow. unfold for_yx.
  apply (for_range_total (λ y t, I y x0 t)); [done | done |].
  intros y t Hyr Ht.
  destruct (for_range_total (λ x u, I y x u) x0 x1 (λ x, body y x) t)
    as (t' & Hrun & Ht'); [done | done | |].
  - intros x u Hxr Hu. by apply Hstep.
  - exists t'. split; [done|]. by apply Hrow.
Qed.

(** Partial correctness with an invariant of the state alone. *)
Lemma for_yx_partial (P : St → Prop) s s' :
  P s →
  (∀ y x t t', y0 ≤ y < y1 → x0 ≤ x < x1 → P t → body y x t = Some t' → P t') →
  for_yx y0 y1 x0 x1 body s = Some s' →
  P s'.
Proof.
  intros Hstart Hstep. unfold for_yx.
  destruct (decide (y0 ≤ y1)) as [Hy|Hy]; cycle 1.
  { rewrite for_range_empty by lia. by intros [= <-]. }
  apply (for_range_partial (λ _ t, P t)); [done | done |].
  intros y t t' Hyr Ht.
  destruct (decide (x0 ≤ x1)) as [Hx|Hx]; cycle 1.
  { rewrite for_range_empty by lia. by intros [= <-]. }
  apply (for_range_partial (λ _ u, P u)); [done | done |].
  intros x u u' Hxr Hu. by apply Hstep.
Qed.
End nested.

(** ** Sorting *)

(** Sorting a prefix of equal values leaves the array as it is. *)
Lemma ascending_sort_constant (colour : list Z) (n c : Z) (sorted : list Z) :
  (∀ i, 0 ≤ i < n → arr_get colour i = Some c) →
  ascending_sort colour n = Some sorted →
  sorted = colour.
Proof.
  intros Hc. unfold ascending_sort.
  destruct (decide (0 ≤ n)) as [Hn|Hn]; cycle 1.
  { rewrite for_range_empty by lia. by intros [= <-]. }
  apply (for_range_partial (λ _ a, a = colour)); [done | done |].
  intros i a a' Hi -> Hrun.
  destruct (decide (i + 1 ≤ n)) as [Hin|Hin]; cycle 1.
  { rewrite for_range_empty in Hrun by lia. by injection Hrun as <-. }
  revert Hrun.
  apply (for_range_partial (λ _ a, a = colour)); [done | done |].
  intros j b b' Hj ->.
  rewrite !Hc by lia. simpl. rewrite Z.ltb_irrefl. by intros [= <-].
Qed.

(** The sort is defined on any prefix of the array and keeps its length. *)
Lemma ascending_sort_defined (colour : list Z) (n : Z) :
  n ≤ Z.of_nat (length colour) →
  ∃ sorted, ascending_sort colour n = Some sorted ∧ length sorted = length colour.
Proof.
  intros Hn. unfold ascending_sort.
  destruct (decide (0 ≤ n)) as [Hn0|Hn0]; cycle 1.
  { rewrite for_range_empty by lia. by exists colour. }
  apply (for_range_total (λ _ a, length a = length colour)); [done | done |].
  intros i a Hi Ha.
  destruct (decide (i + 1 ≤ n)) as [Hin|Hin]; cycle 1.
  { rewrite for_range_empty by lia. by exists a. }
  apply (for_range_total (λ _ b, length b = length colour)); [done | done |].
  intros j b Hj Hb.
  destruct (arr_get_in_range b j) as [cj ->]; [lia|].
  destruct (arr_get_in_range b i) as [ci ->]; [lia|].
  simpl. destruct (cj <? ci).
  - rewrite arr_set_in_range by lia. simpl.
    rewrite arr_set_in_range by (rewrite length_insert; lia).
    eexists. split; [done|]. by rewrite !length_insert.
  - by exists b.
Qed.

(** ** Median filter *)

Lemma set_at_get_id {A : Type} (g : grid A) y x v :
  get_at g y x = Some v → set_at g y x v = Some g.
Proof.
  intros (row & Hrow & Hv)%get_at_Some.
  pose proof (arr_get_range _ _ _ Hrow) as Hy.
  pose proof (arr_get_range _ _ _ Hv) as Hx.
  apply arr_get_Some in Hrow as Hrow'. destruct Hrow' as [_ Hrow'].
  apply arr_get_Some in Hv as Hv'. destruct Hv' as [_ Hv'].
  unfold set_at. rewrite Hrow. simpl.
  rewrite arr_set_in_range by done. simpl.
  rewrite arr_set_in_range by done.
  by rewrite (list_insert_id row), (list_insert_id g).
Qed.

Lemma median_step_value original_pixels height width kernel_size offset y x
    (px : grid Pixeldata) :
  shape px height width → 0 ≤ y < height → 0 ≤ x < width →
  median_step original_pixels height width kernel_size offset y x px =
  v ← median_value original_pixels height width kernel_size offset y x (get_at px y x);
  set_at px y x v.
Proof.
  intros Hs Hy Hx. unfold median_step, median_value.
  destruct (collect _ _ _ _ _ _ _) as [s|]; [|done]. simpl.
  destruct (ascending_sort (Red s) _) as [red|]; [|done]. simpl.
  destruct (ascending_sort (Green s) _) as [green|]; [|done]. simpl.
  destruct (ascending_sort (Blue s) _) as [blue|]; [|done]. simpl.
  destruct (0 <? index s).
  - destruct (arr_get red _) as [r|]; [|done]. simpl.
    destruct (arr_get green _) as [g|]; [|done]. simpl.
    by destruct (arr_get blue _) as [b|].
  - destruct (get_at_in_range px height width y x) as [v Hv]; [done..|].
    rewrite Hv. simpl. symmetry. by apply set_at_get_id.
Qed.

(** Whenever the median filter completes, the dimensions are those of the
    input and every pixel holds the value computed from the snapshot. *)
Lemma applyNoiseReduction_partial image filter_strength r :
  wf_image image →
  applyNoiseReduction image filter_strength = Some r →
  same_dims image r ∧
  ∀ y x, 0 ≤ y < height image → 0 ≤ x < width image →
    get_at (pixels r) y x =
    median_value (pixels image) (height image) (width image)
      (kernel_size filter_strength) (noise_offset filter_strength) y x
      (get_at (pixels image) y x).
Proof.
  intros Hwf. pose proof Hwf as (Hw & Hh & Hs).
  unfold applyNoiseReduction. cbv zeta.
  rewrite copy_pixels_image by done. simpl.
  destruct (for_yx _ _ _ _ _ _) as [px|] eqn:Hrun; [|done]. simpl.
  intros [= <-].
  apply (raster_partial (height image) (width image) 0 (height image)
    0 (width image)
    (median_value (pixels image) (height image) (width image)
       (kernel_size filter_strength) (noise_offset filter_strength))) in Hrun;
    [ | lia | lia | lia | lia | | done].
  - destruct Hrun as [Hs' Hget]. split; [by apply same_dims_with_pixels|].
    intros y x Hy Hx. simpl. rewrite Hget. by rewrite bool_decide_eq_true_2.
  - intros y x g Hy Hx Hg. by apply median_step_value.
Qed.

Lemma collect_uniform original_pixels height width kernel_size offset y x c s :
  uniform_grid original_pixels c →
  collect original_pixels height width kernel_size offset y x = Some s →
  samples_of c s.
Proof.
  intros Hu. unfold collect.
  apply (for_yx_partial _ _ _ _ _ (samples_of c)).
  - split; [done|]. simpl. lia.
  - intros ky kx t t' _ _ [Hi Ht]. cbv zeta. case_bool_decide; cycle 1.
    { by intros [= <-]. }
    destruct (get_at original_pixels _ _) as [pixel|] eqn:Hp; [|done]. simpl.
    apply Hu in Hp as ->.
    destruct (arr_set (Red t) _ _) as [red|] eqn:Hr; [|done]. simpl.
    destruct (arr_set (Green t) _ _) as [green|] eqn:Hg; [|done]. simpl.
    destruct (arr_set (Blue t) _ _) as [blue|] eqn:Hb; [|done]. simpl.
    intros [= <-]. simpl.
    apply arr_set_Some in Hr as [Hir ->].
    apply arr_set_Some in Hg as [Hig ->].
    apply arr_set_Some in Hb as [Hib ->].
    split; simpl; [lia|]. intros i Hir'.
    rewrite !arr_get_insert by done.
    case_bool_decide; [done|]. apply Ht. lia.
Qed.

Lemma half_in_range n : 0 < n → 0 ≤ n ÷ 2 < n.
Proof. intros Hn. rewrite Z.quot_div_nonneg by lia. Z.div_mod_to_equations. lia. Qed.

(** On a uniform array the value stored by the pixel loop, when it is
    defined, is the pixel that was there. *)
Lemma median_value_uniform original_pixels height width kernel_size offset y x c v :
  uniform_grid original_pixels c → byte_pixel c →
  median_value original_pixels height width kernel_size offset y x (Some c) = Some v →
  v = c.
Proof.
  intros Hu (HR & HG & HB). unfold median_value.
  destruct (collect _ _ _ _ _ _ _) as [s|] eqn:Hc; [|done]. simpl.
  apply (collect_uniform _ _ _ _ _ _ _ c) in Hc as [Hi Hs]; [|done].
  destruct (ascending_sort (Red s) _) as [red|] eqn:Hr; [|done]. simpl.
  destruct (ascending_sort (Green s) _) as [green|] eqn:Hg; [|done]. simpl.
  destruct (ascending_sort (Blue s) _) as [blue|] eqn:Hb; [|done]. simpl.
  apply (ascending_sort_constant _ _ (R c)) in Hr as ->; [|intros; by apply Hs].
  apply (ascending_sort_constant _ _ (G c)) in Hg as ->; [|intros; by apply Hs].
  apply (ascending_sort_constant _ _ (B c)) in Hb as ->; [|intros; by apply Hs].
  destruct (0 <? index s) eqn:Hpos; [|by intros [= <-]].
  apply Z.ltb_lt in Hpos.
  destruct (Hs (index s ÷ 2) (half_in_range _ Hpos)) as (-> & -> & ->). simpl.
  intros [= <-]. rewrite !to_byte_id by done. by destruct c.
Qed.

(** On an image of one colour the median filter, whenever it completes,
    returns the image it was given. *)
Lemma applyNoiseReduction_uniform image filter_strength c r :
  wf_image image → uniform_grid (pixels image) c → byte_pixel c →
  applyNoiseReduction image filter_strength = Some r →
  r = image.
Proof.
  intros Hwf Hu Hc Hrun. pose proof Hwf as (Hw & Hh & Hs).
  destruct (applyNoiseReduction_partial _ _ _ Hwf Hrun) as [(Hw' & Hh' & Hs') Hget].
  destruct r as [w' h' px], image as [w h px0]. simpl in *. subst w' h'.
  f_equal. apply (grid_ext _ _ h w); [exact Hs' | exact Hs |].
  intros y x Hy Hx.
  destruct (get_at_in_range px h w y x) as [v Hv]; [done..|].
  destruct (get_at_in_range px0 h w y x) as [p Hp]; [done..|].
  pose proof (Hu _ _ _ Hp) as ->.
  rewrite Hp, Hv. f_equal. symmetry.
  rewrite Hget, Hp in Hv by done.
  by apply median_value_uniform in Hv.
Qed.

(** The window of [2 * offset + 1] rows and columns fits the buffers when
    it is no wider than [kernel_size]: collecting is then defined. *)
Lemma collect_defined original_pixels h w kernel_size offset y x :
  shape original_pixels h w → 0 ≤ offset → 2 * offset + 1 ≤ kernel_size →
  ∃ s, collect original_pixels h w kernel_size offset y x = Some s ∧
       0 ≤ index s ≤ Z.of_nat (length (Red s)) ∧
       length (Green s) = length (Red s) ∧ length (Blue s) = length (Red s).
Proof.
  intros Hs Hoff Hfit. unfold collect.
  set (n := 2 * offset + 1).
  set (cap := Z.to_nat (kernel_size * kernel_size)).
  destruct (for_yx_total (- offset) (offset + 1) (- offset) (offset + 1)
    (λ ky kx s,
      let sample_y := y + ky in
      let sample_x := x + kx in
      if bool_decide (0 ≤ sample_y ∧ sample_y < h ∧ 0 ≤ sample_x ∧ sample_x < w)
      then
        pixel ← get_at original_pixels sample_y sample_x;
        red ← arr_set (Red s) (index s) (R pixel);
        green ← arr_set (Green s) (index s) (G pixel);
        blue ← arr_set (Blue s) (index s) (B pixel);
        Some (mkSamples red green blue (index s + 1))
      else Some s)
    (λ ky kx s,
      length (Red s) = cap ∧ length (Green s) = cap ∧ length (Blue s) = cap ∧
      0 ≤ index s ≤ (ky + offset) * n + (kx + offset))
    (new_samples kernel_size)) as (s & Hrun & Hr & Hg & Hb & Hi);
    [lia | lia | | | |].
  - unfold new_samples, new_array. simpl. rewrite !length_replicate. lia.
  - intros ky kx t Hky Hkx (Hr & Hg & Hb & Hi). cbv zeta.
    assert (index t < Z.of_nat cap) as Hcap.
    { assert ((ky + offset) * n ≤ (n - 1) * n) by (apply Z.mul_le_mono_nonneg_r; lia).
      assert (n * n ≤ kernel_size * kernel_size) by (apply Z.mul_le_mono_nonneg; lia).
      unfold cap. lia. }
    case_bool_decide as Hin.
    + destruct (get_at_in_range original_pixels h w (y + ky) (x + kx)) as [p ->];
        [done | lia | lia |]. simpl.
      rewrite !arr_set_in_range by lia. simpl.
      eexists. split; [done|]. simpl. rewrite !length_insert. lia.
    + exists t. split; [done|]. lia.
  - intros ky t Hky (Hr & Hg & Hb & Hi). split; [done|]. split; [done|].
    split; [done|]. unfold n in *. lia.
  - exists s. split; [done|].
    assert ((offset + 1 + offset) * n = n * n) as Hnn by (unfold n; lia).
    assert (n * n ≤ kernel_size * kernel_size) by (apply Z.mul_le_mono_nonneg; lia).
    rewrite Hr, Hg, Hb. unfold cap. split; [lia | done].
Qed.

Lemma median_value_defined original_pixels h w kernel_size offset y x cur :
  shape original_pixels h w → 0 ≤ offset → 2 * offset + 1 ≤ kernel_size →
  is_Some cur →
  is_Some (median_value original_pixels h w kernel_size offset y x cur).
Proof.
  intros Hs Hoff Hfit Hcur. unfold median_value.
  destruct (collect_defined original_pixels h w kernel_size offset y x)
    as (s & -> & Hi & Hg & Hb); [done..|]. simpl.
  destruct (ascending_sort_defined (Red s) (index s)) as (red & -> & Hlr); [lia|].
  destruct (ascending_sort_defined (Green s) (index s)) as (green & -> & Hlg); [lia|].
  destruct (ascending_sort_defined (Blue s) (index s)) as (blue & -> & Hlb); [lia|].
  simpl. destruct (0 <? index s) eqn:Hpos; [|done].
  apply Z.ltb_lt in Hpos. pose proof (half_in_range _ Hpos).
  destruct (arr_get_in_range red (index s ÷ 2)) as [r ->]; [lia|].
  destruct (arr_get_in_range green (index s ÷ 2)) as [g ->]; [lia|].
  destruct (arr_get_in_range blue (index s ÷ 2)) as [b ->]; [lia|].
  done.
Qed.

(** With an odd [kernel_size] the window is exactly as wide as the buffers
    assume and the filter completes on every image. *)
Lemma applyNoiseReduction_defined image filter_strength :
  wf_image image → 0 ≤ filter_strength →
  Z.odd (kernel_size filter_strength) = true →
  is_Some (applyNoiseReduction image filter_strength).
Proof.
  intros Hwf Hstr Hodd. pose proof Hwf as (Hw & Hh & Hs).
  assert (3 ≤ kernel_size filter_strength) as Hk.
  { unfold kernel_size, adjusted_strength. case_match; [|lia].
    rewrite Z.quot_div_nonneg by lia. Z.div_mod_to_equations. lia. }
  assert (0 ≤ noise_offset filter_strength ∧
          2 * noise_offset filter_strength + 1 ≤ kernel_size filter_strength)
    as [Hoff Hfit].
  { apply Z.odd_spec in Hodd as [m Hm]. unfold noise_offset.
    rewrite Z.quot_div_nonneg by lia. Z.div_mod_to_equations. lia. }
  unfold applyNoiseReduction. cbv zeta.
  rewrite copy_pixels_image by done. simpl.
  destruct (raster_total (height image) (width image) 0 (height image)
    0 (width image)
    (median_value (pixels image) (height image) (width image)
       (kernel_size filter_strength) (noise_offset filter_strength))
    (median_step (pixels image) (height image) (width image)
       (kernel_size filter_strength) (noise_offset filter_strength))
    ltac:(lia) ltac:(lia) ltac:(lia) ltac:(lia)) with (g := pixels image)
    as (px & Hrun & _).
  - intros y x g Hy Hx Hg. by apply median_step_value.
  - done.
  - intros y x Hy Hx. apply (median_value_defined _ (height image) (width image));
      [done..|]. by eapply get_at_in_range.
  - rewrite Hrun. done.
Qed.

(** ** Character art *)

Lemma num_chars_value : num_chars = 92.
Proof. reflexivity. Qed.

(** The extremes found by [min_max] bound every pixel. *)
Lemma min_max_spec (px : grid Pixeldata) h w :
  shape px h w → 0 ≤ w →
  ∃ min_val max_val, min_max px h w = Some (min_val, max_val) ∧
    ∀ y x p, get_at px y x = Some p → min_val ≤ R p ≤ max_val.
Proof.
  intros Hs Hw. pose proof (shape_length _ _ _ Hs) as Hh. unfold min_max.
  destruct (for_yx_total 0 h 0 w
    (λ y x mm,
      let '(min_val, max_val) := mm in
      p ← get_at px y x;
      let val := R p in
      let min_val := if val <? min_val then val else min_val in
      let max_val := if val >? max_val then val else max_val in
      Some (min_val, max_val))
    (λ y x mm, ∀ y' x' p, y' < y ∨ y' = y ∧ x' < x →
       get_at px y' x' = Some p → mm.1 ≤ R p ≤ mm.2)
    (255, 0)) as ([mn mx] & Hrun & Hmm); [lia | lia | | | |].
  - intros y' x' p Hv Hp. apply (get_at_range _ _ _ _ _ _ Hs) in Hp. lia.
  - intros y x [mn mx] Hy Hx Hinv.
    destruct (get_at_in_range px h w y x) as [p0 Hp0]; [done..|].
    rewrite Hp0. cbn [mbind option_bind]. cbv zeta. rewrite Z.gtb_ltb.
    eexists. split; [done|].
    intros y' x' p Hv Hp. cbn [fst snd].
    destruct (decide (y' = y ∧ x' = x)) as [[-> ->]|Hne].
    + assert (p = p0) as -> by congruence.
      destruct (Z.ltb_spec (R p0) mn), (Z.ltb_spec mx (R p0)); lia.
    + specialize (Hinv y' x' p ltac:(lia) Hp). cbn [fst snd] in Hinv.
      destruct (Z.ltb_spec (R p0) mn), (Z.ltb_spec mx (R p0)); lia.
  - intros y mm Hy Hinv y' x' p Hv Hp.
    pose proof (get_at_range _ _ _ _ _ _ Hs Hp).
    apply (Hinv y' x' p); [lia | done].
  - exists mn, mx. split; [done|]. intros y x p Hp.
    pose proof (get_at_range _ _ _ _ _ _ Hs Hp).
    apply (Hmm y x p); [lia | done].
Qed.

(** The stretched value of a pixel between the extremes is defined and
    stays below 255. *)
Lemma stretch_pixel_spec min_val max_val p :
  min_val ≤ R p ≤ max_val →
  ∃ stretched,
    int_div (255 * (R p - min_val)) (max_val - min_val + 1) = Some stretched ∧
    0 ≤ stretched < 255 ∧
    stretch_pixel min_val max_val p = Some (mkPixel stretched stretched stretched).
Proof.
  intros Hp. unfold stretch_pixel, int_div.
  destruct (Z.eqb_spec (max_val - min_val + 1) 0) as [|_]; [lia|].
  eexists. split; [done|].
  assert (0 ≤ 255 * (R p - min_val) ÷ (max_val - min_val + 1) < 255) as Hr.
  { rewrite Z.quot_div_nonneg by lia. split.
    - apply Z.div_pos; lia.
    - apply Z.div_lt_upper_bound; lia. }
  split; [done|]. simpl. by rewrite to_byte_id by lia.
Qed.

(** The glyph of a stretched value is never the last character. *)
Lemma glyph_spec p :
  0 ≤ R p < 255 →
  ∃ c, glyph num_chars p = Some c ∧
       0 ≤ R p * (num_chars - 1) ÷ 255 ≤ num_chars - 2.
Proof.
  intros Hp. rewrite num_chars_value.
  assert (0 ≤ R p * (92 - 1) ÷ 255 ≤ 92 - 2) as Hi.
  { rewrite Z.quot_div_nonneg by lia. Z.div_mod_to_equations. lia. }
  unfold glyph.
  destruct (arr_get_in_range (list_ascii_of_string ascii_chars)
    (R p * (92 - 1) ÷ 255)) as [c Hc].
  { change (Z.of_nat (length (list_ascii_of_string ascii_chars))) with 92. lia. }
  by exists c.
Qed.

(** What [ASCII_filter] computes, step by step: the grayscale image, its
    extremes, the stretched value and the glyph of every pixel. *)
Lemma ASCII_filter_spec image :
  wf_image image →
  ∃ gray min_val max_val image' art,
    applyGrayscale image = Some gray ∧
    min_max (pixels gray) (height image) (width image) = Some (min_val, max_val) ∧
    ASCII_filter image = Some (image', art) ∧
    same_dims image image' ∧
    a_width art = width image ∧ a_height art = height image ∧
    shape (a_pixels art) (height image) (width image) ∧
    ∀ y x q, get_at (pixels gray) y x = Some q →
      ∃ stretched c,
        int_div (255 * (R q - min_val)) (max_val - min_val + 1) = Some stretched ∧
        0 ≤ stretched < 255 ∧
        get_at (pixels image') y x = Some (mkPixel stretched stretched stretched) ∧
        0 ≤ stretched * (num_chars - 1) ÷ 255 ≤ num_chars - 2 ∧
        arr_get ramp (stretched * (num_chars - 1) ÷ 255) = Some c ∧
        get_at (a_pixels art) y x = Some c.
Proof.
  intros Hwf. pose proof Hwf as (Hw & Hh & Hs).
  destruct (applyGrayscale_spec image Hwf) as (gray & Hgray & Hdg & _).
  pose proof Hdg as (Hwg & Hhg & Hsg).
  destruct (min_max_spec (pixels gray) (height image) (width image))
    as (mn & mx & Hmm & Hbound); [done | lia |].
  destruct (cellwise_total (λ _ _ p, stretch_pixel mn mx p)
    (λ y x px, p ← get_at px y x; v ← stretch_pixel mn mx p; set_at px y x v)
    (pixels gray) (height image) (width image))
    as (px & Hrun & Hspx & Hgetpx); [done | done | lia | |].
  { intros y x q Hq. destruct (stretch_pixel_spec mn mx q) as (st & _ & _ & ->);
      [by eapply Hbound | done]. }
  destruct (fill_total (λ y x, p ← get_at px y x; glyph num_chars p)
    (λ y x chars, p ← get_at px y x; c ← glyph num_chars p; set_at chars y x c)
    (alloc Ascii.zero (height image) (width image))
    (height image) (width image) 0 (height image) 0 (width image))
    as (chars & Hfill & Hsc & Hgetc); try lia.
  { intros y x chars. by destruct (get_at px y x). }
  { apply shape_alloc; lia. }
  { intros y x Hy Hx. rewrite Hgetpx.
    destruct (get_at_in_range (pixels gray) _ _ y x Hsg) as [q Hq]; [done..|].
    rewrite Hq. simpl.
    destruct (stretch_pixel_spec mn mx q) as (st & _ & Hst & ->);
      [by eapply Hbound|]. simpl.
    destruct (glyph_spec (mkPixel st st st)) as (c & -> & _); done. }
  exists gray, mn, mx, (with_pixels gray px),
    (mkAscii (width image) (height image) chars).
  split; [done|]. split; [done|]. split.
  { unfold ASCII_filter. rewrite Hgray. cbn [mbind option_bind].
    rewrite Hwg, Hhg, Hmm. cbn [mbind option_bind].
    rewrite Hrun. cbn [mbind option_bind]. cbv zeta.
    cbn [with_pixels width height pixels]. rewrite Hwg, Hhg.
    change (Z.of_nat (String.length ascii_chars)) with num_chars.
    rewrite Hfill. done. }
  split. { unfold same_dims. simpl. by rewrite Hwg, Hhg. }
  split; [done|]. split; [done|]. split; [done|].
  intros y x q Hq.
  pose proof (get_at_range _ _ _ _ _ _ Hsg Hq) as [Hy Hx].
  destruct (stretch_pixel_spec mn mx q) as (st & Hdiv & Hst & Hsp);
    [by eapply Hbound|].
  destruct (glyph_spec (mkPixel st st st)) as (c & Hc & Hi); [done|].
  exists st, c. simpl.
  assert (get_at px y x = Some (mkPixel st st st)) as Hpx.
  { rewrite Hgetpx, Hq. done. }
  split; [done|]. split; [done|]. split; [done|]. split; [done|].
  split; [done|].
  rewrite Hgetc, bool_decide_eq_true_2 by lia. rewrite Hpx. done.
Qed.

Lemma ramp_last : arr_get ramp (num_chars - 1) = Some last_char.
Proof. reflexivity. Qed.

Lemma ramp_last_only i : 0 ≤ i ≤ num_chars - 2 → arr_get ramp i ≠ Some last_char.
Proof.
  intros Hi Hc.
  assert (forallb (λ j, negb (bool_decide (arr_get ramp j = Some last_char)))
            (seqZ 0 (num_chars - 1)) = true) as Hall by (vm_compute; reflexivity).
  rewrite forallb_forall in Hall. specialize (Hall i).
  rewrite bool_decide_eq_true_2 in Hall by done.
  assert (false = true) by (apply Hall, list_elem_of_In, elem_of_seqZ; lia).
  done.
Qed.

(** The first character of the ramp is the blank. *)
Lemma ramp_first : arr_get ramp 0 = Some " "%char.
Proof. reflexivity. Qed.

(** ** Writing the character grid *)

Lemma for_down_loop_total {St : Type} (I : Z → St → Prop) n i
    (body : Z → St → option St) s :
  I i s →
  (∀ j t, i - Z.of_nat n < j ≤ i → I j t →
          ∃ t', body j t = Some t' ∧ I (j - 1) t') →
  ∃ s', for_down_loop n i body s = Some s' ∧ I (i - Z.of_nat n) s'.
Proof.
  revert i s. induction n as [|n IH]; intros i s Hi Hstep.
  - exists s. split; [done|]. by replace (i - Z.of_nat 0) with i by lia.
  - destruct (Hstep i s) as (t & Hb & Ht); [lia | done |].
    destruct (IH (i - 1) t) as (s' & Hl & Hs'); [done | |].
    { intros j u Hj. apply Hstep. lia. }
    exists s'. split.
    + simpl. rewrite Hb. done.
    + by replace (i - Z.of_nat (S n)) with (i - 1 - Z.of_nat n) by lia.
Qed.

(** The inner loop appends the row it is given. *)
Lemma write_row (chars : grid ascii) h w y row out :
  shape chars h w → arr_get chars y = Some row →
  for_range 0 w (λ x out, c ← get_at chars y x; Some (out ++ [c])) out
  = Some (out ++ row).
Proof.
  intros Hs Hrow. pose proof (shape_row _ _ _ _ _ Hs Hrow) as Hlen.
  destruct (for_range_total (λ x o, o = out ++ take (Z.to_nat x) row) 0 w
    (λ x out, c ← get_at chars y x; Some (out ++ [c])) out)
    as (o & Hrun & ->); [lia | | |].
  - simpl. by rewrite app_nil_r.
  - intros x o Hx ->.
    destruct (arr_get_in_range row x) as [c Hc]; [lia|].
    unfold get_at. rewrite Hrow. simpl. rewrite Hc. simpl.
    eexists. split; [done|].
    apply arr_get_Some in Hc as [_ Hc].
    replace (Z.to_nat (x + 1)) with (S (Z.to_nat x)) by lia.
    rewrite (take_S_r _ _ _ Hc). by rewrite app_assoc.
  - rewrite Hrun. by rewrite take_ge by lia.
Qed.

(** [saveAsciiImage] writes the rows from the last to the first. *)
Lemma saveAsciiImage_spec art :
  shape (a_pixels art) (a_height art) (a_width art) →
  saveAsciiImage art = Some (concat (line <$> reverse (a_pixels art))).
Proof.
  intros Hs. pose proof (shape_length _ _ _ Hs) as Hh.
  unfold saveAsciiImage, for_down.
  destruct (for_down_loop_total
    (λ y out, out = concat (line <$> reverse (drop (Z.to_nat (y + 1)) (a_pixels art))))
    (Z.to_nat (a_height art - 1 - 0 + 1)) (a_height art - 1)
    (λ y out,
      out ← for_range 0 (a_width art) (λ x out,
        c ← get_at (a_pixels art) y x; Some (out ++ [c])) out;
      Some (out ++ ["010"%char])) []) as (out & Hrun & ->).
  - rewrite drop_ge by lia. done.
  - intros y out Hy ->.
    destruct (arr_get_in_range (a_pixels art) y) as [row Hrow]; [lia|].
    rewrite (write_row _ _ _ _ row _ Hs Hrow). simpl.
    eexists. split; [done|].
    apply arr_get_Some in Hrow as [_ Hrow].
    replace (Z.to_nat (y - 1 + 1)) with (Z.to_nat y) by lia.
    rewrite (drop_S _ _ _ Hrow).
    replace (S (Z.to_nat y)) with (Z.to_nat (y + 1)) by lia.
    rewrite reverse_cons, fmap_app, concat_app. simpl.
    rewrite app_nil_r. unfold line. by rewrite app_assoc.
  - rewrite Hrun. do 3 f_equal.
    replace (Z.to_nat (a_height art - 1 - Z.of_nat (Z.to_nat (a_height art - 1 - 0 + 1)) + 1))
      with 0%nat by lia.
    done.
Qed.

(** ** Resize *)

(** The constant [0.4f] is the correctly rounded quotient of 4 by 10. *)
Lemma aspect_ratio_value : aspect_ratio = F32.div (F32.of_int 4) (F32.of_int 10).
Proof. reflexivity. Qed.

(** The first test of [changeImageSize]. *)
Lemma changeImageSize_too_large image new_width :
  new_width > width image ∨ scaled_height image new_width > height image →
  changeImageSize image new_width = Some (image, [size_error]).
Proof. intros Hbig. unfold changeImageSize. by rewrite bool_decide_eq_true_2. Qed.

(** The second test, reached through two divisions that are defined. *)
Lemma changeImageSize_kernel image new_width :
  ¬ (new_width > width image ∨ scaled_height image new_width > height image) →
  new_width ≠ 0 → scaled_height image new_width ≠ 0 →
  width image ÷ new_width ≤ 0 ∨ height image ÷ scaled_height image new_width ≤ 0 →
  changeImageSize image new_width = Some (image, [kernel_error]).
Proof.
  intros Hfit Hw Hh Hk. unfold changeImageSize, int_div.
  rewrite bool_decide_eq_false_2 by done.
  destruct (Z.eqb_spec new_width 0); [done|]. simpl.
  destruct (Z.eqb_spec (scaled_height image new_width) 0); [done|]. simpl.
  by rewrite bool_decide_eq_true_2.
Qed.

(** A computed height of zero passes the first test and is then used as a
    divisor before the second test is reached. *)
Lemma changeImageSize_zero_height image new_width :
  new_width ≤ width image → 0 ≤ height image →
  scaled_height image new_width = 0 →
  changeImageSize image new_width = None.
Proof.
  intros Hw Hh Hz. unfold changeImageSize, int_div. rewrite Hz.
  rewrite bool_decide_eq_false_2 by lia.
  destruct (new_width =? 0); [done|]. simpl. done.
Qed.

(** * The claims of the specification *)

(** ** The sample inputs are well formed *)

Lemma uniform_image_wf h w p :
  (0 < h)%nat → (0 < w)%nat → wf_image (uniform_image h w p).
Proof.
  intros Hh Hw. unfold wf_image, uniform_image, shape. simpl.
  split; [lia|]. split; [lia|]. split.
  - by rewrite length_replicate.
  - apply Forall_replicate. by rewrite length_replicate.
Qed.

Lemma uniform_image_uniform h w p : uniform_grid (pixels (uniform_image h w p)) p.
Proof.
  intros y x q (row & Hrow & Hq)%get_at_Some. simpl in Hrow.
  apply arr_get_Some in Hrow as [_ Hrow]. apply lookup_replicate in Hrow as [-> _].
  apply arr_get_Some in Hq as [_ Hq]. by apply lookup_replicate in Hq as [-> _].
Qed.

(** ** C1: the strength of the median filter *)

Lemma rem_2_odd s : 0 ≤ s → negb (Z.rem s 2 =? 0) = Z.odd s.
Proof.
  intros Hs. rewrite Z.rem_mod_nonneg by lia.
  rewrite Zodd_mod. destruct (Z.eqb_spec (s mod 2) 0) as [->|Hne]; [done|].
  assert (s mod 2 = 1) as -> by (pose proof (Z.mod_pos_bound s 2); lia). done.
Qed.

(** C1, as stated, fails: an even strength is not touched (at 2 the
    adjusted strength is 2, not (2 + 1) / 2 = 1), and the kernel size is
    not always odd (at strength 1 it is 4). *)
Lemma noise_strength_counterexample :
  ¬ (∀ s, 1 ≤ s ≤ 100 → Z.even s = true → adjusted_strength s = (s + 1) ÷ 2) ∧
  ¬ (∀ s, 1 ≤ s ≤ 100 → Z.odd (kernel_size s) = true).
Proof.
  split.
  - intros H. specialize (H 2 ltac:(lia) eq_refl). vm_compute in H. discriminate.
  - intros H. specialize (H 1 ltac:(lia)). vm_compute in H. discriminate.
Qed.

(** C1 (amended): for every strength in [1, 100] the median filter
    increments the strength and halves it when it is odd and leaves it
    unchanged when it is even; the kernel size is 3 plus the adjusted
    strength and the offset is half the kernel size, rounded down. *)
Theorem noise_strength_adjusted (s : Z) :
  1 ≤ s ≤ 100 →
  (Z.odd s = true → adjusted_strength s = (s + 1) / 2) ∧
  (Z.even s = true → adjusted_strength s = s) ∧
  kernel_size s = 3 + adjusted_strength s ∧
  noise_offset s = kernel_size s / 2 ∧
  1 ≤ adjusted_strength s ≤ 100.
Proof.
  intros Hs. unfold noise_offset, kernel_size, adjusted_strength.
  rewrite rem_2_odd by lia. rewrite <- Z.negb_even.
  destruct (Z.even s) eqn:He; simpl.
  - split; [done|]. split; [done|]. split; [done|].
    split; [|lia]. apply Z.quot_div_nonneg; lia.
  - assert (0 ≤ (s + 1) ÷ 2 ∧ (s + 1) ÷ 2 = (s + 1) / 2) as [Hq Hd].
    { rewrite Z.quot_div_nonneg by lia. split; [|done].
      apply Z.div_pos; lia. }
    split; [done|]. split; [done|]. split; [done|].
    split; [apply Z.quot_div_nonneg; lia|].
    rewrite Hd. Z.div_mod_to_equations. lia.
Qed.

Lemma noise_strength_adjusted_witness :
  1 ≤ 5 ≤ 100 ∧
  ((Z.odd 5 = true → adjusted_strength 5 = (5 + 1) / 2) ∧
   (Z.even 5 = true → adjusted_strength 5 = 5) ∧
   kernel_size 5 = 3 + adjusted_strength 5 ∧
   noise_offset 5 = kernel_size 5 / 2 ∧
   1 ≤ adjusted_strength 5 ≤ 100).
Proof. split; [lia | apply (noise_strength_adjusted 5); lia]. Defined.

(** ** C2: the failure cases of the resize *)

(** C2: the code does not report a computed height of zero.  For a 2 x 2
    image and the accepted size 1 the computed height is
    [int(2 * (1 / 2.0f) * 0.4f) = 0]; it passes the test against the
    original dimensions, and [image.height / new_height] divides by zero
    before the test of the kernel sizes is reached. *)
Theorem resize_zero_height_divides_by_zero :
  wf_image small_image ∧
  accepted_size small_image 1 ∧
  scaled_height small_image 1 = 0 ∧
  changeImageSize small_image 1 = None.
Proof.
  split; [apply uniform_image_wf; lia|].
  split; [unfold accepted_size; simpl; lia|].
  split; [reflexivity|].
  apply changeImageSize_zero_height; [simpl; lia | simpl; lia | reflexivity].
Qed.

(** ** C3: the order of the rows in the text file *)

(** C3, as stated, fails: the text written for the grid whose row 0 is
    "a" and whose row 1 is "b" starts with "b", not with row 0. *)
Lemma save_order_counterexample :
  shape (a_pixels two_rows) (a_height two_rows) (a_width two_rows) ∧
  saveAsciiImage two_rows = Some ["b"; "010"; "a"; "010"]%char ∧
  saveAsciiImage two_rows ≠ Some (concat (line <$> a_pixels two_rows)).
Proof.
  split; [|split].
  - split; [done|]. repeat constructor.
  - reflexivity.
  - vm_compute. discriminate.
Qed.

(** C3 (amended): for every character grid the text writer emits one line
    per row, holding one character per column, and the rows come in the
    reverse of the order in which the grid stores them: row [height - 1]
    first and row 0 last. *)
Theorem save_ascii_rows_reversed (art : AsciiFilter) :
  shape (a_pixels art) (a_height art) (a_width art) →
  saveAsciiImage art = Some (concat (line <$> reverse (a_pixels art))) ∧
  ∀ row, row ∈ a_pixels art → Z.of_nat (length (line row)) = a_width art + 1.
Proof.
  intros Hs. split; [by apply saveAsciiImage_spec|].
  intros row Hrow. destruct Hs as [_ Hrows].
  rewrite Forall_forall in Hrows. unfold line.
  rewrite length_app. simpl. rewrite <- (Hrows row Hrow). lia.
Qed.

Lemma save_ascii_rows_reversed_witness :
  shape (a_pixels two_rows) (a_height two_rows) (a_width two_rows) ∧
  (saveAsciiImage two_rows = Some (concat (line <$> reverse (a_pixels two_rows))) ∧
   ∀ row, row ∈ a_pixels two_rows →
          Z.of_nat (length (line row)) = a_width two_rows + 1).
Proof.
  assert (shape (a_pixels two_rows) (a_height two_rows) (a_width two_rows)) as Hs.
  { split; [reflexivity|]. repeat constructor. }
  split; [exact Hs | exact (save_ascii_rows_reversed two_rows Hs)].
Defined.

(** ** C4: character art of a uniform image *)

(** C4, as stated, fails: for the 8 x 8 image of gray value 128 and the
    width 4 every character is the blank, which is the first character of
    the ramp and not a character of its middle. *)
Lemma ascii_uniform_counterexample :
  ∃ art text,
    make_ascii (gray_image 8 8 128) 4 = Some (art, text) ∧
    a_pixels art = [ [blank; blank; blank; blank] ] ∧
    arr_get ramp mid_ramp_low = Some "o"%char ∧
    arr_get ramp mid_ramp_high = Some "Z"%char ∧
    arr_get ramp mid_ramp_low ≠ Some blank ∧
    arr_get ramp mid_ramp_high ≠ Some blank.
Proof.
  eexists _, _. split; [vm_compute; reflexivity|].
  split; [reflexivity|]. split; [reflexivity|]. split; [reflexivity|].
  split; vm_compute; discriminate.
Qed.

Lemma ascii_uniform_table :
  forallb (λ v, bool_decide (make_ascii (gray_image 8 8 v) 4
                             = Some (blank_art, blank_text)))
          (seqZ 0 256) = true.
Proof. vm_compute. reflexivity. Qed.

(** C4 (amended): for an 8-wide, 8-tall image whose pixels all have the
    same gray value, the ascii-art path with requested width 4 produces a
    grid of 4 columns and 1 row in which every character is the first
    character of the ramp, the blank: with equal minimum and maximum every
    pixel is stretched to 0. *)
Theorem ascii_uniform_first_glyph (v : Z) :
  0 ≤ v ≤ 255 →
  make_ascii (gray_image 8 8 v) 4 = Some (blank_art, blank_text) ∧
  arr_get ramp 0 = Some blank ∧
  ∀ y x c, get_at (a_pixels blank_art) y x = Some c → c = blank.
Proof.
  intros Hv. split; [|split].
  - pose proof ascii_uniform_table as Ht. rewrite forallb_forall in Ht.
    assert (In v (seqZ 0 256)) as Hin
      by (apply list_elem_of_In, elem_of_seqZ; lia).
    specialize (Ht v Hin). cbv beta in Ht.
    apply bool_decide_eq_true in Ht. exact Ht.
  - reflexivity.
  - intros y x c (row & Hrow & Hc)%get_at_Some.
    apply arr_get_Some in Hrow as [_ Hrow]. apply arr_get_Some in Hc as [_ Hc].
    apply list_elem_of_lookup_2 in Hrow. apply list_elem_of_lookup_2 in Hc.
    simpl in Hrow. apply list_elem_of_singleton in Hrow. subst row.
    repeat (apply elem_of_cons in Hc as [->|Hc]; [done|]).
    by apply elem_of_nil in Hc.
Qed.

Lemma ascii_uniform_first_glyph_witness :
  0 ≤ 128 ≤ 255 ∧
  (make_ascii (gray_image 8 8 128) 4 = Some (blank_art, blank_text) ∧
   arr_get ramp 0 = Some blank ∧
   ∀ y x c, get_at (a_pixels blank_art) y x = Some c → c = blank).
Proof. split; [lia | apply (ascii_uniform_first_glyph 128); lia]. Defined.

(** ** C5: the unsharp mask *)

(** C5: for every image and strength in [1, 100], [applySharpen] blurs a
    copy of the image once, and every channel of the result is
    [clamp(c + clamp(((c - b) mod 256) * strength, 0, 255), 0, 255)] for
    the original channel [c] and the blurred channel [b]: the difference
    wraps modulo 256 without clamping, the product with the raw strength
    is clamped, and so is the final sum. *)
Theorem sharpen_unsharp_mask (image : ImageDetails) (strength : Z) :
  wf_image image → 1 ≤ strength ≤ 100 →
  ∃ blurred r,
    applyGaussianBlur image = Some blurred ∧
    applySharpen image strength = Some r ∧
    same_dims image r ∧
    ∀ y x, 0 ≤ y < height image → 0 ≤ x < width image →
      ∃ p b, get_at (pixels image) y x = Some p ∧
             get_at (pixels blurred) y x = Some b ∧
             get_at (pixels r) y x = Some (sharpen_pixel p b strength).
Proof.
  intros Hwf Hs.
  destruct (applySharpen_spec image strength Hwf Hs)
    as (blurred & r & Hblur & Hsharp & Hd & Hget).
  exists blurred, r. split; [done|]. split; [done|]. split; [done|].
  intros y x Hy Hx.
  destruct (applyGaussianBlur_spec image Hwf) as (blurred' & Hblur' & Hdb & _).
  assert (blurred' = blurred) as -> by congruence.
  destruct Hwf as (_ & _ & Hsh). destruct Hdb as (_ & _ & Hsb).
  destruct (get_at_in_range _ _ _ y x Hsh) as [p Hp]; [done..|].
  destruct (get_at_in_range _ _ _ y x Hsb) as [b Hb]; [done..|].
  exists p, b. split; [done|]. split; [done|].
  by rewrite Hget, Hp, Hb.
Qed.

Lemma sharpen_unsharp_mask_witness :
  wf_image sample_image ∧ 1 ≤ 3 ≤ 100 ∧
  ∃ blurred r,
    applyGaussianBlur sample_image = Some blurred ∧
    applySharpen sample_image 3 = Some r ∧
    same_dims sample_image r ∧
    ∀ y x, 0 ≤ y < height sample_image → 0 ≤ x < width sample_image →
      ∃ p b, get_at (pixels sample_image) y x = Some p ∧
             get_at (pixels blurred) y x = Some b ∧
             get_at (pixels r) y x = Some (sharpen_pixel p b 3).
Proof.
  assert (wf_image sample_image) as Hwf.
  { unfold wf_image, shape. simpl.
    split; [lia|]. split; [lia|]. split; [reflexivity|]. repeat constructor. }
  split; [exact Hwf|]. split; [lia|].
  apply (sharpen_unsharp_mask sample_image 3 Hwf). lia.
Defined.

(** ** C6: the frame of the Gaussian blur *)

(** C6: for every image at least 3 wide and 3 tall, one pass of
    [applyGaussianBlur] completes, keeps the dimensions, leaves every pixel
    of the one-pixel border ring equal to its value before the pass, and
    gives every interior pixel (rows 1 to height - 2, columns 1 to
    width - 2) the value [blur_pixel] computes from the array as it was
    before the pass. *)
Theorem gaussian_blur_frame (image : ImageDetails) :
  wf_image image → 3 ≤ width image → 3 ≤ height image →
  ∃ r, applyGaussianBlur image = Some r ∧ same_dims image r ∧
    ∀ y x, 0 ≤ y < height image → 0 ≤ x < width image →
      if bool_decide (1 ≤ y ≤ height image - 2 ∧ 1 ≤ x ≤ width image - 2)
      then ∃ v, blur_pixel (pixels image) 1 y x = Some v ∧
                get_at (pixels r) y x = Some v
      else get_at (pixels r) y x = get_at (pixels image) y x.
Proof.
  intros Hwf Hw Hh.
  destruct (applyGaussianBlur_spec image Hwf) as (r & Hrun & Hd & Hget).
  exists r. split; [done|]. split; [done|].
  intros y x Hy Hx. rewrite Hget.
  destruct Hwf as (_ & _ & Hs).
  case_bool_decide as Hin.
  - rewrite bool_decide_eq_true_2 by lia.
    destruct (blur_pixel_defined (pixels image) _ _ y x Hs) as [v Hv]; [lia..|].
    by exists v.
  - by rewrite bool_decide_eq_false_2 by lia.
Qed.

Lemma gaussian_blur_frame_witness :
  wf_image sample_image ∧ 3 ≤ width sample_image ∧ 3 ≤ height sample_image ∧
  ∃ r, applyGaussianBlur sample_image = Some r ∧ same_dims sample_image r ∧
    ∀ y x, 0 ≤ y < height sample_image → 0 ≤ x < width sample_image →
      if bool_decide (1 ≤ y ≤ height sample_image - 2 ∧
                      1 ≤ x ≤ width sample_image - 2)
      then ∃ v, blur_pixel (pixels sample_image) 1 y x = Some v ∧
                get_at (pixels r) y x = Some v
      else get_at (pixels r) y x = get_at (pixels sample_image) y x.
Proof.
  assert (wf_image sample_image) as Hwf.
  { unfold wf_image, shape. simpl.
    split; [lia|]. split; [lia|]. split; [reflexivity|]. repeat constructor. }
  split; [exact Hwf|]. split; [simpl; lia|]. split; [simpl; lia|].
  apply (gaussian_blur_frame sample_image Hwf); simpl; lia.
Defined.

(** ** C7: the stretched intensity and the glyph index *)

(** C7: for every image [ASCII_filter] completes (the division of the
    stretch is defined also when the minimum equals the maximum); every
    stretched intensity [255 * (val - min) / (max - min + 1)] lies in
    [0, 255), the glyph index [intensity * (num_chars - 1) / 255] is at
    most [num_chars - 2], the ramp lookup is inside the ramp, and the
    character emitted is never the last character of the ramp. *)
Theorem ascii_stretch_below_255 (image : ImageDetails) :
  wf_image image →
  ∃ gray min_val max_val image' art,
    applyGrayscale image = Some gray ∧
    min_max (pixels gray) (height image) (width image) = Some (min_val, max_val) ∧
    ASCII_filter image = Some (image', art) ∧
    ∀ y x, 0 ≤ y < height image → 0 ≤ x < width image →
      ∃ q stretched c,
        get_at (pixels gray) y x = Some q ∧
        int_div (255 * (R q - min_val)) (max_val - min_val + 1) = Some stretched ∧
        0 ≤ stretched < 255 ∧
        get_at (pixels image') y x = Some (mkPixel stretched stretched stretched) ∧
        0 ≤ stretched * (num_chars - 1) ÷ 255 ≤ num_chars - 2 ∧
        arr_get ramp (stretched * (num_chars - 1) ÷ 255) = Some c ∧
        get_at (a_pixels art) y x = Some c ∧
        c ≠ last_char.
Proof.
  intros Hwf.
  destruct (ASCII_filter_spec image Hwf)
    as (gray & mn & mx & image' & art & Hgray & Hmm & Hrun & _ & _ & _ & _ & Hpix).
  exists gray, mn, mx, image', art.
  split; [done|]. split; [done|]. split; [done|].
  intros y x Hy Hx.
  destruct (applyGrayscale_spec image Hwf) as (gray' & Hgray' & (_ & _ & Hsg) & _).
  assert (gray' = gray) as -> by congruence.
  destruct (get_at_in_range _ _ _ y x Hsg) as [q Hq]; [done..|].
  destruct (Hpix y x q Hq) as (st & c & Hdiv & Hst & Himg & Hi & Hc & Hart).
  exists q, st, c. repeat (split; [done|]).
  intros ->. by apply (ramp_last_only _ Hi).
Qed.

Lemma ascii_stretch_below_255_witness :
  wf_image sample_image ∧
  ∃ gray min_val max_val image' art,
    applyGrayscale sample_image = Some gray ∧
    min_max (pixels gray) (height sample_image) (width sample_image)
      = Some (min_val, max_val) ∧
    ASCII_filter sample_image = Some (image', art) ∧
    ∀ y x, 0 ≤ y < height sample_image → 0 ≤ x < width sample_image →
      ∃ q stretched c,
        get_at (pixels gray) y x = Some q ∧
        int_div (255 * (R q - min_val)) (max_val - min_val + 1) = Some stretched ∧
        0 ≤ stretched < 255 ∧
        get_at (pixels image') y x = Some (mkPixel stretched stretched stretched) ∧
        0 ≤ stretched * (num_chars - 1) ÷ 255 ≤ num_chars - 2 ∧
        arr_get ramp (stretched * (num_chars - 1) ÷ 255) = Some c ∧
        get_at (a_pixels art) y x = Some c ∧
        c ≠ last_char.
Proof.
  assert (wf_image sample_image) as Hwf.
  { unfold wf_image, shape. simpl.
    split; [lia|]. split; [lia|]. split; [reflexivity|]. repeat constructor. }
  split; [exact Hwf|].
  apply (ascii_stretch_below_255 sample_image Hwf).
Defined.

(** ** C8: the median filter on a uniform image *)

(** C8: the code does not return a uniform image unchanged for every
    strength.  At strength 1 the kernel size is 4 and the offset 2: the
    buffers hold 16 samples, the window of the centre pixel of a 5 x 5
    image has 25, and the 17th store leaves the buffers, so that the call
    has no defined result.  At strength 2 (kernel size 5) the same image
    is returned unchanged. *)
Theorem noise_uniform_buffer_overrun :
  wf_image five_by_five ∧
  uniform_grid (pixels five_by_five) (mkPixel 1 2 3) ∧
  byte_pixel (mkPixel 1 2 3) ∧
  kernel_size 1 = 4 ∧ noise_offset 1 = 2 ∧
  length (Red (new_samples (kernel_size 1))) = 16%nat ∧
  collect (pixels five_by_five) 5 5 (kernel_size 1) (noise_offset 1) 2 2 = None ∧
  applyNoiseReduction five_by_five 1 = None ∧
  applyNoiseReduction five_by_five 2 = Some five_by_five.
Proof.
  split; [apply uniform_image_wf; lia|].
  split; [apply uniform_image_uniform|].
  split; [unfold byte_pixel; simpl; lia|].
  repeat split; vm_compute; reflexivity.
Qed.

(** ** C9: the horizontal flip *)

(** C9: for every image [applyFlip] completes and keeps the dimensions;
    the pixel at [(y, x)] of the result is the pixel at
    [(y, width - 1 - x)] of the input, in every row; and flipping the
    result gives the input back. *)
Theorem flip_involutive (image : ImageDetails) :
  wf_image image →
  ∃ r, applyFlip image = Some r ∧
       same_dims image r ∧
       (∀ y x, 0 ≤ y < height image → 0 ≤ x < width image →
               get_at (pixels r) y x = get_at (pixels image) y (width image - 1 - x)) ∧
       applyFlip r = Some image.
Proof.
  intros Hwf.
  destruct (applyFlip_spec image Hwf) as (r & Hrun & Hd & Hget).
  exists r. split; [done|]. split; [done|]. split; [done|].
  pose proof (same_dims_wf _ _ Hwf Hd) as Hwfr.
  destruct (applyFlip_spec r Hwfr) as (r2 & Hrun2 & Hd2 & Hget2).
  rewrite Hrun2. f_equal.
  destruct Hd as (Hw & Hh & Hs). destruct Hd2 as (Hw2 & Hh2 & Hs2).
  rewrite Hw, Hh in *.
  destruct Hwf as (_ & _ & Hsi).
  destruct r2 as [w2 h2 px2], image as [w h px]. simpl in *. subst w2 h2.
  f_equal. apply (grid_ext _ _ h w); [exact Hs2 | exact Hsi |].
  intros y x Hy Hx.
  rewrite Hget2 by done. rewrite Hget by lia. f_equal. lia.
Qed.

Lemma flip_involutive_witness :
  wf_image sample_image ∧
  ∃ r, applyFlip sample_image = Some r ∧
       same_dims sample_image r ∧
       (∀ y x, 0 ≤ y < height sample_image → 0 ≤ x < width sample_image →
               get_at (pixels r) y x
               = get_at (pixels sample_image) y (width sample_image - 1 - x)) ∧
       applyFlip r = Some sample_image.
Proof.
  assert (wf_image sample_image) as Hwf.
  { unfold wf_image, shape. simpl.
    split; [lia|]. split; [lia|]. split; [reflexivity|]. repeat constructor. }
  split; [exact Hwf|].
  apply (flip_involutive sample_image Hwf).
Defined.

(** ** C10: the dimensions *)

(** What holds of the dimensions: on every image and for every strength in
    [1, 100], grayscale, sepia, flip, Gaussian blur, sharpen and edge
    detection complete with a result of the width and height of the
    input; noise reduction returns an image of the same width and height
    whenever it completes, and it completes whenever its kernel size is
    odd; [changeImageSize] is able to return an image of other
    dimensions. *)
Theorem filters_preserve_dimensions (image : ImageDetails) (strength : Z) :
  wf_image image → 1 ≤ strength ≤ 100 →
  (∃ r, applyGrayscale image = Some r ∧ same_dims image r) ∧
  (∃ r, applySepia image strength = Some r ∧ same_dims image r) ∧
  (∃ r, applyFlip image = Some r ∧ same_dims image r) ∧
  (∃ r, applyGaussianBlur image = Some r ∧ same_dims image r) ∧
  (∃ r, applySharpen image strength = Some r ∧ same_dims image r) ∧
  (∃ r, applyEdgeDetection image = Some r ∧ same_dims image r) ∧
  (∀ r, applyNoiseReduction image strength = Some r → same_dims image r) ∧
  (Z.odd (kernel_size strength) = true →
   is_Some (applyNoiseReduction image strength)) ∧
  (∃ r, changeImageSize (gray_image 8 8 128) 4 = Some (r, []) ∧
        width r = 4 ∧ height r = 1).
Proof.
  intros Hwf Hs.
  split. { destruct (applyGrayscale_spec image Hwf) as (r & ? & ? & _). eauto. }
  split. { destruct (applySepia_spec image strength Hwf) as (r & ? & ? & _). eauto. }
  split. { destruct (applyFlip_spec image Hwf) as (r & ? & ? & _). eauto. }
  split. { destruct (applyGaussianBlur_spec image Hwf) as (r & ? & ? & _). eauto. }
  split. { destruct (applySharpen_spec image strength Hwf Hs) as (b & r & _ & ? & ? & _).
           eauto. }
  split. { destruct (applyEdgeDetection_spec image Hwf) as (g & r & _ & ? & ? & _).
           eauto. }
  split. { intros r Hr. by destruct (applyNoiseReduction_partial _ _ _ Hwf Hr). }
  split. { intros Hodd. apply applyNoiseReduction_defined; [done | lia | done]. }
  eexists. split; [vm_compute; reflexivity|]. split; reflexivity.
Qed.

Lemma filters_preserve_dimensions_witness :
  wf_image sample_image ∧ 1 ≤ 2 ≤ 100 ∧
  (∃ r, applyGrayscale sample_image = Some r ∧ same_dims sample_image r) ∧
  (∃ r, applySepia sample_image 2 = Some r ∧ same_dims sample_image r) ∧
  (∃ r, applyFlip sample_image = Some r ∧ same_dims sample_image r) ∧
  (∃ r, applyGaussianBlur sample_image = Some r ∧ same_dims sample_image r) ∧
  (∃ r, applySharpen sample_image 2 = Some r ∧ same_dims sample_image r) ∧
  (∃ r, applyEdgeDetection sample_image = Some r ∧ same_dims sample_image r) ∧
  (∀ r, applyNoiseReduction sample_image 2 = Some r → same_dims sample_image r) ∧
  (Z.odd (kernel_size 2) = true →
   is_Some (applyNoiseReduction sample_image 2)) ∧
  (∃ r, changeImageSize (gray_image 8 8 128) 4 = Some (r, []) ∧
        width r = 4 ∧ height r = 1).
Proof.
  assert (wf_image sample_image) as Hwf.
  { unfold wf_image, shape. simpl.
    split; [lia|]. split; [lia|]. split; [reflexivity|]. repeat constructor. }
  split; [exact Hwf|]. split; [lia|].
  apply (filters_preserve_dimensions sample_image 2 Hwf). lia.
Defined.

(** C10: the code does not keep the dimensions under every filter and
    strength.  At strength 1 the kernel size of the median filter is even
    and the call on the 5 x 5 image of one colour stores past the end of
    its sample buffers (the defect of C8): it has no defined result, and
    so no result of the width and height of its input. *)
Theorem noise_reduction_dimensions_undefined :
  wf_image five_by_five ∧ 1 ≤ 1 ≤ 100 ∧
  Z.odd (kernel_size 1) = false ∧
  applyNoiseReduction five_by_five 1 = None ∧
  ¬ (∃ r, applyNoiseReduction five_by_five 1 = Some r ∧ same_dims five_by_five r).
Proof.
  split; [apply uniform_image_wf; lia|]. split; [lia|]. split; [reflexivity|].
  assert (applyNoiseReduction five_by_five 1 = None) as Hrun
    by (vm_compute; reflexivity).
  split; [exact Hrun|]. intros (r & Hr & _). by rewrite Hrun in Hr.
Qed.

(** * Further properties of the code *)

(** Two images of the same dimensions with the same pixels are equal. *)
Lemma image_ext (a b : ImageDetails) :
  wf_image a → same_dims a b →
  (∀ y x, 0 ≤ y < height a → 0 ≤ x < width a →
          get_at (pixels b) y x = get_at (pixels a) y x) →
  b = a.
Proof.
  intros (_ & _ & Hs) (Hw & Hh & Hsb) Hget.
  destruct a as [w h px], b as [w' h' px']. simpl in *. subst w' h'.
  f_equal. by apply (grid_ext _ _ h w).
Qed.

(** ** Grayscale *)

Lemma grayscale_pixel_idem p : grayscale_pixel (grayscale_pixel p) = grayscale_pixel p.
Proof.
  unfold grayscale_pixel. simpl.
  set (a := to_byte ((R p + G p + B p) ÷ 3)).
  pose proof (to_byte_range ((R p + G p + B p) ÷ 3)) as Ha. fold a in Ha.
  assert ((a + a + a) ÷ 3 = a) as ->.
  { rewrite Z.quot_div_nonneg by lia. Z.div_mod_to_equations. lia. }
  by rewrite to_byte_id.
Qed.

(** X1: grayscale is idempotent: on every image the filter completes, and
    applied to its own result it returns that result unchanged; every
    pixel of the result has three equal channels in [0, 255]. *)
Theorem grayscale_idempotent (image : ImageDetails) :
  wf_image image →
  ∃ r, applyGrayscale image = Some r ∧
       applyGrayscale r = Some r ∧
       ∀ y x p, get_at (pixels r) y x = Some p →
                R p = G p ∧ G p = B p ∧ 0 ≤ R p ≤ 255.
Proof.
  intros Hwf.
  destruct (applyGrayscale_spec image Hwf) as (r & Hrun & Hd & Hget).
  exists r. split; [done|].
  pose proof (same_dims_wf _ _ Hwf Hd) as Hwfr.
  destruct (applyGrayscale_spec r Hwfr) as (r2 & Hrun2 & Hd2 & Hget2).
  split.
  - rewrite Hrun2. f_equal. apply image_ext; [done | done |].
    intros y x Hy Hx. rewrite Hget2, Hget.
    destruct (get_at (pixels image) y x); [|done]. simpl.
    by rewrite grayscale_pixel_idem.
  - intros y x p. rewrite Hget.
    destruct (get_at (pixels image) y x) as [q|]; [|done]. simpl.
    intros [= <-]. unfold grayscale_pixel. simpl.
    split; [done|]. split; [done|]. apply to_byte_range.
Qed.

Lemma grayscale_idempotent_witness :
  wf_image sample_image ∧
  ∃ r, applyGrayscale sample_image = Some r ∧
       applyGrayscale r = Some r ∧
       ∀ y x p, get_at (pixels r) y x = Some p →
                R p = G p ∧ G p = B p ∧ 0 ≤ R p ≤ 255.
Proof.
  assert (wf_image sample_image) as Hwf.
  { unfold wf_image, shape. simpl.
    split; [lia|]. split; [lia|]. split; [reflexivity|]. repeat constructor. }
  split; [exact Hwf|]. apply (grayscale_idempotent sample_image Hwf).
Defined.

(** ** Sorting *)

Lemma sort_inner_step colour n i j a :
  0 ≤ i → i < j < n → n ≤ Z.of_nat (length colour) →
  sort_inner_inv colour n i j a →
  ∃ a',
    (cj ← arr_get a j; ci ← arr_get a i;
     if cj <? ci then a1 ← arr_set a i cj; arr_set a1 j ci else Some a) = Some a' ∧
    sort_inner_inv colour n i (j + 1) a'.
Proof.
  intros Hi Hj Hn [(Hlen & Hperm & Hdrop & Hord) Hmin].
  destruct (arr_get_in_range a j) as [cj Hcj]; [lia|].
  destruct (arr_get_in_range a i) as [ci Hci]; [lia|].
  rewrite Hcj, Hci. simpl.
  destruct (Z.ltb_spec cj ci) as [Hlt|Hge].
  - rewrite arr_set_in_range by lia. simpl.
    rewrite arr_set_in_range by (rewrite length_insert; lia).
    eexists. split; [done|].
    assert (∀ l, arr_get (<[Z.to_nat j:=ci]> (<[Z.to_nat i:=cj]> a)) l =
                 if bool_decide (l = j) then Some ci
                 else if bool_decide (l = i) then Some cj else arr_get a l) as Hget.
    { intros l. rewrite arr_get_insert by (rewrite length_insert; lia).
      case_bool_decide; [done|]. by rewrite arr_get_insert by lia. }
    split; [split; [|split; [|split]]|].
    + by rewrite !length_insert.
    + rewrite <- Hperm. apply Permutation_insert_swap.
      * by apply arr_get_Some in Hci as [_ ?].
      * by apply arr_get_Some in Hcj as [_ ?].
    + rewrite !drop_insert_lt by lia. done.
    + intros k l x y Hk Hl. rewrite !Hget.
      rewrite (bool_decide_eq_false_2 (k = j)) by lia.
      rewrite (bool_decide_eq_false_2 (k = i)) by lia.
      intros Hx. repeat case_bool_decide; intros Hy.
      * injection Hy as <-. apply (Hord k i x ci); [lia | lia | done | done].
      * injection Hy as <-. apply (Hord k j x cj); [lia | lia | done | done].
      * by apply (Hord k l x y).
    + intros l x y Hl. rewrite !Hget.
      rewrite (bool_decide_eq_false_2 (i = j)) by lia.
      rewrite (bool_decide_eq_true_2 (i = i)) by done.
      intros [= <-]. repeat case_bool_decide; intros Hy; try lia.
      * injection Hy as <-. lia.
      * specialize (Hmin l ci y ltac:(lia) Hci Hy). lia.
  - exists a. split; [done|]. split; [done|].
    intros l x y Hl Hx Hy.
    destruct (decide (l = j)) as [->|Hne].
    + assert (x = ci) as -> by congruence. assert (y = cj) as -> by congruence. lia.
    + apply (Hmin l x y); [lia | done | done].
Qed.

(** The sort of a prefix: order, rearrangement and frame. *)
Lemma ascending_sort_spec (colour : list Z) (n : Z) :
  0 ≤ n ≤ Z.of_nat (length colour) →
  ∃ sorted,
    ascending_sort colour n = Some sorted ∧
    length sorted = length colour ∧
    take (Z.to_nat n) sorted ≡ₚ take (Z.to_nat n) colour ∧
    drop (Z.to_nat n) sorted = drop (Z.to_nat n) colour ∧
    ∀ k l x y, 0 ≤ k → k ≤ l < n →
      arr_get sorted k = Some x → arr_get sorted l = Some y → x ≤ y.
Proof.
  intros Hn. unfold ascending_sort.
  destruct (for_range_total (sort_inv colour n) 0 n
    (λ i, for_range (i + 1) n (λ j colour,
      cj ← arr_get colour j; ci ← arr_get colour i;
      if cj <? ci then
        let temp := ci in colour ← arr_set colour i cj; arr_set colour j temp
      else Some colour)) colour) as (sorted & Hrun & Hlen & Hperm & Hdrop & Hord).
  - lia.
  - split; [done|]. split; [done|]. split; [done|]. intros k l x y Hk. lia.
  - intros i a Hi Hinv.
    destruct (for_range_total (sort_inner_inv colour n i) (i + 1) n
      (λ j colour,
        cj ← arr_get colour j; ci ← arr_get colour i;
        if cj <? ci then
          let temp := ci in colour ← arr_set colour i cj; arr_set colour j temp
        else Some colour) a) as (a' & Hrow & Hinv' & Hmin).
    + lia.
    + split; [done|]. intros l x y Hl. lia.
    + intros j b Hj Hb. apply sort_inner_step; [lia | lia | lia | done].
    + exists a'. split; [done|].
      destruct Hinv' as (Hlen & Hperm & Hdrop & Hord).
      split; [done|]. split; [done|]. split; [done|].
      intros k l x y Hk Hl Hx Hy.
      destruct (decide (k = i)) as [->|Hne].
      * destruct (decide (l = i)) as [->|Hne'].
        -- assert (x = y) by congruence. lia.
        -- apply (Hmin l x y); [lia | done | done].
      * apply (Hord k l x y); [lia | done | done | done].
  - exists sorted. split; [done|]. split; [done|]. split; [|split; [done|]].
    + apply (Permutation_app_inv_r (drop (Z.to_nat n) colour)).
      rewrite <- Hdrop at 1. by rewrite !take_drop.
    + intros k l x y Hk Hl. apply Hord; lia.
Qed.

(** X2: [ascending_sort] on the first [n] cells of an array completes,
    leaves those cells in ascending order, rearranges them without losing
    or inventing a value, and leaves the cells from [n] on untouched. *)
Theorem ascending_sort_sorts (colour : list Z) (n : Z) :
  0 ≤ n ≤ Z.of_nat (length colour) →
  ∃ sorted,
    ascending_sort colour n = Some sorted ∧
    length sorted = length colour ∧
    take (Z.to_nat n) sorted ≡ₚ take (Z.to_nat n) colour ∧
    drop (Z.to_nat n) sorted = drop (Z.to_nat n) colour ∧
    ∀ k l x y, 0 ≤ k → k ≤ l < n →
      arr_get sorted k = Some x → arr_get sorted l = Some y → x ≤ y.
Proof. apply ascending_sort_spec. Qed.

Lemma ascending_sort_sorts_witness :
  0 ≤ 5 ≤ Z.of_nat (length [5; 3; 9; 1; 7; 0; 0]) ∧
  ∃ sorted,
    ascending_sort [5; 3; 9; 1; 7; 0; 0] 5 = Some sorted ∧
    length sorted = length [5; 3; 9; 1; 7; 0; 0] ∧
    take (Z.to_nat 5) sorted ≡ₚ take (Z.to_nat 5) [5; 3; 9; 1; 7; 0; 0] ∧
    drop (Z.to_nat 5) sorted = drop (Z.to_nat 5) [5; 3; 9; 1; 7; 0; 0] ∧
    ∀ k l x y, 0 ≤ k → k ≤ l < 5 →
      arr_get sorted k = Some x → arr_get sorted l = Some y → x ≤ y.
Proof.
  split; [simpl; lia|].
  apply (ascending_sort_sorts [5; 3; 9; 1; 7; 0; 0] 5). simpl. lia.
Defined.

(** ** Median filter *)

Lemma collect_from_window original_pixels height width kernel_size offset y x s :
  collect original_pixels height width kernel_size offset y x = Some s →
  samples_from original_pixels offset y x s.
Proof.
  unfold collect.
  apply (for_yx_partial _ _ _ _ _ (samples_from original_pixels offset y x)).
  - split; [done|]. simpl. lia.
  - intros ky kx t t' Hky Hkx [Hi Ht]. cbv zeta. case_bool_decide; cycle 1.
    { by intros [= <-]. }
    destruct (get_at original_pixels _ _) as [pixel|] eqn:Hp; [|done]. simpl.
    destruct (arr_set (Red t) _ _) as [red|] eqn:Hr; [|done]. simpl.
    destruct (arr_set (Green t) _ _) as [green|] eqn:Hg; [|done]. simpl.
    destruct (arr_set (Blue t) _ _) as [blue|] eqn:Hb; [|done]. simpl.
    intros [= <-]. simpl.
    apply arr_set_Some in Hr as [Hir ->].
    apply arr_set_Some in Hg as [Hig ->].
    apply arr_set_Some in Hb as [Hib ->].
    split; simpl; [lia|]. intros i Hir'.
    rewrite !arr_get_insert by done.
    case_bool_decide.
    + exists pixel. split; [|done]. exists (y + ky), (x + kx).
      split; [lia|]. split; [lia | done].
    + apply Ht. lia.
Qed.

(** The cell picked from a sorted buffer is one of the cells that were
    sorted. *)
Lemma sorted_cell_from_prefix (colour sorted : list Z) (n k v : Z) :
  0 ≤ n ≤ Z.of_nat (length colour) →
  ascending_sort colour n = Some sorted →
  0 ≤ k < n → arr_get sorted k = Some v →
  ∃ i, 0 ≤ i < n ∧ arr_get colour i = Some v.
Proof.
  intros Hn Hrun Hk Hv.
  destruct (ascending_sort_spec colour n Hn) as (sorted' & Hrun' & Hlen & Hperm & _).
  assert (sorted' = sorted) as -> by congruence.
  apply arr_get_Some in Hv as [_ Hv].
  assert (v ∈ take (Z.to_nat n) sorted) as Hin.
  { apply list_elem_of_lookup. exists (Z.to_nat k).
    rewrite lookup_take_lt by lia. done. }
  rewrite Hperm in Hin. apply list_elem_of_lookup in Hin as [i Hi].
  pose proof (lookup_lt_Some _ _ _ Hi) as Hlt. rewrite length_take in Hlt.
  rewrite lookup_take_lt in Hi by lia.
  exists (Z.of_nat i). split; [lia|].
  apply arr_get_Some. rewrite Nat2Z.id. split; [lia | done].
Qed.

Lemma samples_from_length g offset y x s :
  samples_from g offset y x s →
  index s ≤ Z.of_nat (length (Red s)) ∧
  index s ≤ Z.of_nat (length (Green s)) ∧
  index s ≤ Z.of_nat (length (Blue s)).
Proof.
  intros [Hi Hs].
  destruct (decide (index s = 0)) as [->|Hne]; [lia|].
  destruct (Hs (index s - 1)) as (q & _ & Hr & Hg & Hb); [lia|].
  apply arr_get_range in Hr, Hg, Hb. lia.
Qed.

(** Every channel of the value stored at [(y, x)] is that channel of a
    pixel of the window. *)
Lemma median_value_from_window original_pixels height width kernel_size offset
    y x c v :
  (∀ y' x' q, get_at original_pixels y' x' = Some q → byte_pixel q) →
  0 ≤ offset →
  get_at original_pixels y x = Some c →
  median_value original_pixels height width kernel_size offset y x (Some c) = Some v →
  ∃ qr qg qb,
    in_window original_pixels offset y x qr ∧
    in_window original_pixels offset y x qg ∧
    in_window original_pixels offset y x qb ∧
    R v = R qr ∧ G v = G qg ∧ B v = B qb.
Proof.
  intros Hbytes Hoff Hc. unfold median_value.
  destruct (collect _ _ _ _ _ _ _) as [s|] eqn:Hcol; [|done]. simpl.
  apply collect_from_window in Hcol.
  pose proof (samples_from_length _ _ _ _ _ Hcol) as (Hlr & Hlg & Hlb).
  destruct Hcol as [Hi Hs].
  destruct (ascending_sort (Red s) _) as [red|] eqn:Hr; [|done]. simpl.
  destruct (ascending_sort (Green s) _) as [green|] eqn:Hg; [|done]. simpl.
  destruct (ascending_sort (Blue s) _) as [blue|] eqn:Hb; [|done]. simpl.
  destruct (0 <? index s) eqn:Hpos; cycle 1.
  { intros [= <-]. exists c, c, c.
    assert (in_window original_pixels offset y x c) as Hw.
    { exists y, x. split; [lia|]. split; [lia | done]. }
    done. }
  apply Z.ltb_lt in Hpos. pose proof (half_in_range _ Hpos) as Hhalf.
  destruct (arr_get red _) as [r|] eqn:Hgr; [|done]. simpl.
  destruct (arr_get green _) as [g|] eqn:Hgg; [|done]. simpl.
  destruct (arr_get blue _) as [b|] eqn:Hgb; [|done]. simpl.
  intros [= <-]. simpl.
  destruct (sorted_cell_from_prefix (Red s) _ (index s) _ _ ltac:(lia) Hr Hhalf Hgr) as (ir & Hir & Hvr).
  destruct (sorted_cell_from_prefix (Green s) _ (index s) _ _ ltac:(lia) Hg Hhalf Hgg) as (ig & Hig & Hvg).
  destruct (sorted_cell_from_prefix (Blue s) _ (index s) _ _ ltac:(lia) Hb Hhalf Hgb) as (ib & Hib & Hvb).
  destruct (Hs ir Hir) as (qr & Hwr & Hqr & _ & _).
  destruct (Hs ig Hig) as (qg & Hwg & _ & Hqg & _).
  destruct (Hs ib Hib) as (qb & Hwb & _ & _ & Hqb).
  exists qr, qg, qb. repeat (split; [done|]).
  assert (byte_pixel qr ∧ byte_pixel qg ∧ byte_pixel qb) as (Hbr & Hbg & Hbb).
  { destruct Hwr as (? & ? & _ & _ & ?), Hwg as (? & ? & _ & _ & ?),
      Hwb as (? & ? & _ & _ & ?).
    split; [|split]; eauto. }
  assert (r = R qr) as -> by congruence.
  assert (g = G qg) as -> by congruence.
  assert (b = B qb) as -> by congruence.
  destruct Hbr as (? & _ & _), Hbg as (_ & ? & _), Hbb as (_ & _ & ?).
  by rewrite !to_byte_id.
Qed.

(** The strengths that are not 1 modulo 4 give an odd kernel size. *)
Lemma kernel_size_odd s : 0 ≤ s → s mod 4 ≠ 1 → Z.odd (kernel_size s) = true.
Proof.
  intros Hs Hm. unfold kernel_size, adjusted_strength.
  rewrite rem_2_odd by lia.
  destruct (Z.odd s) eqn:Hodd.
  - apply Z.odd_spec in Hodd as [m ->].
    rewrite Z.quot_div_nonneg by lia.
    apply Z.odd_spec. exists ((m + 1) / 2 + 1).
    Z.div_mod_to_equations. lia.
  - rewrite <- Z.negb_even in Hodd. apply negb_false_iff in Hodd.
    apply Z.even_spec in Hodd as [m ->]. apply Z.odd_spec. exists (m + 1). lia.
Qed.

Lemma byte_image_Forall image :
  Forall (Forall byte_pixel) (pixels image) → byte_image image.
Proof.
  intros Hall y x p (row & Hrow & Hp)%get_at_Some.
  apply arr_get_Some in Hrow as [_ Hrow]. apply arr_get_Some in Hp as [_ Hp].
  rewrite Forall_lookup in Hall. specialize (Hall _ _ Hrow).
  rewrite Forall_lookup in Hall. by eapply Hall.
Qed.

(** X3: for every strength in [1, 100] that is not 1 modulo 4 the median
    filter completes on every image of bytes and keeps its dimensions, and
    every channel of every output pixel is the value of that channel at
    some pixel of the input not further than [offset] rows and columns
    away: the filter never invents a value. *)
Theorem noise_reduction_picks_window_values (image : ImageDetails) (s : Z) :
  wf_image image → byte_image image → 1 ≤ s ≤ 100 → s mod 4 ≠ 1 →
  ∃ r, applyNoiseReduction image s = Some r ∧ same_dims image r ∧
    ∀ y x, 0 ≤ y < height image → 0 ≤ x < width image →
      ∃ p qr qg qb,
        get_at (pixels r) y x = Some p ∧
        in_window (pixels image) (noise_offset s) y x qr ∧
        in_window (pixels image) (noise_offset s) y x qg ∧
        in_window (pixels image) (noise_offset s) y x qb ∧
        R p = R qr ∧ G p = G qg ∧ B p = B qb.
Proof.
  intros Hwf Hbytes Hs Hm. pose proof Hwf as (_ & _ & Hsh).
  destruct (applyNoiseReduction_defined image s Hwf) as [r Hrun];
    [lia | apply kernel_size_odd; [lia | done] |].
  destruct (applyNoiseReduction_partial _ _ _ Hwf Hrun) as [Hd Hget].
  exists r. split; [done|]. split; [done|].
  intros y x Hy Hx.
  destruct (get_at_in_range _ _ _ y x Hsh) as [c Hc]; [done..|].
  destruct Hd as (_ & _ & Hsr).
  destruct (get_at_in_range _ _ _ y x Hsr) as [p Hp]; [done..|].
  pose proof Hp as Hp'. rewrite Hget, Hc in Hp' by done.
  apply median_value_from_window in Hp'
    as (qr & qg & qb & ? & ? & ? & ? & ? & ?); [| done | | done].
  - exists p, qr, qg, qb. done.
  - unfold noise_offset, kernel_size, adjusted_strength.
    case_match; [|apply Z.quot_pos; lia].
    apply Z.quot_pos; [|lia].
    assert (0 ≤ (s + 1) ÷ 2) by (apply Z.quot_pos; lia). lia.
Qed.

Lemma noise_reduction_picks_window_values_witness :
  wf_image sample_image ∧ byte_image sample_image ∧ 1 ≤ 2 ≤ 100 ∧ 2 mod 4 ≠ 1 ∧
  ∃ r, applyNoiseReduction sample_image 2 = Some r ∧ same_dims sample_image r ∧
    ∀ y x, 0 ≤ y < height sample_image → 0 ≤ x < width sample_image →
      ∃ p qr qg qb,
        get_at (pixels r) y x = Some p ∧
        in_window (pixels sample_image) (noise_offset 2) y x qr ∧
        in_window (pixels sample_image) (noise_offset 2) y x qg ∧
        in_window (pixels sample_image) (noise_offset 2) y x qb ∧
        R p = R qr ∧ G p = G qg ∧ B p = B qb.
Proof.
  assert (wf_image sample_image) as Hwf.
  { unfold wf_image, shape. simpl.
    split; [lia|]. split; [lia|]. split; [reflexivity|]. repeat constructor. }
  assert (byte_image sample_image) as Hb.
  { apply byte_image_Forall. repeat constructor; simpl; lia. }
  split; [exact Hwf|]. split; [exact Hb|]. split; [lia|].
  split; [vm_compute; discriminate|].
  apply (noise_reduction_picks_window_values sample_image 2 Hwf Hb);
    [lia | vm_compute; discriminate].
Defined.

(** X4: for every strength in [1, 100] that is not 1 modulo 4, the median
    filter returns an image of a single colour unchanged. *)
Theorem noise_reduction_uniform_unchanged (image : ImageDetails) (c : Pixeldata)
    (s : Z) :
  wf_image image → uniform_grid (pixels image) c → byte_pixel c →
  1 ≤ s ≤ 100 → s mod 4 ≠ 1 →
  applyNoiseReduction image s = Some image.
Proof.
  intros Hwf Hu Hc Hs Hm.
  destruct (applyNoiseReduction_defined image s Hwf) as [r Hrun];
    [lia | apply kernel_size_odd; [lia | done] |].
  rewrite Hrun. f_equal. by eapply applyNoiseReduction_uniform.
Qed.

Lemma noise_reduction_uniform_unchanged_witness :
  wf_image (uniform_image 5 5 (mkPixel 1 2 3)) ∧
  uniform_grid (pixels (uniform_image 5 5 (mkPixel 1 2 3))) (mkPixel 1 2 3) ∧
  byte_pixel (mkPixel 1 2 3) ∧ 1 ≤ 3 ≤ 100 ∧ 3 mod 4 ≠ 1 ∧
  applyNoiseReduction (uniform_image 5 5 (mkPixel 1 2 3)) 3
  = Some (uniform_image 5 5 (mkPixel 1 2 3)).
Proof.
  assert (wf_image (uniform_image 5 5 (mkPixel 1 2 3))) as Hwf.
  { unfold wf_image, shape. simpl.
    split; [lia|]. split; [lia|]. split; [reflexivity|]. repeat constructor. }
  assert (uniform_grid (pixels (uniform_image 5 5 (mkPixel 1 2 3))) (mkPixel 1 2 3))
    as Hu by apply uniform_image_uniform.
  assert (byte_pixel (mkPixel 1 2 3)) as Hc by (unfold byte_pixel; simpl; lia).
  split; [exact Hwf|]. split; [exact Hu|]. split; [exact Hc|]. split; [lia|].
  split; [vm_compute; discriminate|].
  apply (noise_reduction_uniform_unchanged _ _ 3 Hwf Hu Hc);
    [lia | vm_compute; discriminate].
Defined.

(** ** The frame of the convolution filters *)

Lemma blur_frame image :
  wf_image image →
  ∃ r, applyGaussianBlur image = Some r ∧ same_dims image r ∧
    ∀ y x, ¬ (1 ≤ y < height image - 1 ∧ 1 ≤ x < width image - 1) →
      get_at (pixels r) y x = get_at (pixels image) y x.
Proof.
  intros Hwf. destruct (applyGaussianBlur_spec image Hwf) as (r & Hr & Hd & Hget).
  exists r. split; [done|]. split; [done|].
  intros y x Hn. rewrite Hget. by rewrite bool_decide_eq_false_2.
Qed.

Lemma blur_passes_frame image n :
  wf_image image →
  ∃ r, for_range 0 n (λ _ image, applyGaussianBlur image) image = Some r ∧
    same_dims image r ∧
    ∀ y x, ¬ (1 ≤ y < height image - 1 ∧ 1 ≤ x < width image - 1) →
      get_at (pixels r) y x = get_at (pixels image) y x.
Proof.
  intros Hwf. destruct (decide (n ≤ 0)) as [Hn|Hn].
  { rewrite for_range_empty by done. exists image.
    split; [done|]. split; [by apply same_dims_refl | done]. }
  apply (for_range_total (λ _ t, same_dims image t ∧
    ∀ y x, ¬ (1 ≤ y < height image - 1 ∧ 1 ≤ x < width image - 1) →
      get_at (pixels t) y x = get_at (pixels image) y x)); [lia | |].
  - split; [by apply same_dims_refl | done].
  - intros j t Hj [Hd Hfr].
    pose proof (same_dims_wf _ _ Hwf Hd) as Hwt.
    destruct (blur_frame t Hwt) as (t' & Ht' & Hd' & Hfr').
    exists t'. split; [done|]. split; [by eapply same_dims_trans|].
    intros y x Hyx. rewrite Hfr'; [by apply Hfr|].
    destruct Hd as (-> & -> & _). done.
Qed.

Lemma for_loop_blur_passes n i image :
  for_loop n i (λ _ image, applyGaussianBlur image) image = blur_passes n image.
Proof.
  revert i image. induction n as [|n IH]; intros i image; [done|].
  cbn [for_loop blur_passes].
  destruct (applyGaussianBlur image) as [r|]; [|done].
  cbn [mbind option_bind]. apply IH.
Qed.

(** X5: the blur entry of [selectFilter] runs [filter_strength] passes of
    the blur, each on the result of the one before (none for a strength
    below 1); on every image it completes, keeps the dimensions and leaves
    every pixel of the one-pixel border ring as it was, whatever the
    number of passes. *)
Theorem blur_passes_keep_border (image : ImageDetails)
    (filter_strength new_size : Z) :
  wf_image image →
  ∃ r, selectFilter 4 filter_strength new_size image = Some r ∧
    blur_passes (Z.to_nat filter_strength) image = Some r ∧
    same_dims image r ∧
    ∀ y x, on_border (height image) (width image) y x →
      get_at (pixels r) y x = get_at (pixels image) y x.
Proof.
  intros Hwf.
  destruct (blur_passes_frame image filter_strength Hwf) as (r & Hr & Hd & Hfr).
  exists r. split; [exact Hr|]. split.
  { rewrite <- Hr. unfold for_range. rewrite Z.sub_0_r.
    symmetry. apply for_loop_blur_passes. }
  split; [done|].
  intros y x (_ & _ & Hn). by apply Hfr.
Qed.

Lemma blur_passes_keep_border_witness :
  wf_image sample_image ∧
  ∃ r, selectFilter 4 7 0 sample_image = Some r ∧
    blur_passes (Z.to_nat 7) sample_image = Some r ∧
    same_dims sample_image r ∧
    ∀ y x, on_border (height sample_image) (width sample_image) y x →
      get_at (pixels r) y x = get_at (pixels sample_image) y x.
Proof.
  assert (wf_image sample_image) as Hwf.
  { unfold wf_image, shape. simpl.
    split; [lia|]. split; [lia|]. split; [reflexivity|]. repeat constructor. }
  split; [exact Hwf|]. apply (blur_passes_keep_border sample_image 7 0 Hwf).
Defined.

Lemma sharpen_channel_same c s : 0 ≤ c ≤ 255 → sharpen_channel c c s = c.
Proof.
  intros Hc. unfold sharpen_channel. rewrite Z.sub_diag. cbn [Z.modulo].
  change (0 mod 256) with 0. rewrite Z.mul_0_l.
  change (clamp 0 0 255) with 0. rewrite Z.add_0_r. by apply clamp_id.
Qed.

Lemma sharpen_pixel_same p s : byte_pixel p → sharpen_pixel p p s = p.
Proof.
  intros (Hr & Hg & Hb). destruct p as [b g r]. unfold sharpen_pixel. simpl in *.
  by rewrite !sharpen_channel_same.
Qed.

(** X6: on an image of bytes and for a strength in [1, 100] the sharpening
    filter completes, keeps the dimensions and leaves every pixel of the
    one-pixel border ring as it was: there the blurred copy equals the
    original and the mask is zero. *)
Theorem sharpen_keeps_border (image : ImageDetails) (filter_strength : Z) :
  wf_image image → byte_image image → 1 ≤ filter_strength ≤ 100 →
  ∃ r, applySharpen image filter_strength = Some r ∧
    same_dims image r ∧
    ∀ y x, on_border (height image) (width image) y x →
      get_at (pixels r) y x = get_at (pixels image) y x.
Proof.
  intros Hwf Hbytes Hs.
  destruct (applySharpen_spec image filter_strength Hwf Hs)
    as (blurred & r & Hblur & Hr & Hd & Hget).
  destruct (blur_frame image Hwf) as (blurred' & Hblur' & _ & Hfr).
  assert (blurred' = blurred) as -> by congruence.
  exists r. split; [done|]. split; [done|].
  intros y x (Hy & Hx & Hn). rewrite Hget, (Hfr y x Hn).
  destruct (get_at (pixels image) y x) as [p|] eqn:Hp; [|done]. simpl.
  f_equal. apply sharpen_pixel_same. by eapply Hbytes.
Qed.

Lemma sharpen_keeps_border_witness :
  wf_image sample_image ∧ byte_image sample_image ∧ 1 ≤ 40 ≤ 100 ∧
  ∃ r, applySharpen sample_image 40 = Some r ∧
    same_dims sample_image r ∧
    ∀ y x, on_border (height sample_image) (width sample_image) y x →
      get_at (pixels r) y x = get_at (pixels sample_image) y x.
Proof.
  assert (wf_image sample_image) as Hwf.
  { unfold wf_image, shape. simpl.
    split; [lia|]. split; [lia|]. split; [reflexivity|]. repeat constructor. }
  assert (byte_image sample_image) as Hb.
  { apply byte_image_Forall. repeat constructor; simpl; lia. }
  split; [exact Hwf|]. split; [exact Hb|]. split; [lia|].
  apply (sharpen_keeps_border sample_image 40 Hwf Hb). lia.
Defined.

(** ** Edge detection *)

Lemma edge_pixel_gray (temp_pixels : grid Pixeldata) y x p :
  edge_pixel temp_pixels y x = Some p →
  ∃ m, 0 ≤ m ≤ 255 ∧ p = mkPixel m m m.
Proof.
  unfold edge_pixel. destruct (sobel_sums _ _ _) as [[gx gy]|]; [|done]. simpl.
  set (m0 := F64.round_to_int _). intros [= <-].
  set (m1 := if m0 >? 255 then 255 else m0).
  set (m2 := if m1 <? 0 then 0 else m1).
  assert (0 ≤ m2 ≤ 255) as Hm.
  { subst m2 m1. rewrite Z.gtb_ltb.
    destruct (255 <? m0) eqn:H1.
    - simpl. lia.
    - apply Z.ltb_ge in H1. destruct (m0 <? 0) eqn:H2; [lia|].
      apply Z.ltb_ge in H2. lia. }
  exists m2. split; [done|]. by rewrite to_byte_id.
Qed.

(** X7: edge detection completes on every image, keeps the dimensions,
    leaves the one-pixel border ring as it was and writes at every other
    pixel a gray value: three equal channels in [0, 255]. *)
Theorem edge_detection_gray_inside (image : ImageDetails) :
  wf_image image →
  ∃ r, applyEdgeDetection image = Some r ∧
    same_dims image r ∧
    (∀ y x, on_border (height image) (width image) y x →
       get_at (pixels r) y x = get_at (pixels image) y x) ∧
    (∀ y x, 1 ≤ y < height image - 1 → 1 ≤ x < width image - 1 →
       ∃ m, 0 ≤ m ≤ 255 ∧ get_at (pixels r) y x = Some (mkPixel m m m)).
Proof.
  intros Hwf.
  destruct (applyEdgeDetection_spec image Hwf) as (gray & r & Hgray & Hr & Hd & Hget).
  destruct (applyGrayscale_spec image Hwf) as (gray' & Hgray' & (_ & _ & Hsg) & _).
  assert (gray' = gray) as -> by congruence.
  exists r. split; [done|]. split; [done|]. split.
  - intros y x (_ & _ & Hn). rewrite Hget. by rewrite bool_decide_eq_false_2.
  - intros y x Hy Hx. rewrite Hget, bool_decide_eq_true_2 by done.
    destruct (edge_pixel_defined _ _ _ y x Hsg Hy Hx) as [p Hp].
    rewrite Hp. apply edge_pixel_gray in Hp as (m & Hm & ->). by exists m.
Qed.

Lemma edge_detection_gray_inside_witness :
  wf_image sample_image ∧
  ∃ r, applyEdgeDetection sample_image = Some r ∧
    same_dims sample_image r ∧
    (∀ y x, on_border (height sample_image) (width sample_image) y x →
       get_at (pixels r) y x = get_at (pixels sample_image) y x) ∧
    (∀ y x, 1 ≤ y < height sample_image - 1 → 1 ≤ x < width sample_image - 1 →
       ∃ m, 0 ≤ m ≤ 255 ∧ get_at (pixels r) y x = Some (mkPixel m m m)).
Proof.
  assert (wf_image sample_image) as Hwf.
  { unfold wf_image, shape. simpl.
    split; [lia|]. split; [lia|]. split; [reflexivity|]. repeat constructor. }
  split; [exact Hwf|]. apply (edge_detection_gray_inside sample_image Hwf).
Defined.

(** ** Flat neighbourhoods *)

Lemma for_loop_ext {St : Type} (n : nat) (i : Z) (body body' : Z → St → option St) s :
  (∀ j t, i ≤ j < i + Z.of_nat n → body j t = body' j t) →
  for_loop n i body s = for_loop n i body' s.
Proof.
  revert i s. induction n as [|n IH]; intros i s Hb; [done|].
  cbn [for_loop]. rewrite Hb by lia.
  destruct (body' i s) as [s'|]; [|done]. cbn [mbind option_bind].
  apply IH. intros j t Hj. apply Hb. lia.
Qed.

Lemma for_range_ext {St : Type} (lo hi : Z) (body body' : Z → St → option St) s :
  (∀ j t, lo ≤ j < hi → body j t = body' j t) →
  for_range lo hi body s = for_range lo hi body' s.
Proof. intros Hb. apply for_loop_ext. intros j t Hj. apply Hb. lia. Qed.

Lemma for_yx_ext {St : Type} (y0 y1 x0 x1 : Z)
    (body body' : Z → Z → St → option St) s :
  (∀ y x t, y0 ≤ y < y1 → x0 ≤ x < x1 → body y x t = body' y x t) →
  for_yx y0 y1 x0 x1 body s = for_yx y0 y1 x0 x1 body' s.
Proof.
  intros Hb. apply for_range_ext. intros y t Hy.
  apply for_range_ext. intros x t' Hx. by apply Hb.
Qed.

Lemma blur_sums_flat (g : grid Pixeldata) y x c :
  flat_around g y x c →
  blur_sums g 1 y x = Some (flat_sum (R c), flat_sum (G c), flat_sum (B c)).
Proof.
  intros Hflat. unfold blur_sums.
  rewrite (for_yx_ext _ _ _ _ _ (λ ky kx sums,
    let '(sumR, sumG, sumB) := sums in
    weight ← get_at GAUSSIAN_KERNEL (ky + 1) (kx + 1);
    Some (F32.add sumR (F32.mul (F32.of_int (R c)) weight),
          F32.add sumG (F32.mul (F32.of_int (G c)) weight),
          F32.add sumB (F32.mul (F32.of_int (B c)) weight)))).
  - destruct c as [b g' r].
    cbv -[F32.add F32.mul F32.of_int F32.div]. reflexivity.
  - intros ky kx [[sumR sumG] sumB] Hky Hkx.
    rewrite Hflat by lia.
    by destruct (get_at GAUSSIAN_KERNEL _ _).
Qed.

Lemma flat_sum_table :
  forallb (λ v, blur_store (flat_sum v) =? v) (seqZ 0 256) = true.
Proof. vm_compute. reflexivity. Qed.

Lemma blur_store_flat v : 0 ≤ v ≤ 255 → blur_store (flat_sum v) = v.
Proof.
  intros Hv. pose proof flat_sum_table as Ht.
  rewrite forallb_forall in Ht.
  assert (In v (seqZ 0 256)) as Hin.
  { apply list_elem_of_In, elem_of_seqZ. lia. }
  specialize (Ht v Hin). cbv beta in Ht. by apply Z.eqb_eq in Ht.
Qed.

Lemma blur_pixel_flat (g : grid Pixeldata) y x c :
  flat_around g y x c → byte_pixel c → blur_pixel g 1 y x = Some c.
Proof.
  intros Hflat (Hr & Hg & Hb). unfold blur_pixel.
  rewrite (blur_sums_flat _ _ _ _ Hflat). cbn [mbind option_bind].
  rewrite !blur_store_flat by done. by destruct c.
Qed.

Lemma flat_around_centre (g : grid Pixeldata) y x c :
  flat_around g y x c → get_at g y x = Some c.
Proof.
  intros Hflat. specialize (Hflat 0 0 ltac:(lia) ltac:(lia)).
  by rewrite !Z.add_0_r in Hflat.
Qed.

Lemma flat_around_interior (g : grid Pixeldata) h w y x c :
  shape g h w → flat_around g y x c → 1 ≤ y < h - 1 ∧ 1 ≤ x < w - 1.
Proof.
  intros Hs Hflat.
  pose proof (Hflat (-1) (-1) ltac:(lia) ltac:(lia)) as H1.
  pose proof (Hflat 1 1 ltac:(lia) ltac:(lia)) as H2.
  apply (get_at_range _ h w) in H1, H2; [lia | done..].
Qed.

(** X8: where the 3 x 3 neighbourhood of a pixel holds a single colour of
    bytes, the blur leaves the pixel at that colour: the nine weights sum
    to one without rounding error on the 256 byte values. *)
Theorem blur_keeps_flat_neighbourhood (image : ImageDetails) (y x : Z)
    (c : Pixeldata) :
  wf_image image → flat_around (pixels image) y x c → byte_pixel c →
  ∃ r, applyGaussianBlur image = Some r ∧ get_at (pixels r) y x = Some c.
Proof.
  intros Hwf Hflat Hc.
  destruct (applyGaussianBlur_spec image Hwf) as (r & Hr & _ & Hget).
  exists r. split; [done|]. rewrite Hget.
  case_bool_decide; [by apply blur_pixel_flat | by apply flat_around_centre].
Qed.

Lemma blur_keeps_flat_neighbourhood_witness :
  wf_image five_by_five ∧
  flat_around (pixels five_by_five) 2 2 (mkPixel 1 2 3) ∧
  byte_pixel (mkPixel 1 2 3) ∧
  ∃ r, applyGaussianBlur five_by_five = Some r ∧
       get_at (pixels r) 2 2 = Some (mkPixel 1 2 3).
Proof.
  assert (wf_image five_by_five) as Hwf.
  { unfold wf_image, shape. simpl.
    split; [lia|]. split; [lia|]. split; [reflexivity|]. repeat constructor. }
  assert (flat_around (pixels five_by_five) 2 2 (mkPixel 1 2 3)) as Hflat.
  { intros ky kx Hky Hkx.
    assert (ky = -1 ∨ ky = 0 ∨ ky = 1) as [->|[->| ->]] by lia;
      assert (kx = -1 ∨ kx = 0 ∨ kx = 1) as [->|[->| ->]] by lia;
      reflexivity. }
  assert (byte_pixel (mkPixel 1 2 3)) as Hc by (unfold byte_pixel; simpl; lia).
  split; [exact Hwf|]. split; [exact Hflat|]. split; [exact Hc|].
  apply (blur_keeps_flat_neighbourhood five_by_five 2 2 _ Hwf Hflat Hc).
Defined.

Lemma sobel_loop (add' mul' : Z → Z → Z) (v : Z) :
  for_yx 0 3 0 3 (λ ky kx acc,
    let '(gx, gy) := acc in
    wx ← get_at Gx ky kx;
    wy ← get_at Gy ky kx;
    Some (add' gx (mul' v wx), add' gy (mul' v wy))) (0, 0)
  = Some (foldl (λ a w, add' a (mul' v w)) 0 (concat Gx),
          foldl (λ a w, add' a (mul' v w)) 0 (concat Gy)).
Proof. vm_compute. reflexivity. Qed.

Lemma sobel_sums_flat (g : grid Pixeldata) y x v :
  (∀ ky kx, -1 ≤ ky ≤ 1 → -1 ≤ kx ≤ 1 →
     ∃ p, get_at g (y + ky) (x + kx) = Some p ∧ R p = v) →
  sobel_sums g y x = Some (0, 0).
Proof.
  intros Hflat. unfold sobel_sums.
  rewrite (for_yx_ext _ _ _ _ _ (λ ky kx acc,
    let '(gx, gy) := acc in
    wx ← get_at Gx ky kx;
    wy ← get_at Gy ky kx;
    Some (gx + v * wx, gy + v * wy))).
  - rewrite (sobel_loop Z.add Z.mul v).
    cbn [foldl concat Gx Gy app]. f_equal. f_equal; lia.
  - intros ky kx [gx gy] Hky Hkx.
    destruct (Hflat (ky - 1) (kx - 1) ltac:(lia) ltac:(lia)) as (p & Hp & Hv).
    replace (y + ky - 1) with (y + (ky - 1)) by lia.
    replace (x + kx - 1) with (x + (kx - 1)) by lia.
    rewrite Hp. cbn [mbind option_bind]. by rewrite Hv.
Qed.

(** X9: where the 3 x 3 neighbourhood of a pixel holds a single colour,
    edge detection writes black: both gradients are zero. *)
Theorem edge_detection_flat_is_black (image : ImageDetails) (y x : Z)
    (c : Pixeldata) :
  wf_image image → flat_around (pixels image) y x c →
  ∃ r, applyEdgeDetection image = Some r ∧
       get_at (pixels r) y x = Some (mkPixel 0 0 0).
Proof.
  intros Hwf Hflat. pose proof Hwf as (_ & _ & Hsh).
  destruct (applyEdgeDetection_spec image Hwf) as (gray & r & Hgray & Hr & _ & Hget).
  destruct (applyGrayscale_spec image Hwf) as (gray' & Hgray' & _ & Hgg).
  assert (gray' = gray) as -> by congruence.
  exists r. split; [done|]. rewrite Hget.
  rewrite bool_decide_eq_true_2 by (by eapply flat_around_interior).
  unfold edge_pixel.
  rewrite (sobel_sums_flat _ _ _ (R (grayscale_pixel c))).
  - vm_compute. reflexivity.
  - intros ky kx Hky Hkx. exists (grayscale_pixel c).
    by rewrite Hgg, (Hflat ky kx).
Qed.

Lemma edge_detection_flat_is_black_witness :
  wf_image five_by_five ∧
  flat_around (pixels five_by_five) 2 2 (mkPixel 1 2 3) ∧
  ∃ r, applyEdgeDetection five_by_five = Some r ∧
       get_at (pixels r) 2 2 = Some (mkPixel 0 0 0).
Proof.
  assert (wf_image five_by_five) as Hwf.
  { unfold wf_image, shape. simpl.
    split; [lia|]. split; [lia|]. split; [reflexivity|]. repeat constructor. }
  assert (flat_around (pixels five_by_five) 2 2 (mkPixel 1 2 3)) as Hflat.
  { intros ky kx Hky Hkx.
    assert (ky = -1 ∨ ky = 0 ∨ ky = 1) as [->|[->| ->]] by lia;
      assert (kx = -1 ∨ kx = 0 ∨ kx = 1) as [->|[->| ->]] by lia;
      reflexivity. }
  split; [exact Hwf|]. split; [exact Hflat|].
  apply (edge_detection_flat_is_black five_by_five 2 2 _ Hwf Hflat).
Defined.

Lemma blur_fixes_uniform image c :
  wf_image image → uniform_grid (pixels image) c → byte_pixel c →
  applyGaussianBlur image = Some image.
Proof.
  intros Hwf Hu Hc. pose proof Hwf as (_ & _ & Hsh).
  destruct (applyGaussianBlur_spec image Hwf) as (r & Hr & Hd & Hget).
  rewrite Hr. f_equal. apply image_ext; [done..|].
  intros y x Hy Hx. rewrite Hget. case_bool_decide as Hin; [|done].
  destruct (get_at_in_range _ _ _ y x Hsh) as [p Hp]; [done..|].
  rewrite Hp, (Hu _ _ _ Hp). apply blur_pixel_flat; [|done].
  intros ky kx Hky Hkx.
  destruct (get_at_in_range _ _ _ (y + ky) (x + kx) Hsh) as [q Hq]; [lia..|].
  by rewrite Hq, (Hu _ _ _ Hq).
Qed.

(** X10: any number of passes of the blur, as [selectFilter] runs them,
    returns an image of a single colour of bytes unchanged. *)
Theorem blur_passes_fix_uniform (image : ImageDetails) (c : Pixeldata)
    (filter_strength new_size : Z) :
  wf_image image → uniform_grid (pixels image) c → byte_pixel c →
  selectFilter 4 filter_strength new_size image = Some image.
Proof.
  intros Hwf Hu Hc. cbn [selectFilter].
  destruct (decide (filter_strength ≤ 0)) as [Hn|Hn].
  { by rewrite for_range_empty. }
  destruct (for_range_total (λ _ t, t = image) 0 filter_strength
              (λ _ image, applyGaussianBlur image) image) as (r & Hr & ->);
    [lia | done | | done].
  intros j t _ ->. exists image. split; [by eapply blur_fixes_uniform | done].
Qed.

Lemma blur_passes_fix_uniform_witness :
  wf_image five_by_five ∧
  uniform_grid (pixels five_by_five) (mkPixel 1 2 3) ∧
  byte_pixel (mkPixel 1 2 3) ∧
  selectFilter 4 100 0 five_by_five = Some five_by_five.
Proof.
  assert (wf_image five_by_five) as Hwf.
  { unfold wf_image, shape. simpl.
    split; [lia|]. split; [lia|]. split; [reflexivity|]. repeat constructor. }
  assert (uniform_grid (pixels five_by_five) (mkPixel 1 2 3)) as Hu
    by apply uniform_image_uniform.
  assert (byte_pixel (mkPixel 1 2 3)) as Hc by (unfold byte_pixel; simpl; lia).
  split; [exact Hwf|]. split; [exact Hu|]. split; [exact Hc|].
  apply (blur_passes_fix_uniform five_by_five _ 100 0 Hwf Hu Hc).
Defined.

(** X11: for every strength in [1, 100] the sharpening filter returns an
    image of a single colour of bytes unchanged. *)
Theorem sharpen_fixes_uniform (image : ImageDetails) (c : Pixeldata)
    (filter_strength : Z) :
  wf_image image → uniform_grid (pixels image) c → byte_pixel c →
  1 ≤ filter_strength ≤ 100 →
  applySharpen image filter_strength = Some image.
Proof.
  intros Hwf Hu Hc Hs.
  destruct (applySharpen_spec image filter_strength Hwf Hs)
    as (blurred & r & Hblur & Hr & Hd & Hget).
  rewrite (blur_fixes_uniform image c Hwf Hu Hc) in Hblur.
  injection Hblur as <-.
  rewrite Hr. f_equal. apply image_ext; [done..|].
  intros y x Hy Hx. rewrite Hget.
  destruct (get_at (pixels image) y x) as [p|] eqn:Hp; [|done].
  cbn [mbind option_bind]. f_equal.
  rewrite (Hu _ _ _ Hp). by apply sharpen_pixel_same.
Qed.

Lemma sharpen_fixes_uniform_witness :
  wf_image five_by_five ∧
  uniform_grid (pixels five_by_five) (mkPixel 1 2 3) ∧
  byte_pixel (mkPixel 1 2 3) ∧ 1 ≤ 100 ≤ 100 ∧
  applySharpen five_by_five 100 = Some five_by_five.
Proof.
  assert (wf_image five_by_five) as Hwf.
  { unfold wf_image, shape. simpl.
    split; [lia|]. split; [lia|]. split; [reflexivity|]. repeat constructor. }
  assert (uniform_grid (pixels five_by_five) (mkPixel 1 2 3)) as Hu
    by apply uniform_image_uniform.
  assert (byte_pixel (mkPixel 1 2 3)) as Hc by (unfold byte_pixel; simpl; lia).
  split; [exact Hwf|]. split; [exact Hu|]. split; [exact Hc|]. split; [lia|].
  apply (sharpen_fixes_uniform five_by_five _ 100 Hwf Hu Hc). lia.
Defined.

(** ** Resize *)

(** The loop of [box_mean] over bytes, for a box whose area times 255 fits
    an [int]: no sum overflows, and the count is positive when the first
    cell of the box lies in the image. *)
Lemma box_loop (px : grid Pixeldata) h w kx ky y x
    (body : Z → Z → Z * Z * Z * Z → option (Z * Z * Z * Z)) :
  (∀ ky' kx' acc, body ky' kx' acc =
     let '(sumR, sumG, sumB, count) := acc in
     let sourceY := y * ky + ky' in
     let sourceX := x * kx + kx' in
     if bool_decide (sourceY < h ∧ sourceX < w) then
       p ← get_at px sourceY sourceX;
       sumR ← int_add sumR (R p);
       sumG ← int_add sumG (G p);
       sumB ← int_add sumB (B p);
       count ← int_add count 1;
       Some (sumR, sumG, sumB, count)
     else Some acc) →
  shape px h w → (∀ y' x' q, get_at px y' x' = Some q → byte_pixel q) →
  0 < kx → 0 < ky → 0 ≤ y → 0 ≤ x → kx * ky * 255 ≤ INT_MAX →
  ∃ sumR sumG sumB count,
    for_yx 0 ky 0 kx body (0, 0, 0, 0) = Some (sumR, sumG, sumB, count) ∧
    0 ≤ count ∧ 0 ≤ sumR ≤ 255 * count ∧ 0 ≤ sumG ≤ 255 * count ∧
    0 ≤ sumB ≤ 255 * count ∧
    (y * ky < h → x * kx < w → 0 < count).
Proof.
  intros Hbody Hs Hbytes Hkx Hky Hy Hx Hmax.
  destruct (for_yx_total 0 ky 0 kx body
    (λ ky' kx' (acc : Z * Z * Z * Z),
       let '(sumR, sumG, sumB, count) := acc in
       0 ≤ count ≤ ky' * kx + kx' ∧
       0 ≤ sumR ≤ 255 * count ∧ 0 ≤ sumG ≤ 255 * count ∧
       0 ≤ sumB ≤ 255 * count ∧
       (y * ky < h → x * kx < w → 0 < ky' ∨ 0 < kx' → 0 < count))
    (0, 0, 0, 0))
    as ([[[sumR sumG] sumB] count] & Hrun & Hc & HR & HG & HB & Hpos);
    [lia | lia | | | |].
  - repeat split; lia.
  - intros ky' kx' [[[sR sG] sB] n] Hky' Hkx' (Hn & HR & HG & HB & Hpos).
    rewrite Hbody. cbv zeta. case_bool_decide as Hin.
    + destruct (get_at_in_range _ _ _ (y * ky + ky') (x * kx + kx') Hs) as [p Hp];
        [nia | nia |].
      rewrite Hp. cbn [mbind option_bind].
      destruct (Hbytes _ _ _ Hp) as (HpR & HpG & HpB).
      assert (n + 1 ≤ ky * kx) as Hn1 by nia.
      unfold int_add, INT_MIN.
      rewrite (bool_decide_eq_true_2 (_ ≤ sR + R p ≤ _)) by nia.
      cbn [mbind option_bind].
      rewrite (bool_decide_eq_true_2 (_ ≤ sG + G p ≤ _)) by nia.
      cbn [mbind option_bind].
      rewrite (bool_decide_eq_true_2 (_ ≤ sB + B p ≤ _)) by nia.
      cbn [mbind option_bind].
      rewrite (bool_decide_eq_true_2 (_ ≤ n + 1 ≤ _)) by nia.
      cbn [mbind option_bind].
      eexists. split; [done|]. cbv beta iota.
      split; [lia|]. split; [lia|]. split; [lia|]. split; [lia|]. lia.
    + eexists. split; [done|]. cbv beta iota.
      split; [lia|]. split; [lia|]. split; [lia|]. split; [lia|].
      intros Hyh Hxw _. apply Hpos; [done | done |].
      destruct (decide (0 < ky' ∨ 0 < kx')) as [?|Hz]; [done|].
      exfalso. apply Hin. assert (ky' = 0 ∧ kx' = 0) as [-> ->] by lia. lia.
  - intros ky' [[[sR sG] sB] n] Hky' (Hn & HR & HG & HB & Hpos).
    split; [lia|]. split; [lia|]. split; [lia|]. split; [lia|].
    intros Hyh Hxw _. apply Hpos; [done | done | lia].
  - exists sumR, sumG, sumB, count. split; [done|].
    split; [lia|]. split; [lia|]. split; [lia|]. split; [lia|].
    intros Hyh Hxw. apply Hpos; [done | done | lia].
Qed.

Lemma box_mean_defined (px : grid Pixeldata) h w kx ky y x :
  shape px h w → (∀ y' x' q, get_at px y' x' = Some q → byte_pixel q) →
  0 < kx → 0 < ky → 0 ≤ y → 0 ≤ x → kx * ky * 255 ≤ INT_MAX →
  ∃ p, box_mean px h w kx ky y x = Some p ∧ byte_pixel p.
Proof.
  intros Hs Hbytes Hkx Hky Hy Hx Hmax. unfold box_mean.
  match goal with |- context [for_yx _ _ _ _ ?b ?s] =>
    destruct (box_loop px h w kx ky y x b) as
      (sumR & sumG & sumB & count & Hrun & _); [done..|]
  end.
  rewrite Hrun. cbn [mbind option_bind].
  set (cnt := if count =? 0 then 1 else count).
  assert (cnt ≠ 0) as Hc.
  { subst cnt. destruct (count =? 0) eqn:He; [lia | by apply Z.eqb_neq in He]. }
  unfold int_div. apply Z.eqb_neq in Hc. rewrite Hc. cbn [mbind option_bind].
  eexists. split; [done|].
  unfold byte_pixel. cbn [R G B]. split; [|split]; apply to_byte_range.
Qed.

(** The sums of a box of equal pixels. *)
Lemma box_loop_uniform (px : grid Pixeldata) h w kx ky y x c
    (body : Z → Z → Z * Z * Z * Z → option (Z * Z * Z * Z)) :
  (∀ ky' kx' acc, body ky' kx' acc =
     let '(sumR, sumG, sumB, count) := acc in
     let sourceY := y * ky + ky' in
     let sourceX := x * kx + kx' in
     if bool_decide (sourceY < h ∧ sourceX < w) then
       p ← get_at px sourceY sourceX;
       sumR ← int_add sumR (R p);
       sumG ← int_add sumG (G p);
       sumB ← int_add sumB (B p);
       count ← int_add count 1;
       Some (sumR, sumG, sumB, count)
     else Some acc) →
  shape px h w → uniform_grid px c → byte_pixel c →
  0 < kx → 0 < ky → 0 ≤ y → 0 ≤ x → y * ky < h → x * kx < w →
  kx * ky * 255 ≤ INT_MAX →
  ∃ n, for_yx 0 ky 0 kx body (0, 0, 0, 0)
       = Some (n * R c, n * G c, n * B c, n) ∧ 0 < n.
Proof.
  intros Hbody Hs Hu (Hr & Hg & Hb) Hkx Hky Hy Hx Hyh Hxw Hmax.
  destruct (for_yx_total 0 ky 0 kx body
    (λ ky' kx' acc, ∃ n, acc = (n * R c, n * G c, n * B c, n) ∧
                         0 ≤ n ≤ ky' * kx + kx' ∧
                         (0 < ky' ∨ 0 < kx' → 0 < n)) (0, 0, 0, 0))
    as (acc & Hrun & n & -> & Hn & Hpos); [lia | lia | | | |].
  - exists 0. split; [done|]. lia.
  - intros ky' kx' t Hky' Hkx' (m & -> & Hm & Hmp).
    rewrite Hbody. cbv zeta. case_bool_decide as Hin.
    + destruct (get_at_in_range _ _ _ (y * ky + ky') (x * kx + kx') Hs) as [p Hp];
        [nia | nia |].
      rewrite Hp. cbn [mbind option_bind]. rewrite (Hu _ _ _ Hp).
      assert (m + 1 ≤ ky * kx) as Hn1 by nia.
      unfold int_add, INT_MIN.
      rewrite (bool_decide_eq_true_2 (_ ≤ m * R c + R c ≤ _)) by nia.
      cbn [mbind option_bind].
      rewrite (bool_decide_eq_true_2 (_ ≤ m * G c + G c ≤ _)) by nia.
      cbn [mbind option_bind].
      rewrite (bool_decide_eq_true_2 (_ ≤ m * B c + B c ≤ _)) by nia.
      cbn [mbind option_bind].
      rewrite (bool_decide_eq_true_2 (_ ≤ m + 1 ≤ _)) by nia.
      cbn [mbind option_bind].
      eexists. split; [done|]. exists (m + 1).
      split; [|lia].
      replace ((m + 1) * R c) with (m * R c + R c) by lia.
      replace ((m + 1) * G c) with (m * G c + G c) by lia.
      replace ((m + 1) * B c) with (m * B c + B c) by lia. done.
    + eexists. split; [done|]. exists m. split; [done|]. split; [lia|].
      intros _. apply Hmp.
      destruct (decide (0 < ky' ∨ 0 < kx')) as [?|Hz]; [done|].
      exfalso. apply Hin. assert (ky' = 0 ∧ kx' = 0) as [-> ->] by lia. lia.
  - intros ky' t Hky' (m & -> & Hm & Hmp). exists m.
    split; [done|]. split; [lia|]. intros _. apply Hmp. lia.
  - exists n. split; [done|]. apply Hpos. lia.
Qed.

Lemma box_mean_uniform (px : grid Pixeldata) h w kx ky y x c :
  shape px h w → uniform_grid px c → byte_pixel c →
  0 < kx → 0 < ky → 0 ≤ y → 0 ≤ x → y * ky < h → x * kx < w →
  kx * ky * 255 ≤ INT_MAX →
  box_mean px h w kx ky y x = Some c.
Proof.
  intros Hs Hu Hc Hkx Hky Hy Hx Hyh Hxw Hmax. unfold box_mean.
  match goal with |- context [for_yx _ _ _ _ ?b ?s] =>
    destruct (box_loop_uniform px h w kx ky y x c b) as (n & Hrun & Hn);
      [done..|]
  end.
  rewrite Hrun. cbn [mbind option_bind].
  assert ((n =? 0) = false) as -> by (apply Z.eqb_neq; lia).
  unfold int_div. assert ((n =? 0) = false) as -> by (apply Z.eqb_neq; lia).
  cbn [mbind option_bind].
  rewrite (Z.mul_comm n (R c)), (Z.mul_comm n (G c)), (Z.mul_comm n (B c)).
  rewrite !Z.quot_mul by lia.
  destruct Hc as (? & ? & ?). rewrite !to_byte_id by done. by destruct c.
Qed.

Lemma resize_kernel_positive a b : 0 < b ≤ a → 0 < a ÷ b ∧ ∀ y, 0 ≤ y < b → y * (a ÷ b) < a.
Proof.
  intros Hab. rewrite Z.quot_div_nonneg by lia.
  assert (0 < a / b) as Hq by (apply Z.div_str_pos; lia).
  split; [done|]. intros y Hy.
  pose proof (Z.mul_div_le a b ltac:(lia)). nia.
Qed.

Lemma resize_run image new_width :
  wf_image image → byte_image image → 0 < new_width ≤ width image →
  0 < scaled_height image new_width ≤ height image →
  (width image ÷ new_width) * (height image ÷ scaled_height image new_width) * 255
    ≤ INT_MAX →
  ∃ new_pixels,
    changeImageSize image new_width
    = Some (mkImage new_width (scaled_height image new_width) new_pixels, []) ∧
    shape new_pixels (scaled_height image new_width) new_width ∧
    ∀ y x, 0 ≤ y < scaled_height image new_width → 0 ≤ x < new_width →
      get_at new_pixels y x =
      box_mean (pixels image) (height image) (width image)
               (width image ÷ new_width)
               (height image ÷ scaled_height image new_width) y x.
Proof.
  intros (Hw & Hh & Hs) Hbytes Hnw Hnh Hmax. unfold changeImageSize. cbv zeta.
  set (nh := scaled_height image new_width) in *.
  rewrite bool_decide_eq_false_2 by lia.
  unfold int_div.
  assert ((new_width =? 0) = false) as -> by (apply Z.eqb_neq; lia).
  assert ((nh =? 0) = false) as -> by (apply Z.eqb_neq; lia).
  cbn [mbind option_bind].
  destruct (resize_kernel_positive (width image) new_width Hnw) as [Hkx _].
  destruct (resize_kernel_positive (height image) nh Hnh) as [Hky _].
  rewrite bool_decide_eq_false_2 by lia.
  destruct (fill_total
    (λ y x, box_mean (pixels image) (height image) (width image)
              (width image ÷ new_width) (height image ÷ nh) y x)
    (λ y x new_pixels,
       v ← box_mean (pixels image) (height image) (width image)
             (width image ÷ new_width) (height image ÷ nh) y x;
       set_at new_pixels y x v)
    (alloc fresh_pixel nh new_width) nh new_width 0 nh 0 new_width)
    as (g' & Hrun & Hs' & Hget); [done | | lia.. | |].
  - apply shape_alloc; lia.
  - intros y x Hy Hx.
    destruct (box_mean_defined _ _ _ _ _ y x Hs Hbytes Hkx Hky) as (p & -> & _);
      [lia | lia | done |].
    done.
  - rewrite Hrun. cbn [mbind option_bind]. exists g'.
    split; [done|]. split; [done|].
    intros y x Hy Hx. rewrite Hget. by rewrite bool_decide_eq_true_2.
Qed.

(** X12: for an image of bytes, a requested width between 1 and the width
    of the image whose computed height lies between 1 and the height of
    the image, and boxes whose area times 255 fits an [int] (so that no
    sum overflows), the resize reports no error and returns an image of
    exactly the requested width and the computed height, well formed and
    made of bytes. *)
Theorem resize_dimensions (image : ImageDetails) (new_width : Z) :
  wf_image image → byte_image image → 0 < new_width ≤ width image →
  0 < scaled_height image new_width ≤ height image →
  (width image ÷ new_width) * (height image ÷ scaled_height image new_width) * 255
    ≤ INT_MAX →
  ∃ r, changeImageSize image new_width = Some (r, []) ∧
    width r = new_width ∧ height r = scaled_height image new_width ∧
    wf_image r ∧ byte_image r.
Proof.
  intros Hwf Hbytes Hnw Hnh Hmax. pose proof Hwf as (Hw & Hh & Hs).
  destruct (resize_run image new_width Hwf Hbytes Hnw Hnh Hmax)
    as (px & Hrun & Hsp & Hget).
  eexists. split; [exact Hrun|]. cbn [width height pixels].
  split; [done|]. split; [done|]. split.
  - unfold wf_image. cbn [width height pixels]. split; [lia|]. split; [lia|done].
  - intros y x p Hp. cbn [pixels] in Hp.
    pose proof (get_at_range _ _ _ _ _ _ Hsp Hp) as [Hy Hx].
    rewrite Hget in Hp by done.
    destruct (resize_kernel_positive (width image) new_width Hnw) as [Hkx _].
    destruct (resize_kernel_positive (height image) _ Hnh) as [Hky _].
    destruct (box_mean_defined _ _ _ _ _ y x Hs Hbytes Hkx Hky) as (q & Hq & Hb);
      [lia | lia | done |].
    congruence.
Qed.

Lemma gray_image_bytes h w v : 0 ≤ v ≤ 255 → byte_image (gray_image h w v).
Proof.
  intros Hv y x p Hp.
  rewrite (uniform_image_uniform h w (mkPixel v v v) y x p Hp).
  unfold byte_pixel. cbn [R G B]. lia.
Qed.

Lemma resize_dimensions_witness :
  wf_image (gray_image 8 8 100) ∧ byte_image (gray_image 8 8 100) ∧
  0 < 4 ≤ width (gray_image 8 8 100) ∧
  0 < scaled_height (gray_image 8 8 100) 4 ≤ height (gray_image 8 8 100) ∧
  (width (gray_image 8 8 100) ÷ 4) *
  (height (gray_image 8 8 100) ÷ scaled_height (gray_image 8 8 100) 4) * 255
    ≤ INT_MAX ∧
  ∃ r, changeImageSize (gray_image 8 8 100) 4 = Some (r, []) ∧
    width r = 4 ∧ height r = scaled_height (gray_image 8 8 100) 4 ∧
    wf_image r ∧ byte_image r.
Proof.
  assert (wf_image (gray_image 8 8 100)) as Hwf by (apply uniform_image_wf; lia).
  assert (byte_image (gray_image 8 8 100)) as Hb by (apply gray_image_bytes; lia).
  assert (0 < 4 ≤ width (gray_image 8 8 100)) as Hnw by (simpl; lia).
  assert (scaled_height (gray_image 8 8 100) 4 = 1) as Hsh
    by (vm_compute; reflexivity).
  assert (0 < scaled_height (gray_image 8 8 100) 4 ≤ height (gray_image 8 8 100))
    as Hnh by (rewrite Hsh; simpl; lia).
  assert ((width (gray_image 8 8 100) ÷ 4) *
          (height (gray_image 8 8 100) ÷ scaled_height (gray_image 8 8 100) 4) * 255
          ≤ INT_MAX) as Hmax by (rewrite Hsh; vm_compute; discriminate).
  split; [exact Hwf|]. split; [exact Hb|]. split; [exact Hnw|].
  split; [exact Hnh|]. split; [exact Hmax|].
  apply (resize_dimensions (gray_image 8 8 100) 4 Hwf Hb Hnw Hnh Hmax).
Defined.

(** X13: under the same conditions the resize of an image of a single
    colour of bytes is an image of that colour: every box holds at least
    one pixel, no sum overflows, and the mean of equal values is that
    value. *)
Theorem resize_keeps_uniform (image : ImageDetails) (c : Pixeldata)
    (new_width : Z) :
  wf_image image → uniform_grid (pixels image) c → byte_pixel c →
  0 < new_width ≤ width image →
  0 < scaled_height image new_width ≤ height image →
  (width image ÷ new_width) * (height image ÷ scaled_height image new_width) * 255
    ≤ INT_MAX →
  ∃ r, changeImageSize image new_width = Some (r, []) ∧
    uniform_grid (pixels r) c.
Proof.
  intros Hwf Hu Hc Hnw Hnh Hmax. pose proof Hwf as (Hw & Hh & Hs).
  assert (byte_image image) as Hbytes.
  { intros y x p Hp. by rewrite (Hu _ _ _ Hp). }
  destruct (resize_run image new_width Hwf Hbytes Hnw Hnh Hmax)
    as (px & Hrun & Hsp & Hget).
  eexists. split; [exact Hrun|]. cbn [pixels].
  intros y x p Hp.
  pose proof (get_at_range _ _ _ _ _ _ Hsp Hp) as [Hy Hx].
  rewrite Hget in Hp by done.
  destruct (resize_kernel_positive (width image) new_width Hnw) as [Hkx Hxs].
  destruct (resize_kernel_positive (height image) _ Hnh) as [Hky Hys].
  rewrite (box_mean_uniform _ _ _ _ _ y x c Hs Hu Hc Hkx Hky) in Hp;
    [congruence | lia | lia | by apply Hys | by apply Hxs | done].
Qed.

Lemma resize_keeps_uniform_witness :
  wf_image (gray_image 8 8 100) ∧
  uniform_grid (pixels (gray_image 8 8 100)) (mkPixel 100 100 100) ∧
  byte_pixel (mkPixel 100 100 100) ∧
  0 < 4 ≤ width (gray_image 8 8 100) ∧
  0 < scaled_height (gray_image 8 8 100) 4 ≤ height (gray_image 8 8 100) ∧
  (width (gray_image 8 8 100) ÷ 4) *
  (height (gray_image 8 8 100) ÷ scaled_height (gray_image 8 8 100) 4) * 255
    ≤ INT_MAX ∧
  ∃ r, changeImageSize (gray_image 8 8 100) 4 = Some (r, []) ∧
    uniform_grid (pixels r) (mkPixel 100 100 100).
Proof.
  assert (wf_image (gray_image 8 8 100)) as Hwf by (apply uniform_image_wf; lia).
  assert (uniform_grid (pixels (gray_image 8 8 100)) (mkPixel 100 100 100)) as Hu
    by apply uniform_image_uniform.
  assert (byte_pixel (mkPixel 100 100 100)) as Hc by (unfold byte_pixel; simpl; lia).
  assert (0 < 4 ≤ width (gray_image 8 8 100)) as Hnw by (simpl; lia).
  assert (scaled_height (gray_image 8 8 100) 4 = 1) as Hsh
    by (vm_compute; reflexivity).
  assert (0 < scaled_height (gray_image 8 8 100) 4 ≤ height (gray_image 8 8 100))
    as Hnh by (rewrite Hsh; simpl; lia).
  assert ((width (gray_image 8 8 100) ÷ 4) *
          (height (gray_image 8 8 100) ÷ scaled_height (gray_image 8 8 100) 4) * 255
          ≤ INT_MAX) as Hmax by (rewrite Hsh; vm_compute; discriminate).
  split; [exact Hwf|]. split; [exact Hu|]. split; [exact Hc|].
  split; [exact Hnw|]. split; [exact Hnh|]. split; [exact Hmax|].
  apply (resize_keeps_uniform (gray_image 8 8 100) _ 4 Hwf Hu Hc Hnw Hnh Hmax).
Defined.

(** ** Character art *)

(** The minimum found by [min_max] is its start value or the gray value of
    a pixel. *)
Lemma min_max_attained (px : grid Pixeldata) h w mn mx :
  min_max px h w = Some (mn, mx) →
  mn = 255 ∨ ∃ y x p, get_at px y x = Some p ∧ R p = mn.
Proof.
  unfold min_max. intros Hrun.
  match type of Hrun with for_yx _ _ _ _ ?b ?s = _ =>
    apply (for_yx_partial 0 h 0 w b
      (λ mm, mm.1 = 255 ∨ ∃ y x p, get_at px y x = Some p ∧ R p = mm.1) s)
      in Hrun
  end; [done | by left |].
  intros y x [mn' mx'] t' Hy Hx Hinv. cbv zeta.
  destruct (get_at px y x) as [p|] eqn:Hp; [|done]. cbn [mbind option_bind].
  intros [= <-]. cbn [fst] in *.
  destruct (R p <? mn') eqn:Hlt; [|done].
  right. by exists y, x, p.
Qed.

Lemma gray_value_range p : 0 ≤ R (grayscale_pixel p) ≤ 255.
Proof. unfold grayscale_pixel. cbn [R]. apply to_byte_range. Qed.

(** X14: the character grid of [ASCII_filter] shows a blank at every pixel
    whose gray value (the truncated mean of its channels) is the least of
    the image. *)
Theorem ascii_darkest_is_blank (image : ImageDetails) :
  wf_image image →
  ∃ image' art, ASCII_filter image = Some (image', art) ∧
    ∀ y x p, get_at (pixels image) y x = Some p →
      (∀ y' x' p', get_at (pixels image) y' x' = Some p' →
         R (grayscale_pixel p) ≤ R (grayscale_pixel p')) →
      get_at (a_pixels art) y x = Some blank.
Proof.
  intros Hwf.
  destruct (ASCII_filter_spec image Hwf)
    as (gray & mn & mx & image' & art & Hgray & Hmm & Hrun & _ & _ & _ & _ & Hcell).
  destruct (applyGrayscale_spec image Hwf) as (gray' & Hgray' & _ & Hgg).
  assert (gray' = gray) as -> by congruence.
  exists image', art. split; [done|].
  intros y x p Hp Hleast.
  assert (get_at (pixels gray) y x = Some (grayscale_pixel p)) as Hq
    by (by rewrite Hgg, Hp).
  destruct (Hcell _ _ _ Hq) as (st & c & Hdiv & Hst & _ & _ & Hramp & Hart).
  assert (R (grayscale_pixel p) = mn) as Hmin.
  { destruct (min_max_spec (pixels gray) (height image) (width image))
      as (mn' & mx' & Hmm' & Hbound);
      [by destruct (applyGrayscale_spec image Hwf) as (g2 & Hg2 & (_ & _ & ?) & _);
          assert (g2 = gray) as -> by congruence
      | destruct Hwf; lia |].
    assert (mn' = mn) as -> by congruence.
    pose proof (Hbound _ _ _ Hq) as [Hlo _].
    pose proof (gray_value_range p) as Hr.
    destruct (min_max_attained _ _ _ _ _ Hmm) as [->|(y0 & x0 & p0 & Hp0 & <-)];
      [lia|].
    rewrite Hgg in Hp0.
    destruct (get_at (pixels image) y0 x0) as [p0'|] eqn:Hp0'; [|done].
    injection Hp0 as <-. specialize (Hleast _ _ _ Hp0'). lia. }
  unfold int_div in Hdiv. destruct (mx - mn + 1 =? 0) eqn:Hd; [done|].
  apply Z.eqb_neq in Hd. injection Hdiv as <-.
  unfold grayscale_pixel in Hmin. cbn [R] in Hmin.
  rewrite Hmin, Z.sub_diag, Z.mul_0_r in Hramp.
  rewrite Z.quot_0_l in Hramp by done.
  change (arr_get ramp 0 = Some c) in Hramp.
  rewrite ramp_first in Hramp. by injection Hramp as <-.
Qed.

Lemma ascii_darkest_is_blank_witness :
  wf_image sample_image ∧
  ∃ image' art, ASCII_filter sample_image = Some (image', art) ∧
    ∀ y x p, get_at (pixels sample_image) y x = Some p →
      (∀ y' x' p', get_at (pixels sample_image) y' x' = Some p' →
         R (grayscale_pixel p) ≤ R (grayscale_pixel p')) →
      get_at (a_pixels art) y x = Some blank.
Proof.
  assert (wf_image sample_image) as Hwf.
  { unfold wf_image, shape. simpl.
    split; [lia|]. split; [lia|]. split; [reflexivity|]. repeat constructor. }
  split; [exact Hwf|]. apply (ascii_darkest_is_blank sample_image Hwf).
Defined.

(** X15: the character grid follows the brightness: of two pixels the one
    with the greater or equal gray value has the later or the same place
    in the ramp. *)
Theorem ascii_ramp_monotone (image : ImageDetails) :
  wf_image image →
  ∃ image' art, ASCII_filter image = Some (image', art) ∧
    ∀ y1 x1 p1 y2 x2 p2,
      get_at (pixels image) y1 x1 = Some p1 →
      get_at (pixels image) y2 x2 = Some p2 →
      R (grayscale_pixel p1) ≤ R (grayscale_pixel p2) →
      ∃ i1 i2 c1 c2,
        arr_get ramp i1 = Some c1 ∧ get_at (a_pixels art) y1 x1 = Some c1 ∧
        arr_get ramp i2 = Some c2 ∧ get_at (a_pixels art) y2 x2 = Some c2 ∧
        i1 ≤ i2.
Proof.
  intros Hwf.
  destruct (ASCII_filter_spec image Hwf)
    as (gray & mn & mx & image' & art & Hgray & Hmm & Hrun & _ & _ & _ & _ & Hcell).
  destruct (applyGrayscale_spec image Hwf) as (gray' & Hgray' & _ & Hgg).
  assert (gray' = gray) as -> by congruence.
  exists image', art. split; [done|].
  intros y1 x1 p1 y2 x2 p2 Hp1 Hp2 Hle.
  assert (get_at (pixels gray) y1 x1 = Some (grayscale_pixel p1)) as Hq1
    by (by rewrite Hgg, Hp1).
  assert (get_at (pixels gray) y2 x2 = Some (grayscale_pixel p2)) as Hq2
    by (by rewrite Hgg, Hp2).
  destruct (Hcell _ _ _ Hq1) as (s1 & c1 & Hd1 & Hs1 & _ & _ & Hr1 & Ha1).
  destruct (Hcell _ _ _ Hq2) as (s2 & c2 & Hd2 & Hs2 & _ & _ & Hr2 & Ha2).
  eexists _, _, c1, c2. split; [exact Hr1|]. split; [exact Ha1|].
  split; [exact Hr2|]. split; [exact Ha2|].
  unfold int_div in Hd1, Hd2. destruct (mx - mn + 1 =? 0) eqn:Hd; [done|].
  apply Z.eqb_neq in Hd. injection Hd1 as <-. injection Hd2 as <-.
  assert (0 < mx - mn + 1) as Hpos.
  { destruct (min_max_spec (pixels gray) (height image) (width image))
      as (mn' & mx' & Hmm' & Hbound);
      [by destruct (applyGrayscale_spec image Hwf) as (g2 & Hg2 & (_ & _ & ?) & _);
          assert (g2 = gray) as -> by congruence
      | destruct Hwf; lia |].
    assert (mn' = mn) by congruence. assert (mx' = mx) by congruence. subst.
    pose proof (Hbound _ _ _ Hq1). lia. }
  unfold grayscale_pixel in Hle. cbn [R] in Hle.
  apply Z.quot_le_mono; [lia|].
  apply Z.mul_le_mono_nonneg_r; [rewrite num_chars_value; lia|].
  apply Z.quot_le_mono; [done | lia].
Qed.

Lemma ascii_ramp_monotone_witness :
  wf_image sample_image ∧
  ∃ image' art, ASCII_filter sample_image = Some (image', art) ∧
    ∀ y1 x1 p1 y2 x2 p2,
      get_at (pixels sample_image) y1 x1 = Some p1 →
      get_at (pixels sample_image) y2 x2 = Some p2 →
      R (grayscale_pixel p1) ≤ R (grayscale_pixel p2) →
      ∃ i1 i2 c1 c2,
        arr_get ramp i1 = Some c1 ∧ get_at (a_pixels art) y1 x1 = Some c1 ∧
        arr_get ramp i2 = Some c2 ∧ get_at (a_pixels art) y2 x2 = Some c2 ∧
        i1 ≤ i2.
Proof.
  assert (wf_image sample_image) as Hwf.
  { unfold wf_image, shape. simpl.
    split; [lia|]. split; [lia|]. split; [reflexivity|]. repeat constructor. }
  split; [exact Hwf|]. apply (ascii_ramp_monotone sample_image Hwf).
Defined.

(** ** Paths *)

Lemma find_last_of_Some chars s i :
  find_last_of chars s = Some i →
  ∃ c, s !! i = Some c ∧ c ∈ chars ∧ ∀ c', c' ∈ drop (S i) s → c' ∉ chars.
Proof.
  revert i. induction s as [|a s IH]; intros i; [done|]. cbn [find_last_of].
  destruct (find_last_of chars s) as [j|] eqn:Hj.
  - intros [= <-]. destruct (IH j eq_refl) as (c & Hc & Hin & Hrest).
    exists c. done.
  - case_bool_decide as Ha; [|done]. intros [= <-]. exists a.
    split; [done|]. split; [done|]. cbn [drop]. clear IH Ha.
    induction s as [|b s IH]; intros c' Hc'; [by apply elem_of_nil in Hc'|].
    cbn [find_last_of] in Hj.
    destruct (find_last_of chars s) eqn:Hs; [done|].
    case_bool_decide as Hb; [done|].
    apply elem_of_cons in Hc' as [->|Hc']; [done|]. by apply IH.
Qed.

Lemma find_last_of_None chars s :
  find_last_of chars s = None → ∀ c, c ∈ s → c ∉ chars.
Proof.
  induction s as [|a s IH]; intros Hn c Hc; [by apply elem_of_nil in Hc|].
  cbn [find_last_of] in Hn.
  destruct (find_last_of chars s) eqn:Hs; [done|].
  case_bool_decide as Ha; [done|].
  apply elem_of_cons in Hc as [->|Hc]; [done|]. by apply IH.
Qed.

Lemma find_last_of_none_in chars s :
  (∀ c, c ∈ s → c ∉ chars) → find_last_of chars s = None.
Proof.
  induction s as [|a s IH]; intros Hn; [done|]. cbn [find_last_of].
  rewrite IH by (intros c Hc; apply Hn; by right).
  rewrite bool_decide_eq_false_2; [done|]. apply Hn. by left.
Qed.

Lemma find_last_of_app_hit chars s c t :
  c ∈ chars → (∀ c', c' ∈ t → c' ∉ chars) →
  find_last_of chars (s ++ c :: t) = Some (length s).
Proof.
  intros Hc Ht. induction s as [|a s IH].
  - cbn [app find_last_of length]. rewrite (find_last_of_none_in _ _ Ht).
    by rewrite bool_decide_eq_true_2.
  - cbn [app find_last_of length]. by rewrite IH.
Qed.

Lemma find_last_of_app_none chars s t :
  (∀ c', c' ∈ t → c' ∉ chars) →
  find_last_of chars (s ++ t) = find_last_of chars s.
Proof.
  intros Ht. induction s as [|a s IH].
  - cbn [app find_last_of]. by apply find_last_of_none_in.
  - cbn [app find_last_of]. by rewrite IH.
Qed.

Lemma find_last_of_split chars s i :
  find_last_of chars s = Some i →
  ∃ c, c ∈ chars ∧ s = take i s ++ c :: drop (S i) s ∧
       ∀ c', c' ∈ drop (S i) s → c' ∉ chars.
Proof.
  intros (c & Hi & Hc & Hrest)%find_last_of_Some. exists c.
  split; [done|]. split; [|done]. by rewrite take_drop_middle.
Qed.

Lemma path_parts (file_path : list ascii) :
  no_separator (get_filename file_path) ∧
  (get_directory file_path = [] ∧ get_filename file_path = file_path ∨
   ∃ c, c ∈ separators ∧
        file_path = get_directory file_path ++ c :: get_filename file_path).
Proof.
  unfold get_filename, get_directory, no_separator.
  fold separators.
  destruct (find_last_of separators file_path) as [i|] eqn:Hi.
  - apply find_last_of_split in Hi as (c & Hc & Hs & Hrest).
    replace (i + 1)%nat with (S i) by lia.
    split; [done|]. right. by exists c.
  - split; [by apply find_last_of_None|]. by left.
Qed.

(** X16: a path is its directory, one separator and its file name, or,
    without a separator, its file name alone with an empty directory; the
    file name never holds a separator. *)
Theorem path_splits (file_path : list ascii) :
  no_separator (get_filename file_path) ∧
  (get_directory file_path = [] ∧ get_filename file_path = file_path ∨
   ∃ c, c ∈ separators ∧
        file_path = get_directory file_path ++ c :: get_filename file_path).
Proof. apply path_parts. Qed.

Lemma dot_free_bmp c : c ∈ str "bmp" → c ∉ ["."%char].
Proof.
  intros Hc Hd. apply list_elem_of_singleton in Hd as ->.
  cbv in Hc. repeat (apply elem_of_cons in Hc as [Hc|Hc]; [done|]).
  by apply elem_of_nil in Hc.
Qed.

Lemma replace_ext_stem filename :
  replace_ext_with_bmp filename = strip_extension filename ++ str ".bmp".
Proof.
  unfold replace_ext_with_bmp, strip_extension.
  by destruct (find_last_of _ filename).
Qed.

Lemma strip_extension_bmp stem : strip_extension (stem ++ str ".bmp") = stem.
Proof.
  unfold strip_extension. change (str ".bmp") with ("."%char :: str "bmp").
  rewrite (find_last_of_app_hit ["."%char] stem "."%char (str "bmp"));
    [| by apply list_elem_of_singleton | apply dot_free_bmp].
  by rewrite take_app_length.
Qed.

(** X17: [replace_ext_with_bmp] gives a name that ends in [".bmp"], keeps
    the part before the last dot, and changes nothing when applied
    again. *)
Theorem replace_ext_idempotent (filename : list ascii) :
  has_bmp_suffix (replace_ext_with_bmp filename) ∧
  strip_extension (replace_ext_with_bmp filename) = strip_extension filename ∧
  replace_ext_with_bmp (replace_ext_with_bmp filename)
  = replace_ext_with_bmp filename.
Proof.
  split; [exists (strip_extension filename); apply replace_ext_stem|].
  assert (strip_extension (replace_ext_with_bmp filename)
          = strip_extension filename) as Hs
    by (rewrite replace_ext_stem; apply strip_extension_bmp).
  split; [done|].
  by rewrite (replace_ext_stem (replace_ext_with_bmp filename)), Hs, replace_ext_stem.
Qed.

Lemma no_separator_check s :
  bool_decide (Forall (λ c, c ∉ separators) s) = true → no_separator s.
Proof.
  intros H%bool_decide_eq_true c Hc. rewrite Forall_forall in H. by apply H.
Qed.

Lemma no_separator_app s t : no_separator s → no_separator t → no_separator (s ++ t).
Proof. intros Hs Ht c [Hc|Hc]%elem_of_app; [by apply Hs | by apply Ht]. Qed.

Lemma filter_names_plain selected_filter t :
  arr_get FILTER_TYPES selected_filter = Some t → no_separator t.1.
Proof.
  intros [_ Ht]%arr_get_Some.
  assert (Forall (λ t : list ascii * bool, no_separator t.1) FILTER_TYPES) as Hall.
  { repeat constructor; apply no_separator_check; vm_compute; reflexivity. }
  rewrite Forall_lookup in Hall. by eapply Hall.
Qed.

Lemma strip_extension_no_separator s : no_separator s → no_separator (strip_extension s).
Proof.
  intros Hs c Hc. apply Hs. unfold strip_extension in Hc.
  destruct (find_last_of _ s); [|done]. by eapply subseteq_take.
Qed.

(** The name [main] gives the output differs from the name of the input:
    after the part before the last dot comes an underscore, not a dot. *)
Lemma output_name_differs filename suffix :
  strip_extension filename ++ "_"%char :: suffix ≠ filename.
Proof.
  unfold strip_extension.
  destruct (find_last_of ["."%char] filename) as [j|] eqn:Hj.
  - apply find_last_of_split in Hj as (c & Hc & Hs & _).
    apply list_elem_of_singleton in Hc as ->.
    intros Heq. rewrite Hs in Heq at 2.
    apply app_inv_head in Heq. done.
  - intros Heq. apply (f_equal length) in Heq.
    rewrite length_app in Heq. cbn [length] in Heq. lia.
Qed.

Lemma output_file_name file_path selected_filter name :
  output_file file_path selected_filter = Some name →
  no_separator name ∧ name ≠ [] ∧ name ≠ get_filename file_path.
Proof.
  unfold output_file.
  destruct (arr_get FILTER_TYPES selected_filter) as [t|] eqn:Ht; [|done].
  cbn [mbind option_bind]. intros [= <-].
  pose proof (filter_names_plain _ _ Ht) as Hplain.
  destruct (path_parts file_path) as [Hf _].
  split; [|split].
  - apply no_separator_app; [by apply strip_extension_no_separator|].
    apply (no_separator_app ["_"%char]);
      [apply no_separator_check; vm_compute; reflexivity|].
    apply no_separator_app; [done|].
    apply no_separator_check. vm_compute. reflexivity.
  - intros Heq. apply (f_equal length) in Heq.
    rewrite !length_app in Heq. cbn [length str list_ascii_of_string] in Heq. lia.
  - change (str "_" ++ t.1 ++ str ".bmp") with ("_"%char :: (t.1 ++ str ".bmp")).
    apply output_name_differs.
Qed.





(** ** Bitmap files *)

Lemma padding_range w p : padding w = Some p → 0 ≤ p ≤ 3.
Proof.
  unfold padding. case_bool_decide; [|done]. intros [= <-].
  pose proof (Z.rem_bound_abs (w * 3) 4 ltac:(lia)).
  pose proof (Z.rem_bound_abs (4 - Z.rem (w * 3) 4) 4 ltac:(lia)).
  assert (0 ≤ 4 - Z.rem (w * 3) 4) by lia.
  pose proof (Z.rem_nonneg (4 - Z.rem (w * 3) 4) 4 ltac:(lia) ltac:(lia)).
  lia.
Qed.

Lemma padding_defined w :
  0 ≤ w → w * 3 ≤ INT_MAX →
  ∃ p, padding w = Some p ∧ 0 ≤ p ≤ 3 ∧ (w * 3 + p) mod 4 = 0.
Proof.
  intros Hw Hmax. unfold padding.
  rewrite bool_decide_eq_true_2 by (unfold INT_MIN; lia).
  eexists. split; [done|].
  rewrite (Z.rem_mod_nonneg (w * 3) 4) by lia.
  rewrite Z.rem_mod_nonneg by (pose proof (Z.mod_pos_bound (w * 3) 4); lia).
  split; Z.div_mod_to_equations; lia.
Qed.

(** X20: for a width whose three-fold fits an [int], the padding that
    both [check_and_read_file] and [make_output_file] compute is between 0
    and 3 and fills the row of [3 * width] bytes up to the next multiple
    of four. *)
Theorem padding_aligns_rows (width : Z) :
  0 ≤ width → width * 3 ≤ INT_MAX →
  ∃ p, padding width = Some p ∧ 0 ≤ p ≤ 3 ∧ (width * 3 + p) mod 4 = 0.
Proof. apply padding_defined. Qed.

Lemma padding_aligns_rows_witness :
  0 ≤ 3 ∧ 3 * 3 ≤ INT_MAX ∧
  ∃ p, padding 3 = Some p ∧ 0 ≤ p ≤ 3 ∧ (3 * 3 + p) mod 4 = 0.
Proof.
  split; [lia|]. split; [vm_compute; discriminate|].
  apply (padding_aligns_rows 3); [lia | vm_compute; discriminate].
Defined.

(** The inner loop of [make_output_file] appends the pixels of a row. *)
Lemma write_pixels_row (px : grid Pixeldata) h w y row out :
  shape px h w → arr_get px y = Some row →
  for_range 0 w (λ x out_file,
    p ← get_at px y x; Some (out_file ++ pixel_bytes p)) out
  = Some (out ++ concat (pixel_bytes <$> row)).
Proof.
  intros Hs Hrow. pose proof (shape_row _ _ _ _ _ Hs Hrow) as Hlen.
  destruct (for_range_total
    (λ x o, o = out ++ concat (pixel_bytes <$> take (Z.to_nat x) row)) 0 w
    (λ x out_file, p ← get_at px y x; Some (out_file ++ pixel_bytes p)) out)
    as (o & Hrun & ->); [lia | | |].
  - simpl. by rewrite app_nil_r.
  - intros x o Hx ->.
    destruct (arr_get_in_range row x) as [c Hc]; [lia|].
    unfold get_at. rewrite Hrow. simpl. rewrite Hc. simpl.
    eexists. split; [done|].
    apply arr_get_Some in Hc as [_ Hc].
    replace (Z.to_nat (x + 1)) with (S (Z.to_nat x)) by lia.
    rewrite (take_S_r _ _ _ Hc), fmap_app, concat_app.
    cbn [fmap list_fmap concat]. by rewrite app_nil_r, app_assoc.
  - rewrite Hrun. by rewrite take_ge by lia.
Qed.

Lemma take_zeros p : 0 ≤ p ≤ 3 → take (Z.to_nat p) [0; 0; 0] = replicate (Z.to_nat p) 0.
Proof.
  intros Hp.
  assert (p = 0 ∨ p = 1 ∨ p = 2 ∨ p = 3) as [->|[->|[->| ->]]] by lia; reflexivity.
Qed.

(** The bytes of the file: the two headers and the rows in the order of
    the array, each followed by its padding. *)
Lemma output_bytes_spec image fh ih p :
  shape (pixels image) (height image) (width image) →
  padding (width image) = Some p →
  output_bytes image fh ih =
  Some (file_header_bytes fh ++ info_header_bytes ih ++
        concat (row_bytes p <$> pixels image)).
Proof.
  intros Hs Hp. pose proof (shape_length _ _ _ Hs) as Hh.
  pose proof (padding_range _ _ Hp) as Hpr.
  unfold output_bytes. rewrite Hp.
  change (for_range 0 (height image)
    (λ y out_file,
      out_file ← for_range 0 (width image) (λ x out_file,
        p ← get_at (pixels image) y x;
        Some (out_file ++ pixel_bytes p)) out_file;
      Some (out_file ++ take (Z.to_nat p) [0; 0; 0]))
    (file_header_bytes fh ++ info_header_bytes ih) =
    Some (file_header_bytes fh ++ info_header_bytes ih ++
          concat (row_bytes p <$> pixels image))).
  destruct (for_range_total
    (λ y o, o = (file_header_bytes fh ++ info_header_bytes ih) ++
                concat (row_bytes p <$> take (Z.to_nat y) (pixels image)))
    0 (height image)
    (λ y out_file,
      out_file ← for_range 0 (width image) (λ x out_file,
        p ← get_at (pixels image) y x;
        Some (out_file ++ pixel_bytes p)) out_file;
      Some (out_file ++ take (Z.to_nat p) [0; 0; 0]))
    (file_header_bytes fh ++ info_header_bytes ih))
    as (o & Hrun & ->); [lia | | |].
  - change (Z.to_nat 0) with 0%nat. rewrite take_0.
    cbn [fmap list_fmap concat]. by rewrite app_nil_r.
  - intros y o Hy ->.
    destruct (arr_get_in_range (pixels image) y) as [row Hrow]; [lia|].
    rewrite (write_pixels_row _ _ _ _ row _ Hs Hrow). cbn [mbind option_bind].
    eexists. split; [done|].
    apply arr_get_Some in Hrow as [_ Hrow].
    replace (Z.to_nat (y + 1)) with (S (Z.to_nat y)) by lia.
    rewrite (take_S_r _ _ _ Hrow), fmap_app, concat_app.
    cbn [fmap list_fmap concat].
    rewrite app_nil_r. unfold row_bytes at 2. rewrite take_zeros by done.
    by rewrite <- !app_assoc.
  - rewrite Hrun. rewrite take_ge by lia. by rewrite <- app_assoc.
Qed.

Lemma length_le_bytes n v : length (le_bytes n v) = n.
Proof. revert v. induction n as [|n IH]; intros v; [done|]. simpl. by rewrite IH. Qed.

Lemma length_file_header_bytes fh :
  length (file_header_bytes fh) = sizeof_BitmapFileHeader.
Proof. unfold file_header_bytes. by rewrite !length_app, !length_le_bytes. Qed.

Lemma length_info_header_bytes ih :
  length (info_header_bytes ih) = sizeof_BitmapInfoHeader.
Proof. unfold info_header_bytes. by rewrite !length_app, !length_le_bytes. Qed.

Lemma length_row_bytes p row :
  0 ≤ p → Z.of_nat (length (row_bytes p row)) = 3 * Z.of_nat (length row) + p.
Proof.
  intros Hp. unfold row_bytes. rewrite length_app, length_replicate.
  assert (length (concat (pixel_bytes <$> row)) = (3 * length row)%nat) as ->.
  { induction row as [|q row IH]; [done|]. cbn [fmap list_fmap concat].
    rewrite length_app, IH. cbn [pixel_bytes length]. lia. }
  lia.
Qed.

Lemma length_rows p (px : grid Pixeldata) h w :
  shape px h w → 0 ≤ p →
  Z.of_nat (length (concat (row_bytes p <$> px))) = h * (3 * w + p).
Proof.
  intros [Hh Hrows] Hp. subst h.
  induction Hrows as [|row px Hrow Hrows IH]; [done|].
  cbn [fmap list_fmap concat]. rewrite length_app, Nat2Z.inj_add, IH.
  rewrite length_row_bytes by done. cbn [length]. lia.
Qed.

(** X21: [make_output_file] writes the 54 bytes of the two headers and,
    for every row of the image, [3 * width] bytes of pixels and the
    padding: [54 + height * (3 * width + padding)] bytes in all. *)
Theorem output_file_size (image : ImageDetails) (fh : BitmapFileHeader)
    (ih : BitmapInfoHeader) :
  wf_image image → width image * 3 ≤ INT_MAX →
  ∃ out p, output_bytes image fh ih = Some out ∧
    padding (width image) = Some p ∧
    Z.of_nat (length out) = 54 + height image * (3 * width image + p).
Proof.
  intros (Hw & Hh & Hs) Hmax.
  destruct (padding_defined (width image)) as (p & Hp & Hpr & _); [lia | done |].
  eexists _, p. split; [by apply output_bytes_spec|]. split; [done|].
  rewrite !length_app, length_file_header_bytes, length_info_header_bytes.
  rewrite !Nat2Z.inj_add, (length_rows _ _ _ _ Hs) by lia.
  unfold sizeof_BitmapFileHeader, sizeof_BitmapInfoHeader. lia.
Qed.

Lemma output_file_size_witness :
  wf_image sample_image ∧ width sample_image * 3 ≤ INT_MAX ∧
  ∃ out p, output_bytes sample_image sample_file_header sample_info_header
           = Some out ∧
    padding (width sample_image) = Some p ∧
    Z.of_nat (length out)
    = 54 + height sample_image * (3 * width sample_image + p).
Proof.
  assert (wf_image sample_image) as Hwf.
  { unfold wf_image, shape. simpl.
    split; [lia|]. split; [lia|]. split; [reflexivity|]. repeat constructor. }
  split; [exact Hwf|]. split; [vm_compute; discriminate|].
  apply (output_file_size sample_image _ _ Hwf). vm_compute. discriminate.
Defined.

Lemma fread_app (dest bytes rest : list Z) :
  length bytes = length dest → fread dest (bytes ++ rest) = (bytes, rest).
Proof.
  intros Hn. unfold fread.
  rewrite take_app_length', drop_app_length' by done.
  rewrite drop_ge by (rewrite length_app; lia).
  by rewrite app_nil_r.
Qed.

Lemma fread_bytes (dest in_file : list Z) :
  Forall is_byte dest → Forall is_byte in_file →
  Forall is_byte (fread dest in_file).1 ∧ Forall is_byte (fread dest in_file).2.
Proof.
  intros Hd Hf. unfold fread. cbn [fst snd]. split.
  - apply Forall_app. split; [by apply Forall_take | by apply Forall_drop].
  - by apply Forall_drop.
Qed.

Lemma shape_new_rows content h w :
  0 ≤ h → 0 ≤ w → shape (new_rows content h w) h w.
Proof.
  intros Hh Hw. unfold new_rows, shape. split.
  - rewrite length_fmap, length_seqZ. lia.
  - apply Forall_fmap, Forall_forall. intros y _. cbn.
    rewrite length_fmap, length_seqZ. lia.
Qed.

Lemma get_at_new_rows content h w y x :
  0 ≤ y < h → 0 ≤ x < w → get_at (new_rows content h w) y x = Some (content y x).
Proof.
  intros Hy Hx. unfold get_at, arr_get, new_rows.
  rewrite (bool_decide_eq_true_2 (0 ≤ y)), (bool_decide_eq_true_2 (0 ≤ x)) by lia.
  rewrite list_lookup_fmap, lookup_seqZ_lt by lia.
  cbn [fmap option_fmap option_map mbind option_bind].
  rewrite list_lookup_fmap, lookup_seqZ_lt by lia.
  cbn [fmap option_fmap option_map]. f_equal. f_equal; lia.
Qed.

(** The inner loop of the reader on the bytes of a row. *)
Lemma read_pixels_row (px g : grid Pixeldata) h w y row tail :
  shape px h w → shape g h w → 0 ≤ y < h → arr_get px y = Some row →
  (∀ y' x', 0 ≤ y' < y → 0 ≤ x' < w → get_at g y' x' = get_at px y' x') →
  ∃ g', for_range 0 w (λ x st,
          let '(pixels, in_file) := st in
          cell ← get_at pixels y x;
          let '(bytes, in_file) := fread (pixel_bytes cell) in_file in
          p ← pixel_of_bytes bytes;
          pixels ← set_at pixels y x p;
          Some (pixels, in_file)) (g, concat (pixel_bytes <$> row) ++ tail)
        = Some (g', tail) ∧
        shape g' h w ∧
        ∀ y' x', 0 ≤ y' < y + 1 → 0 ≤ x' < w → get_at g' y' x' = get_at px y' x'.
Proof.
  intros Hs Hg Hy Hrow Hbefore.
  pose proof (shape_row _ _ _ _ _ Hs Hrow) as Hlen.
  destruct (for_range_total
    (λ x (st : grid Pixeldata * list Z),
       shape st.1 h w ∧
       (∀ y' x', 0 ≤ y' < h → 0 ≤ x' < w → y' < y ∨ y' = y ∧ x' < x →
          get_at st.1 y' x' = get_at px y' x') ∧
       st.2 = concat (pixel_bytes <$> drop (Z.to_nat x) row) ++ tail)
    0 w
    (λ x st,
       let '(pixels, in_file) := st in
       cell ← get_at pixels y x;
       let '(bytes, in_file) := fread (pixel_bytes cell) in_file in
       p ← pixel_of_bytes bytes;
       pixels ← set_at pixels y x p;
       Some (pixels, in_file)) (g, concat (pixel_bytes <$> row) ++ tail))
    as ([g' s'] & Hrun & Hs' & Hget & Hstream); [lia | | |].
  - split; [done|]. split; [|done].
    intros y' x' Hy' Hx' [?|[_ ?]]; [|lia]. apply Hbefore; lia.
  - intros x [t s] Hx (Ht & Hget & Hstream). cbn [fst snd] in *.
    destruct (arr_get_in_range row x) as [q Hq]; [lia|].
    pose proof Hq as Hq'. apply arr_get_Some in Hq' as [_ Hq'].
    rewrite (drop_S _ _ _ Hq') in Hstream.
    cbn [fmap list_fmap concat] in Hstream. rewrite <- app_assoc in Hstream.
    subst s.
    destruct (get_at_in_range t h w y x Ht) as [cell Hcell]; [lia | lia |].
    rewrite Hcell. cbn [mbind option_bind].
    rewrite fread_app by done. cbn [pixel_bytes pixel_of_bytes mbind option_bind].
    destruct (set_at_in_range t h w y x {| B := B q; G := G q; R := R q |} Ht)
      as (t' & Hset & Ht' & Hget'); [lia | lia |].
    rewrite Hset. cbn [mbind option_bind].
    eexists. split; [done|]. cbn [fst snd].
    split; [done|]. split.
    + intros y' x' Hy' Hx' Hvis. rewrite Hget'. case_bool_decide as Hc.
      * destruct Hc as [-> ->].
        assert (get_at px y x = Some q) as ->
          by (apply get_at_Some; by exists row).
        by destruct q.
      * apply Hget; [done | done | lia].
    + by replace (Z.to_nat (x + 1)) with (S (Z.to_nat x)) by lia.
  - cbn [fst snd] in *. rewrite drop_ge in Hstream by lia.
    cbn [fmap list_fmap concat app] in Hstream. subst s'.
    exists g'. split; [done|]. split; [done|].
    intros y' x' Hy' Hx'. apply Hget; lia.
Qed.

(** The reader on the rows that the writer emits gives back the array,
    whatever the content of the allocated array. *)
Lemma read_pixels_rows uninitialised ih (px : grid Pixeldata) h w p tail :
  biWidth ih = w → Z.abs (biHeight ih) = h → biHeight ih ≠ INT_MIN →
  shape px h w → 0 ≤ w → padding w = Some p →
  read_pixels uninitialised ih (concat (row_bytes p <$> px) ++ tail)
  = Some (mkImage w h px).
Proof.
  intros Hw Hh Hmin Hs Hw0 Hp. pose proof (shape_length _ _ _ Hs) as Hlen.
  pose proof (padding_range _ _ Hp) as Hpr.
  unfold read_pixels. cbv zeta. rewrite Hw, Hh.
  rewrite (bool_decide_eq_false_2 (biHeight ih = INT_MIN)) by done.
  rewrite bool_decide_eq_false_2 by lia.
  rewrite Hp. cbn [mbind option_bind].
  destruct (for_range_total
    (λ y (st : grid Pixeldata * list Z),
       shape st.1 h w ∧
       (∀ y' x', 0 ≤ y' < y → 0 ≤ x' < w → get_at st.1 y' x' = get_at px y' x') ∧
       st.2 = concat (row_bytes p <$> drop (Z.to_nat y) px) ++ tail)
    0 h
    (λ y st,
       st ← for_range 0 w (λ x st,
         let '(pixels, in_file) := st in
         cell ← get_at pixels y x;
         let '(bytes, in_file) := fread (pixel_bytes cell) in_file in
         p ← pixel_of_bytes bytes;
         pixels ← set_at pixels y x p;
         Some (pixels, in_file)) st;
       Some (st.1, fseek_cur p st.2))
    (new_rows uninitialised h w, concat (row_bytes p <$> px) ++ tail))
    as ([g' s'] & Hrun & Hs' & Hget & _); [lia | | |].
  - split; [apply shape_new_rows; lia|]. split; [intros; lia | done].
  - intros y [t s] Hy (Ht & Hget & Hstream). cbn [fst snd] in *.
    destruct (arr_get_in_range px y) as [row Hrow]; [lia|].
    pose proof Hrow as Hrow'. apply arr_get_Some in Hrow' as [_ Hrow'].
    rewrite (drop_S _ _ _ Hrow') in Hstream.
    cbn [fmap list_fmap concat] in Hstream. unfold row_bytes at 1 in Hstream.
    rewrite <- !app_assoc in Hstream. subst s.
    destruct (read_pixels_row px t h w y row
      (replicate (Z.to_nat p) 0 ++
       concat (row_bytes p <$> drop (S (Z.to_nat y)) px) ++ tail)
      Hs Ht Hy Hrow Hget) as (t' & Hrow_run & Ht' & Hget').
    rewrite Hrow_run. cbn [mbind option_bind fst snd].
    eexists. split; [done|]. cbn [fst snd].
    split; [done|]. split; [done|].
    unfold fseek_cur. rewrite drop_app_length' by (by rewrite length_replicate).
    by replace (Z.to_nat (y + 1)) with (S (Z.to_nat y)) by lia.
  - cbn [fst snd] in *.
    match goal with |- context [for_range 0 h ?b ?s] =>
      change (for_range 0 h b s) with
        (for_range 0 h
          (λ y st,
             st ← for_range 0 w (λ x st,
               let '(pixels, in_file) := st in
               cell ← get_at pixels y x;
               let '(bytes, in_file) := fread (pixel_bytes cell) in_file in
               p ← pixel_of_bytes bytes;
               pixels ← set_at pixels y x p;
               Some (pixels, in_file)) st;
             Some (st.1, fseek_cur p st.2))
          (new_rows uninitialised h w, concat (row_bytes p <$> px) ++ tail))
    end.
    rewrite Hrun. cbn [mbind option_bind fst]. f_equal. f_equal.
    apply (grid_ext _ _ h w); [done | done |].
    intros y x Hy Hx. by apply Hget.
Qed.

(** *** Headers *)

Lemma le_value_le_bytes n v : le_value (le_bytes n v) = v mod 256 ^ Z.of_nat n.
Proof.
  revert v. induction n as [|n IH]; intros v.
  - cbn [le_bytes le_value foldr]. by rewrite Z.mod_1_r.
  - cbn [le_bytes le_value foldr]. fold (le_value (le_bytes n (v / 256))).
    rewrite IH, Nat2Z.inj_succ, Z.pow_succ_r by lia.
    rewrite Z.rem_mul_r by lia. done.
Qed.

Lemma le_value_range bytes :
  Forall is_byte bytes → 0 ≤ le_value bytes < 256 ^ Z.of_nat (length bytes).
Proof.
  induction 1 as [|b bytes Hb _ IH]; [done|].
  cbn [le_value foldr length]. fold (le_value bytes).
  rewrite Nat2Z.inj_succ, Z.pow_succ_r by lia. unfold is_byte in Hb. lia.
Qed.

Lemma field_here (a rest : list Z) size :
  length a = size → field (a ++ rest) 0 size = le_value a.
Proof. intros Ha. unfold field. by rewrite drop_0, take_app_length'. Qed.

Lemma field_skip (a rest : list Z) k offset size :
  length a = k → (k ≤ offset)%nat →
  field (a ++ rest) offset size = field rest (offset - k) size.
Proof. intros Ha Hk. unfold field. by rewrite drop_app_ge, Ha by lia. Qed.

Lemma unsigned_field n v :
  0 ≤ v < 256 ^ Z.of_nat n → le_value (le_bytes n v) = v.
Proof. intros Hv. rewrite le_value_le_bytes. by apply Z.mod_small. Qed.

Lemma signed_field v :
  - 2 ^ 31 ≤ v < 2 ^ 31 → to_LONG (le_value (le_bytes 4 v)) = v.
Proof.
  intros Hv. rewrite le_value_le_bytes. unfold to_LONG.
  change (256 ^ Z.of_nat 4) with (2 ^ 32).
  destruct (v mod 2 ^ 32 <? 2 ^ 31) eqn:Hlt.
  - apply Z.ltb_lt in Hlt. Z.div_mod_to_equations. lia.
  - apply Z.ltb_ge in Hlt. Z.div_mod_to_equations. lia.
Qed.

Ltac header_fields :=
  repeat first
    [ rewrite field_here by apply length_le_bytes
    | rewrite (field_skip (le_bytes 2 _) _ 2) by (apply length_le_bytes || lia)
    | rewrite (field_skip (le_bytes 4 _) _ 4) by (apply length_le_bytes || lia) ];
  cbn [Nat.sub].

Lemma read_file_header_bytes fh :
  file_header_ok fh → read_file_header (file_header_bytes fh) = fh.
Proof.
  intros (H1 & H2 & H3 & H4 & H5). destruct fh as [a b c d e].
  cbn [bfType bfSize bfReserved1 bfReserved2 bfOffBits] in *.
  unfold read_file_header, file_header_bytes.
  cbn [bfType bfSize bfReserved1 bfReserved2 bfOffBits].
  rewrite <- (app_nil_r (le_bytes 4 e)).
  f_equal; header_fields; by apply unsigned_field.
Qed.

Lemma read_info_header_bytes ih :
  info_header_ok ih → read_info_header (info_header_bytes ih) = ih.
Proof.
  intros (H1 & H2 & H3 & H4 & H5 & H6 & H7 & H8 & H9 & H10 & H11).
  destruct ih as [a b c d e f g h i j k].
  cbn [biSize biWidth biHeight biPlanes biBitCount biCompression biSizeImage
       biXPelsPerMeter biYPelsPerMeter biClrUsed biClrImportant] in *.
  unfold read_info_header, info_header_bytes.
  cbn [biSize biWidth biHeight biPlanes biBitCount biCompression biSizeImage
       biXPelsPerMeter biYPelsPerMeter biClrUsed biClrImportant].
  rewrite <- (app_nil_r (le_bytes 4 k)).
  f_equal; header_fields;
    first [by apply unsigned_field | by apply signed_field].
Qed.

Lemma bitmap_24_test fh ih :
  bitmap_24 fh ih →
  bool_decide (bfType fh ≠ 0x4D42 ∨ biBitCount ih ≠ 24 ∨ biCompression ih ≠ 0) = false.
Proof. intros (H1 & H2 & H3). apply bool_decide_eq_false_2. intros [?|[?|?]]; done. Qed.

(** Reading what was written. *)

(** Reading what was written. *)
Lemma read_written system uninitialised fuel path (files : filesystem)
    image fh ih fh0 ih0 p :
  wf_image image → loaded_ok (mkLoaded image fh ih) →
  padding (width image) = Some p →
  files !! path =
    Some (file_header_bytes fh ++ info_header_bytes ih ++
          concat (row_bytes p <$> pixels image)) →
  check_and_read_file system uninitialised (S fuel) path fh0 ih0 files
  = Returns (0, Some image, fh, ih, files).
Proof.
  intros (Hw & Hh & Hs) (Hfh & Hih & H24 & (Hdw & Hdh & Hmin) & _) Hp Hfile.
  cbn [l_image l_file_header l_info_header] in *.
  cbn [check_and_read_file]. rewrite Hfile.
  rewrite fread_app by (by rewrite !length_file_header_bytes).
  rewrite fread_app by (by rewrite !length_info_header_bytes).
  rewrite read_file_header_bytes, read_info_header_bytes by done.
  rewrite (bitmap_24_test _ _ H24).
  rewrite <- (app_nil_r (concat _)).
  rewrite (read_pixels_rows uninitialised ih (pixels image) (height image)
             (width image) p []); [| done | done | done | done | lia | done].
  by destruct image.
Qed.

Lemma write_then_read
    (system : list ascii → filesystem → Z * filesystem)
    (uninitialised : Z → Z → Pixeldata) (fuel : nat)
    (name file_path : list ascii) (image : ImageDetails)
    (fh fh0 : BitmapFileHeader) (ih ih0 : BitmapInfoHeader)
    (files : filesystem) :
  wf_image image → loaded_ok (mkLoaded image fh ih) →
  width image * 3 ≤ INT_MAX →
  ∃ files', make_output_file name image file_path fh ih files = Some files' ∧
    check_and_read_file system uninitialised (S fuel)
      (out_file_path name file_path) fh0 ih0 files'
    = Returns (0, Some image, fh, ih, files').
Proof.
  intros Hwf Hok Hmax. pose proof Hwf as (Hw & Hh & Hs).
  destruct (padding_defined (width image)) as (p & Hp & _); [lia | done |].
  unfold make_output_file.
  rewrite (output_bytes_spec image fh ih p Hs Hp). cbn [mbind option_bind].
  eexists. split; [done|].
  apply (read_written _ _ _ _ _ _ _ _ _ _ p); [done | done | done |].
  apply lookup_insert_eq.
Qed.


Lemma sample_loaded_ok : loaded_ok sample_loaded.
Proof.
  unfold loaded_ok, file_header_ok, info_header_ok, bitmap_24, describes, shape.
  cbn. repeat split; try lia; try done. repeat constructor.
Qed.


(** *** The retry after a conversion *)

Lemma replace_ext_last_four filename :
  (4 ≤ length (replace_ext_with_bmp filename))%nat ∧
  drop (length (replace_ext_with_bmp filename) - 4) (replace_ext_with_bmp filename)
  = str ".bmp".
Proof.
  rewrite replace_ext_stem, length_app.
  change (length (str ".bmp")) with 4%nat. split; [lia|].
  apply drop_app_length'. lia.
Qed.

(** For a path that ends in [".bmp"] no conversion is tried: the call
    does not recurse. *)
Lemma check_bmp_path system uninitialised fuel file_path fh ih
    (files : filesystem) :
  (4 ≤ length file_path)%nat →
  drop (length file_path - 4) file_path = str ".bmp" →
  check_and_read_file system uninitialised (S fuel) file_path fh ih files
  = check_and_read_file system uninitialised 1 file_path fh ih files ∧
  check_and_read_file system uninitialised 1 file_path fh ih files ≠ Unfinished.
Proof.
  intros Hlen Hext. cbn [check_and_read_file].
  destruct (files !! file_path) as [in_file|]; [|done].
  destruct (fread (file_header_bytes fh) in_file) as [hb r1].
  destruct (fread (info_header_bytes ih) r1) as [ib r2].
  rewrite (bool_decide_eq_false_2 (length file_path < 4)%nat) by lia.
  rewrite (bool_decide_eq_false_2 (drop _ file_path ≠ _)) by (by intros ?).
  cbn [orb].
  case_bool_decide; [done|]. by destruct (read_pixels _ _ _).
Qed.

(** X23: [check_and_read_file] calls itself at most once: the path of the
    second call ends in [".bmp"], for which no conversion is tried.  A
    depth of two is enough for every path, set of files, conversion
    command and content of the headers and of the allocated array. *)
Theorem check_and_read_file_terminates
    (system : list ascii → filesystem → Z * filesystem)
    (uninitialised : Z → Z → Pixeldata) (fuel : nat)
    (file_path : list ascii) (fh : BitmapFileHeader) (ih : BitmapInfoHeader)
    (files : filesystem) :
  check_and_read_file system uninitialised (S (S fuel)) file_path fh ih files
  = check_and_read_file system uninitialised 2 file_path fh ih files ∧
  check_and_read_file system uninitialised 2 file_path fh ih files ≠ Unfinished.
Proof.
  cbn [check_and_read_file].
  destruct (files !! file_path) as [in_file|]; [|done].
  destruct (fread (file_header_bytes fh) in_file) as [hb r1].
  destruct (fread (info_header_bytes ih) r1) as [ib r2].
  case_bool_decide; [|by destruct (read_pixels _ _ _)].
  destruct (_ || _); [|done].
  destruct (convert_to_bmp system file_path files) as [[|] files']; [|done].
  destruct (replace_ext_last_four (get_filename file_path)) as [Hlen Hext].
  destruct (check_bmp_path system uninitialised fuel _ (read_file_header hb)
              (read_info_header ib) files' Hlen Hext) as [H1 H2].
  split.
  - exact H1.
  - exact H2.
Qed.

(** *** What a successful read hands back *)

Lemma field_range bytes offset size :
  Forall is_byte bytes → 0 ≤ field bytes offset size < 256 ^ Z.of_nat size.
Proof.
  intros Hb. unfold field.
  pose proof (le_value_range (take size (drop offset bytes))
                (Forall_take _ _ _ (Forall_drop _ _ _ Hb))) as Hr.
  assert (256 ^ Z.of_nat (length (take size (drop offset bytes)))
          ≤ 256 ^ Z.of_nat size).
  { apply Z.pow_le_mono_r; [lia|]. rewrite length_take. lia. }
  lia.
Qed.

Lemma to_LONG_range v : 0 ≤ v < 2 ^ 32 → - 2 ^ 31 ≤ to_LONG v < 2 ^ 31.
Proof.
  intros Hv. unfold to_LONG. destruct (v <? 2 ^ 31) eqn:Hlt.
  - apply Z.ltb_lt in Hlt. lia.
  - apply Z.ltb_ge in Hlt. lia.
Qed.

Lemma read_file_header_ok bytes :
  Forall is_byte bytes → file_header_ok (read_file_header bytes).
Proof.
  intros Hb. unfold file_header_ok, read_file_header.
  cbn [bfType bfSize bfReserved1 bfReserved2 bfOffBits].
  repeat split; try apply (field_range bytes _ 2 Hb);
    apply (field_range bytes _ 4 Hb).
Qed.

Lemma read_info_header_ok bytes :
  Forall is_byte bytes → info_header_ok (read_info_header bytes).
Proof.
  intros Hb. unfold info_header_ok, read_info_header.
  cbn [biSize biWidth biHeight biPlanes biBitCount biCompression biSizeImage
       biXPelsPerMeter biYPelsPerMeter biClrUsed biClrImportant].
  pose proof (λ o, field_range bytes o 2 Hb) as H2.
  pose proof (λ o, field_range bytes o 4 Hb) as H4.
  pose proof (λ o, to_LONG_range _ (H4 o)) as HL.
  change (256 ^ Z.of_nat 2) with (2 ^ 16) in H2.
  change (256 ^ Z.of_nat 4) with (2 ^ 32) in H4.
  repeat split; first [apply H2 | apply H4 | apply HL].
Qed.

Lemma pixel_of_bytes_byte bytes q :
  Forall is_byte bytes → pixel_of_bytes bytes = Some q → byte_pixel q.
Proof.
  intros Hb. destruct bytes as [|b [|g [|r [|? ?]]]]; try done.
  intros [= <-]. unfold byte_pixel. cbn [R G B].
  apply Forall_cons in Hb as [Hb1 Hb]. apply Forall_cons in Hb as [Hb2 Hb].
  apply Forall_cons in Hb as [Hb3 _]. done.
Qed.

Lemma le_bytes_bytes n v : Forall is_byte (le_bytes n v).
Proof.
  revert v. induction n as [|n IH]; intros v; [constructor|].
  cbn [le_bytes]. constructor; [|apply IH].
  unfold is_byte. pose proof (Z.mod_pos_bound v 256). lia.
Qed.

Lemma file_header_bytes_bytes fh : Forall is_byte (file_header_bytes fh).
Proof. unfold file_header_bytes. repeat (apply Forall_app; split); apply le_bytes_bytes. Qed.

Lemma info_header_bytes_bytes ih : Forall is_byte (info_header_bytes ih).
Proof. unfold info_header_bytes. repeat (apply Forall_app; split); apply le_bytes_bytes. Qed.

Lemma pixel_bytes_bytes q : byte_pixel q → Forall is_byte (pixel_bytes q).
Proof.
  intros (? & ? & ?). unfold pixel_bytes, is_byte.
  repeat (constructor; [done|]). constructor.
Qed.

(** The image that the reader builds has the dimensions of the header,
    an array of that shape and, from a file of bytes, pixels of bytes,
    also where the file ends early. *)
Lemma read_pixels_image uninitialised ih in_file image :
  (∀ y x, byte_pixel (uninitialised y x)) →
  Forall is_byte in_file → read_pixels uninitialised ih in_file = Some image →
  describes ih image ∧
  shape (pixels image) (height image) (width image) ∧ byte_image image.
Proof.
  intros Hjunk Hbytes. unfold read_pixels. cbv zeta.
  case_bool_decide as Hmin; [done|]. case_bool_decide as Hneg; [done|].
  destruct (padding (biWidth ih)) as [p|] eqn:Hp; [|done].
  cbn [mbind option_bind].
  set (h := Z.abs (biHeight ih)). set (w := biWidth ih).
  assert (0 ≤ h) as Hh by (subst h; lia).
  destruct (for_range 0 h _ _) as [[g s]|] eqn:Hrun; [|done].
  cbn [mbind option_bind fst]. intros [= <-]. cbn [width height pixels].
  split; [done|].
  destruct (decide (0 ≤ w)) as [Hw|Hw]; cycle 1.
  { assert (h = 0) as Hz by lia. rewrite Hz in Hrun |- *.
    rewrite for_range_empty in Hrun by lia. injection Hrun as <- _.
    change (new_rows uninitialised 0 w) with (@nil (list Pixeldata)).
    split; [split; [done | constructor]|].
    intros y x q Hq. cbn [pixels] in Hq. unfold get_at, arr_get in Hq.
    destruct (bool_decide (0 ≤ y)); [rewrite lookup_nil in Hq|]; done. }
  apply (for_range_partial
    (λ _ (st : grid Pixeldata * list Z),
       shape st.1 h w ∧
       (∀ y' x' q, get_at st.1 y' x' = Some q → byte_pixel q) ∧
       Forall is_byte st.2)) in Hrun; [| lia | |].
  - destruct Hrun as (Hs & Hb & _). cbn [fst] in *. done.
  - cbn [fst snd]. split; [apply shape_new_rows; lia|]. split; [|done].
    intros y x q Hq.
    pose proof (get_at_range _ _ _ _ _ _ (shape_new_rows uninitialised h w Hh Hw) Hq)
      as [Hy Hx].
    rewrite get_at_new_rows in Hq by done. injection Hq as <-. apply Hjunk.
  - intros y [t u] t' Hy (Ht & Hb & Hu) Hstep. cbn [fst snd] in *.
    destruct (for_range 0 w _ (t, u)) as [[t1 u1]|] eqn:Hrow; [|done].
    cbn [mbind option_bind fst snd] in Hstep. injection Hstep as <-.
    cbn [fst snd].
    apply (for_range_partial
      (λ _ (st : grid Pixeldata * list Z),
         shape st.1 h w ∧
         (∀ y' x' q, get_at st.1 y' x' = Some q → byte_pixel q) ∧
         Forall is_byte st.2)) in Hrow; [| lia | |].
    + destruct Hrow as (Ht1 & Hb1 & Hu1). cbn [fst snd] in *.
      split; [done|]. split; [done | by apply Forall_drop].
    + done.
    + intros x [t2 u2] t3 Hx (Ht2 & Hb2 & Hu2) Hcell. cbn [fst snd] in *.
      destruct (get_at t2 y x) as [cell|] eqn:Hc; [|done].
      cbn [mbind option_bind] in Hcell.
      destruct (fread_bytes (pixel_bytes cell) u2) as [Hrb Hrr];
        [by eapply pixel_bytes_bytes, Hb2 | done |].
      destruct (fread (pixel_bytes cell) u2) as [bytes rest].
      cbn [fst snd] in *.
      destruct (pixel_of_bytes bytes) as [q|] eqn:Hq; [|done].
      cbn [mbind option_bind] in Hcell.
      destruct (set_at t2 y x q) as [t4|] eqn:Hset; [|done].
      cbn [mbind option_bind] in Hcell. injection Hcell as <-. cbn [fst snd].
      destruct (set_at_in_range t2 h w y x q Ht2) as (t5 & Hset' & Ht5 & Hget5);
        [lia | lia |].
      assert (t5 = t4) as -> by congruence.
      split; [done|]. split; [|done].
      intros y' x' q'. rewrite Hget5. case_bool_decide as Hcase.
      * intros [= <-]. by apply (pixel_of_bytes_byte bytes).
      * apply Hb2.
Qed.

Lemma check_loaded (system : list ascii → filesystem → Z * filesystem)
    (uninitialised : Z → Z → Pixeldata) :
  (∀ command files, byte_files files → byte_files (system command files).2) →
  (∀ y x, byte_pixel (uninitialised y x)) →
  ∀ fuel file_path fh0 ih0 files image fh ih files',
    byte_files files →
    check_and_read_file system uninitialised fuel file_path fh0 ih0 files
    = Returns (0, image, fh, ih, files') →
    ∃ img, image = Some img ∧ loaded_ok (mkLoaded img fh ih) ∧
           byte_image img ∧ byte_files files'.
Proof.
  intros Hsys Hjunk. induction fuel as [|fuel IH];
    intros file_path fh0 ih0 files image fh ih files' Hf; [done|].
  cbn [check_and_read_file].
  destruct (files !! file_path) as [in_file|] eqn:Hfile; [|done].
  pose proof (Hf _ _ Hfile) as Hin.
  destruct (fread_bytes (file_header_bytes fh0) in_file) as [Hhb Hr1];
    [apply file_header_bytes_bytes | done |].
  destruct (fread (file_header_bytes fh0) in_file) as [hb r1]. cbn [fst snd] in *.
  destruct (fread_bytes (info_header_bytes ih0) r1) as [Hib Hr2];
    [apply info_header_bytes_bytes | done |].
  destruct (fread (info_header_bytes ih0) r1) as [ib r2]. cbn [fst snd] in *.
  case_bool_decide as Hvalid.
  - destruct (_ || _); [|done].
    unfold convert_to_bmp. destruct (_ && _); [by apply IH|].
    match goal with |- context [system ?c files] =>
      pose proof (Hsys c files Hf) as Hsys';
      destruct (system c files) as [result files1]
    end.
    case_bool_decide; [|done]. by apply IH.
  - destruct (read_pixels _ _ _) as [img|] eqn:Hpx; [|done].
    intros [= <- <- <- <-]. eexists. split; [done|].
    apply read_pixels_image in Hpx as (Hd & Hs & Hb); [| done | done].
    split; [|done]. unfold loaded_ok.
    cbn [l_image l_file_header l_info_header].
    split; [by apply read_file_header_ok|].
    split; [by apply read_info_header_ok|].
    split; [|done]. unfold bitmap_24.
    destruct (decide (bfType (read_file_header hb) = 0x4D42));
      [|by exfalso; apply Hvalid; left].
    split; [done|]. split.
    + destruct (decide (biBitCount (read_info_header ib) = 24)); [done|].
      exfalso. apply Hvalid. right. by left.
    + destruct (decide (biCompression (read_info_header ib) = 0)); [done|].
      exfalso. apply Hvalid. right. by right.
Qed.

(** X24: when [check_and_read_file] returns 0 on files of bytes (the
    conversion command leaving files of bytes, the allocated memory
    holding bytes), it hands back headers that pass its test for an
    uncompressed 24-bit bitmap and whose fields are in the ranges of their
    types, and an image of the width and the absolute height of the
    header, with an array of that shape and pixels of bytes.  This holds
    also of a file that ends early, which the code, never testing the
    result of [fread], reads with the return value 0. *)
Theorem successful_read_is_consistent
    (system : list ascii → filesystem → Z * filesystem)
    (uninitialised : Z → Z → Pixeldata) (fuel : nat)
    (file_path : list ascii) (fh0 fh : BitmapFileHeader)
    (ih0 ih : BitmapInfoHeader) (files files' : filesystem)
    (image : option ImageDetails) :
  (∀ command files, byte_files files → byte_files (system command files).2) →
  (∀ y x, byte_pixel (uninitialised y x)) →
  byte_files files →
  check_and_read_file system uninitialised fuel file_path fh0 ih0 files
  = Returns (0, image, fh, ih, files') →
  ∃ img, image = Some img ∧ loaded_ok (mkLoaded img fh ih) ∧
         byte_image img ∧ byte_files files'.
Proof. intros Hsys Hjunk Hf Hrun. by eapply check_loaded. Qed.

Lemma sample_file_bytes : Forall is_byte sample_file.
Proof.
  apply (bool_decide_eq_true (Forall is_byte sample_file)).
  vm_compute. reflexivity.
Qed.

Lemma short_files_bytes : byte_files short_files.
Proof.
  intros p bytes Hp. unfold short_files in Hp.
  apply lookup_singleton_Some in Hp as [_ <-].
  apply Forall_take, sample_file_bytes.
Qed.

Lemma successful_read_is_consistent_witness :
  (∀ command files, byte_files files → byte_files (no_convert command files).2) ∧
  (∀ y x, byte_pixel (blank_memory y x)) ∧
  byte_files short_files ∧
  check_and_read_file no_convert blank_memory 1 (str "cut.bmp")
    blank_file_header blank_info_header short_files
  = Returns (0, Some cut_image, sample_file_header, sample_info_header,
             short_files) ∧
  ∃ img, Some cut_image = Some img ∧
         loaded_ok (mkLoaded img sample_file_header sample_info_header) ∧
         byte_image img ∧ byte_files short_files.
Proof.
  assert (∀ command files, byte_files files →
            byte_files (no_convert command files).2) as Hsys by (intros; done).
  assert (∀ y x, byte_pixel (blank_memory y x)) as Hjunk
    by (intros; unfold byte_pixel, blank_memory; simpl; lia).
  pose proof short_files_bytes as Hf.
  assert (check_and_read_file no_convert blank_memory 1 (str "cut.bmp")
            blank_file_header blank_info_header short_files
          = Returns (0, Some cut_image, sample_file_header, sample_info_header,
                     short_files)) as Hrun
    by (vm_compute; reflexivity).
  split; [exact Hsys|]. split; [exact Hjunk|]. split; [exact Hf|].
  split; [exact Hrun|].
  apply (successful_read_is_consistent no_convert blank_memory 1 (str "cut.bmp")
           blank_file_header sample_file_header blank_info_header
           sample_info_header short_files short_files (Some cut_image)
           Hsys Hjunk Hf Hrun).
Defined.

(** ** The program *)

Lemma selectFilter_same_dims selected_filter filter_strength new_size image r :
  wf_image image → 1 ≤ selected_filter ≤ 7 → 1 ≤ filter_strength ≤ 100 →
  selectFilter selected_filter filter_strength new_size image = Some r →
  same_dims image r.
Proof.
  intros Hwf Hsel Hs.
  assert (selected_filter = 1 ∨ selected_filter = 2 ∨ selected_filter = 3 ∨
          selected_filter = 4 ∨ selected_filter = 5 ∨ selected_filter = 6 ∨
          selected_filter = 7) as [->|[->|[->|[->|[->|[->| ->]]]]]] by lia;
    cbn [selectFilter]; intros Hrun.
  - destruct (applyGrayscale_spec image Hwf) as (r' & Hr' & Hd & _). congruence.
  - destruct (applySepia_spec image filter_strength Hwf) as (r' & Hr' & Hd & _).
    congruence.
  - destruct (applyFlip_spec image Hwf) as (r' & Hr' & Hd & _). congruence.
  - destruct (blur_passes_frame image filter_strength Hwf) as (r' & Hr' & Hd & _).
    congruence.
  - destruct (applySharpen_spec image filter_strength Hwf Hs)
      as (b & r' & _ & Hr' & Hd & _). congruence.
  - destruct (applyEdgeDetection_spec image Hwf) as (g & r' & _ & Hr' & Hd & _).
    congruence.
  - by destruct (applyNoiseReduction_partial _ _ _ Hwf Hrun).
Qed.

(** X25: for the filters 1 to 7 and a strength in [1, 100], whenever the
    filter completes on a consistently loaded image, the end of [main]
    writes under the name [output_file] a file that [check_and_read_file]
    reads, with the return value 0, as the filtered image and the headers
    of the input. *)
Theorem filtered_output_reads_back
    (system : list ascii → filesystem → Z * filesystem)
    (uninitialised : Z → Z → Pixeldata) (fuel : nat)
    (selected_filter filter_strength new_size : Z) (file_path : list ascii)
    (l : loaded) (fh0 : BitmapFileHeader) (ih0 : BitmapInfoHeader)
    (files : filesystem) :
  wf_image (l_image l) → loaded_ok l → width (l_image l) * 3 ≤ INT_MAX →
  1 ≤ selected_filter ≤ 7 → 1 ≤ filter_strength ≤ 100 →
  is_Some (selectFilter selected_filter filter_strength new_size (l_image l)) →
  ∃ image' name files',
    selectFilter selected_filter filter_strength new_size (l_image l)
    = Some image' ∧
    output_file file_path selected_filter = Some name ∧
    filter_and_save selected_filter filter_strength new_size file_path l files
    = Some files' ∧
    check_and_read_file system uninitialised (S fuel)
      (out_file_path name file_path) fh0 ih0 files'
    = Returns (0, Some image', l_file_header l, l_info_header l, files').
Proof.
  intros Hwf (Hfh & Hih & H24 & (Hdw & Hdh & Hmin) & _) Hmax Hsel Hs [image' Hrun].
  pose proof (selectFilter_same_dims _ _ _ _ _ Hwf Hsel Hs Hrun) as Hd.
  pose proof (same_dims_wf _ _ Hwf Hd) as Hwf'.
  pose proof Hd as (Hdw' & Hdh' & Hshape).
  destruct (arr_get_in_range FILTER_TYPES selected_filter) as [t Ht];
    [cbn [length FILTER_TYPES]; lia|].
  destruct (write_then_read system uninitialised fuel
    (strip_extension (get_filename file_path) ++ str "_" ++ t.1 ++ str ".bmp")
    file_path image' (l_file_header l) fh0 (l_info_header l) ih0 files Hwf')
    as (files' & Hwrite & Hread); [| lia |].
  { unfold loaded_ok, describes. cbn [l_image l_file_header l_info_header].
    rewrite Hdw', Hdh'. repeat (split; [done|]). done. }
  exists image',
    (strip_extension (get_filename file_path) ++ str "_" ++ t.1 ++ str ".bmp"),
    files'.
  split; [done|].
  unfold filter_and_save, output_file. rewrite Hrun, Ht.
  cbn [mbind option_bind]. rewrite bool_decide_eq_true_2 by lia.
  done.
Qed.

Lemma filtered_output_reads_back_witness :
  wf_image (l_image sample_loaded) ∧ loaded_ok sample_loaded ∧
  width (l_image sample_loaded) * 3 ≤ INT_MAX ∧
  1 ≤ 3 ≤ 7 ∧ 1 ≤ 1 ≤ 100 ∧
  is_Some (selectFilter 3 1 0 (l_image sample_loaded)) ∧
  ∃ image' name files',
    selectFilter 3 1 0 (l_image sample_loaded) = Some image' ∧
    output_file (str "in.bmp") 3 = Some name ∧
    filter_and_save 3 1 0 (str "in.bmp") sample_loaded bmp_files = Some files' ∧
    check_and_read_file no_convert blank_memory 1
      (out_file_path name (str "in.bmp")) blank_file_header blank_info_header
      files'
    = Returns (0, Some image', l_file_header sample_loaded,
               l_info_header sample_loaded, files').
Proof.
  assert (wf_image (l_image sample_loaded)) as Hwf.
  { unfold wf_image, shape. simpl.
    split; [lia|]. split; [lia|]. split; [reflexivity|]. repeat constructor. }
  pose proof sample_loaded_ok as Hok.
  assert (width (l_image sample_loaded) * 3 ≤ INT_MAX) as Hmax
    by (vm_compute; discriminate).
  assert (is_Some (selectFilter 3 1 0 (l_image sample_loaded))) as Hrun
    by (eexists; vm_compute; reflexivity).
  split; [exact Hwf|]. split; [exact Hok|]. split; [exact Hmax|].
  split; [lia|]. split; [lia|]. split; [exact Hrun|].
  apply (filtered_output_reads_back no_convert blank_memory 0 3 1 0
           (str "in.bmp") sample_loaded blank_file_header blank_info_header
           bmp_files Hwf Hok Hmax); [lia | lia | exact Hrun].
Defined.

Lemma size_minus_4_short (s : list ascii) :
  (length s < 4)%nat → substr s (size_minus_4 s) = None.
Proof.
  intros Hs. unfold substr, size_minus_4.
  assert ((Z.of_nat (length s) - 4) mod 2 ^ 64
          = Z.of_nat (length s) - 4 + 2 ^ 64) as ->.
  { symmetry. apply (Z.mod_unique _ _ (-1)); lia. }
  rewrite bool_decide_eq_false_2; [done | lia].
Qed.

Lemma size_minus_4_long (s ext : list ascii) :
  Z.of_nat (length s) < 2 ^ 64 →
  substr s (size_minus_4 s) = Some ext →
  (4 ≤ length s)%nat ∧ s = take (length s - 4) s ++ ext.
Proof.
  intros Hsize Hsub.
  destruct (decide (length s < 4)%nat) as [Hs|Hs].
  { by rewrite size_minus_4_short in Hsub. }
  split; [lia|]. unfold substr, size_minus_4 in Hsub.
  rewrite Z.mod_small in Hsub by lia.
  case_bool_decide; [|done]. injection Hsub as <-.
  replace (Z.to_nat (Z.of_nat (length s) - 4)) with (length s - 4)%nat by lia.
  by rewrite take_drop.
Qed.

Lemma has_bmp_suffix_last_four (p : list ascii) :
  has_bmp_suffix p ↔
  (4 ≤ length p)%nat ∧ drop (length p - 4) p = str ".bmp".
Proof.
  split.
  - intros [stem ->]. rewrite length_app.
    change (length (str ".bmp")) with 4%nat. split; [lia|].
    apply drop_app_length'. lia.
  - intros [Hlen Hext]. exists (take (length p - 4) p).
    by rewrite <- Hext, take_drop.
Qed.

(** X26: a path of fewer than four characters under which
    [check_and_read_file] finds or makes a bitmap stops [main]: the test
    for the extension takes the substring from [size() - 4], a position
    past the end of the path, and [substr] throws. *)
Theorem short_path_aborts
    (system : list ascii → filesystem → Z * filesystem)
    (uninitialised : Z → Z → Pixeldata) (fuel : nat)
    (file_path : list ascii) (fh0 fh : BitmapFileHeader)
    (ih0 ih : BitmapInfoHeader) (files files' : filesystem)
    (image : option ImageDetails) :
  file_path ≠ [] → (length file_path < 4)%nat →
  check_and_read_file system uninitialised fuel file_path fh0 ih0 files
  = Returns (0, image, fh, ih, files') →
  ask_path system uninitialised fuel file_path fh0 ih0 files = Fails.
Proof.
  intros Hne Hshort Hrun. unfold ask_path.
  rewrite bool_decide_eq_false_2 by done. rewrite Hrun.
  rewrite bool_decide_eq_true_2 by done.
  by rewrite size_minus_4_short.
Qed.

Lemma short_path_aborts_witness :
  str "a" ≠ [] ∧ (length (str "a") < 4)%nat ∧
  check_and_read_file no_convert blank_memory 1 (str "a")
    blank_file_header blank_info_header sample_files
  = Returns (0, Some sample_image, sample_file_header, sample_info_header,
             sample_files) ∧
  ask_path no_convert blank_memory 1 (str "a")
    blank_file_header blank_info_header sample_files = Fails.
Proof.
  assert (str "a" ≠ []) as Hne by done.
  assert (length (str "a") < 4)%nat as Hshort by (cbn; lia).
  assert (check_and_read_file no_convert blank_memory 1 (str "a")
            blank_file_header blank_info_header sample_files
          = Returns (0, Some sample_image, sample_file_header,
                     sample_info_header, sample_files)) as Hrun
    by (vm_compute; reflexivity).
  split; [exact Hne|]. split; [exact Hshort|]. split; [exact Hrun|].
  apply (short_path_aborts no_convert blank_memory 1 (str "a")
           blank_file_header sample_file_header blank_info_header
           sample_info_header sample_files sample_files (Some sample_image)
           Hne Hshort Hrun).
Defined.

(** The path that a pass of the path loop keeps. *)
Lemma ask_path_kept
    (system : list ascii → filesystem → Z * filesystem)
    (uninitialised : Z → Z → Pixeldata) (fuel : nat)
    (file_path kept : list ascii) (fh0 : BitmapFileHeader)
    (ih0 : BitmapInfoHeader) (files files' : filesystem) (l : loaded) :
  Z.of_nat (length file_path) < 2 ^ 64 →
  ask_path system uninitialised fuel file_path fh0 ih0 files
  = Returns (Proceed kept l files') →
  has_bmp_suffix file_path ∧ kept = file_path ∨
  ¬ has_bmp_suffix file_path ∧
  kept = replace_ext_with_bmp (get_filename file_path).
Proof.
  intros Hsize. unfold ask_path. case_bool_decide; [done|].
  destruct (check_and_read_file _ _ _ _ _ _ _)
    as [[[[[result image] fh] ih] files0]| |]; [|done..].
  case_bool_decide; [|done].
  destruct (substr _ _) as [ext|] eqn:Hsub; [|done].
  destruct image as [image|]; [|done].
  apply size_minus_4_long in Hsub as [Hlen Hsplit]; [|done].
  assert (ext = drop (length file_path - 4) file_path) as Hext.
  { rewrite Hsplit at 2. rewrite drop_app_length'; [done|].
    rewrite length_take. lia. }
  case_bool_decide as Hne; intros [= <- <- <-].
  - right. split; [|done]. intros [_ Hd]%has_bmp_suffix_last_four. congruence.
  - left. split; [|done]. apply has_bmp_suffix_last_four. split; [done|].
    congruence.
Qed.

(** X27: when a pass of the path loop of [main] goes on to the filter
    prompt, the path it keeps ends in [".bmp"]: it is the path entered if
    that ends in [".bmp"], and else the file name of the path entered
    with the extension replaced.  (The size of the path is a [size_t].) *)
Theorem kept_path_ends_in_bmp
    (system : list ascii → filesystem → Z * filesystem)
    (uninitialised : Z → Z → Pixeldata) (fuel : nat)
    (file_path kept : list ascii) (fh0 : BitmapFileHeader)
    (ih0 : BitmapInfoHeader) (files files' : filesystem) (l : loaded) :
  Z.of_nat (length file_path) < 2 ^ 64 →
  ask_path system uninitialised fuel file_path fh0 ih0 files
  = Returns (Proceed kept l files') →
  has_bmp_suffix kept ∧
  (has_bmp_suffix file_path → kept = file_path) ∧
  (¬ has_bmp_suffix file_path →
   kept = replace_ext_with_bmp (get_filename file_path)).
Proof.
  intros Hsize Hrun.
  destruct (ask_path_kept _ _ _ _ _ _ _ _ _ _ Hsize Hrun) as [[Hs ->]|[Hn ->]].
  - split; [done|]. split; [done|]. intros Hn. by destruct Hn.
  - split; [|split; [by intros Hs | done]].
    exists (strip_extension (get_filename file_path)). apply replace_ext_stem.
Qed.

Lemma kept_path_ends_in_bmp_witness :
  Z.of_nat (length (str "in.bmp")) < 2 ^ 64 ∧
  ask_path no_convert blank_memory 1 (str "in.bmp")
    blank_file_header blank_info_header bmp_files
  = Returns (Proceed (str "in.bmp") sample_loaded bmp_files) ∧
  has_bmp_suffix (str "in.bmp") ∧
  (has_bmp_suffix (str "in.bmp") → str "in.bmp" = str "in.bmp") ∧
  (¬ has_bmp_suffix (str "in.bmp") →
   str "in.bmp" = replace_ext_with_bmp (get_filename (str "in.bmp"))).
Proof.
  assert (Z.of_nat (length (str "in.bmp")) < 2 ^ 64) as Hsize by (cbn; lia).
  assert (ask_path no_convert blank_memory 1 (str "in.bmp")
            blank_file_header blank_info_header bmp_files
          = Returns (Proceed (str "in.bmp") sample_loaded bmp_files)) as Hrun
    by (vm_compute; reflexivity).
  split; [exact Hsize|]. split; [exact Hrun|].
  apply (kept_path_ends_in_bmp no_convert blank_memory 1 (str "in.bmp")
           (str "in.bmp") blank_file_header blank_info_header
           bmp_files bmp_files sample_loaded Hsize Hrun).
Defined.





